(** * metropolis.cpp: sweep parser, odometer, job pool and report journal

    A shallow embedding of the driver of the MSD Monte Carlo application
    (metropolis.cpp).  The file follows the C++ source top down:

    - [StdMap], [StdSet]: the [std::map<string,_>] and [std::set<string>]
      containers the driver keeps its tables in, as key-ordered lists;
    - [istream]: the formatted-extraction interface of [ifstream] the
      parser reads through;
    - the parameter-file parser of [main] (entry loop, range and list
      operators, label bookkeeping);
    - [algorithm]: one simulation job, over an abstract MSD engine;
    - [nextIter]: the odometer over the label cursors;
    - the pseudo thread pool, its drain loop, and [recordData];
    - the start of [main] (command line, output file) and [reportTime],
      which stand after the notions of the first part.

    C++ [double] is IEEE binary64, taken as Rocq's primitive [float].
    [int] and [unsigned] values are [Z] and [N]; every such value in the
    driver is a vector size or an index below one, so no wrap-around
    occurs and none is written. *)

From Stdlib Require Import ZArith NArith List String Ascii Bool Lia.
From Stdlib Require Import Floats Permutation OrderedTypeEx.

Set Warnings "-inexact-float".
Import ListNotations.

Local Open Scope string_scope.
Local Open Scope list_scope.

Set Implicit Arguments.

Definition double := float.

(** ** Containers *)

(** [std::map<std::string, V>]: entries kept in increasing key order, which
    is the order a range-for over the map visits them in. *)
Module StdMap.

Definition t (V : Type) := list (string * V).

Definition empty {V : Type} : t V := [].

(** [m.find(k)], [None] standing for [m.end()]. *)
Fixpoint find {V : Type} (k : string) (m : t V) : option V :=
  match m with
  | [] => None
  | (k', v) :: m' => if String.eqb k k' then Some v else find k m'
  end.

(** [m[k] = v]. *)
Fixpoint set {V : Type} (k : string) (v : V) (m : t V) : t V :=
  match m with
  | [] => [(k, v)]
  | (k', v') :: m' =>
      match String.compare k k' with
      | Lt => (k, v) :: m
      | Eq => (k, v) :: m'
      | Gt => (k', v') :: set k v m'
      end
  end.

Definition keys {V : Type} (m : t V) : list string := map fst m.

Definition mem {V : Type} (k : string) (m : t V) : bool :=
  match find k m with Some _ => true | None => false end.

End StdMap.

(** [std::set<std::string>], in increasing order. *)
Module StdSet.

Definition t := list string.

Fixpoint insert (k : string) (s : t) : t :=
  match s with
  | [] => [k]
  | k' :: s' =>
      match String.compare k k' with
      | Lt => k :: s
      | Eq => s
      | Gt => k' :: insert k s'
      end
  end.

End StdSet.

(** ** Input streams *)

(** What a numeric extraction leaves in its target: the converted value, or
    on a failed conversion the value the library stores instead (zero, or
    the largest value on overflow). *)
Inductive Scanned (T : Type) : Type :=
| ScanOk (v : T)
| ScanFail (stored : T).

Arguments ScanOk {T} v.
Arguments ScanFail {T} stored.

(** The parts of the C++ implementation the driver relies on and does not
    define: [num_get] for [double] and [unsigned] (given the characters
    after leading white space, the result and the characters left), the
    contents of an uninitialised [unsigned] or [double], and the
    conversions from [double] to the unsigned fields of [Info]. *)
Record Platform := mkPlatform {
  scan_double : string -> Scanned double * string;
  scan_unsigned : string -> Scanned N * string;
  garbage_unsigned : N;
  garbage_double : double;
  to_unsigned : double -> N;
  to_ull : double -> N
}.

(** An [istream]: the characters not yet extracted, and [good = false] once
    [failbit] is set (an extraction at end of file sets it as well). *)
Record istream := mkStream { buf : string; good : bool }.

Definition isspace (c : ascii) : bool :=
  let n := N_of_ascii c in ((n =? 32) || ((9 <=? n) && (n <=? 13)))%N.

Fixpoint skipws (s : string) : string :=
  match s with
  | String c s' => if isspace c then skipws s' else s
  | EmptyString => s
  end.

(** The longest prefix without white space, and what follows it. *)
Fixpoint span_word (s : string) : string * string :=
  match s with
  | String c s' =>
      if isspace c then (EmptyString, s)
      else let (w, r) := span_word s' in (String c w, r)
  | EmptyString => (EmptyString, EmptyString)
  end.

(** Up to the next newline, which is extracted and dropped. *)
Fixpoint span_line (s : string) : string * string :=
  match s with
  | String c s' =>
      if (N_of_ascii c =? 10)%N then (EmptyString, s')
      else let (w, r) := span_line s' in (String c w, r)
  | EmptyString => (EmptyString, EmptyString)
  end.

(** [fin.clear()] *)
Definition clear (fin : istream) : istream := mkStream (buf fin) true.

(** [fin >> str] for a [std::string]: [None] when the extraction fails, in
    which case the target keeps its value. *)
Definition read_string (fin : istream) : option string * istream :=
  if good fin then
    match skipws (buf fin) with
    | EmptyString => (None, mkStream EmptyString false)
    | s => let (w, r) := span_word s in (Some w, mkStream r true)
    end
  else (None, fin).

(** [getline(fin, str)] *)
Definition getline (fin : istream) : option string * istream :=
  if good fin then
    match buf fin with
    | EmptyString => (None, mkStream EmptyString false)
    | s => let (w, r) := span_line s in (Some w, mkStream r true)
    end
  else (None, fin).

(** [fin >> x] for a number: [None] when the sentry fails and the target is
    left untouched; otherwise what [num_get] stored. *)
Definition read_num {T : Type} (scan : string -> Scanned T * string)
    (fin : istream) : option (Scanned T) * istream :=
  if good fin then
    match skipws (buf fin) with
    | EmptyString => (None, mkStream EmptyString false)
    | s =>
        match scan s with
        | (ScanOk v, r) => (Some (ScanOk v), mkStream r true)
        | (ScanFail v, r) => (Some (ScanFail v), mkStream r false)
        end
    end
  else (None, fin).

(** The value a numeric target holds after an extraction into it. *)
Definition stored {T : Type} (before : T) (r : option (Scanned T)) : T :=
  match r with
  | Some (ScanOk v) => v
  | Some (ScanFail v) => v
  | None => before
  end.

(** ** The parameter-file parser *)

(** [struct Spin]: a custom spin magnitude and its position. *)
Record Spin := mkSpin {
  spin_x : N;
  spin_y : N;
  spin_z : N;
  spin_norm : double
}.

(** What the driver writes to [cerr]; numbers are kept as numbers, their
    rendering is the stream library's. *)
Inductive Msg : Type :=
| LabelSizeMsg (lbl key : string) (size prev : Z)
    (* "Label (lbl) has an inconsistant size", the entry, both sizes *)
| CorruptedMsg (code : Z)
    (* "(code) Corrupted parameters file!" *)
| MissingDataMsg
    (* "Parameter file is missing some data!" *)
| SpinWarningMsg (s : Spin)
    (* "Warning: couldn't set spin [x y z] = norm" *)
| MoleculeMsg.
    (* "MSD::MoleculeException: ..." *)

(** A piece of the parser returns, throws an [int] (after writing to
    [cerr]), or is still looping when the fuel is spent. *)
Inductive Outcome (A : Type) : Type :=
| Ret (a : A)
| Throw (e : Z) (err : list Msg)
| Hang.

Arguments Ret {A} a.
Arguments Throw {A} e err.
Arguments Hang {A}.

(** The tables [main] fills while reading the file. *)
Record Tables := mkTables {
  p : StdMap.t (list double);
  labelNames : list string;
  labelMap : StdMap.t StdSet.t;
  labelMapInv : StdMap.t string;
  iters : StdMap.t Z;
  iterLengths : StdMap.t Z;
  spins : list Spin
}.

Definition no_tables : Tables :=
  mkTables StdMap.empty [] StdMap.empty StdMap.empty StdMap.empty
    StdMap.empty [].

(** The loop test of the [:] operator:
    [(inc > 0 && val < lim) || (inc < 0 && val > lim)]. *)
Definition in_range (val lim inc : double) : bool :=
  (PrimFloat.ltb 0 inc && PrimFloat.ltb val lim)
  || (PrimFloat.ltb inc 0 && PrimFloat.ltb lim val).

(** [while (in_range) { vec.push_back(val); val += inc; }] *)
Fixpoint range_loop (fuel : nat) (val lim inc : double) (vec : list double)
    : option (list double) :=
  match fuel with
  | O => None
  | S fuel' =>
      if in_range val lim inc
      then range_loop fuel' (PrimFloat.add val inc) lim inc (vec ++ [val])
      else Some vec
  end.

(** [lim += inc / 256], the compensation for floating point error. *)
Definition padded_limit (lim inc : double) : double :=
  PrimFloat.add lim (PrimFloat.div inc 256).

Section Parser.

Variable P : Platform.

(** [while (fin >> val) vec.push_back(val);] *)
Fixpoint list_loop (fuel : nat) (vec : list double) (fin : istream)
    : option (list double * istream) :=
  match fuel with
  | O => None
  | S fuel' =>
      match read_num (scan_double P) fin with
      | (Some (ScanOk val), fin') => list_loop fuel' (vec ++ [val]) fin'
      | (_, fin') => Some (vec, fin')
      end
  end.

(** The [do ... while (vec.size() <= 0)] loop of one parameter entry; it
    returns [vec], [lbl], [str] and the stream as the loop leaves them. *)
Fixpoint entry_loop (fuel : nat) (vec : list double) (lbl str : string)
    (fin : istream) : Outcome (list double * string * string * istream) :=
  match fuel with
  | O => Hang
  | S fuel' =>
      match read_string fin with
      | (None, _) => Throw 1 []
      | (Some str, fin) =>
          let continue vec lbl str fin :=
            match vec with
            | [] => entry_loop fuel' vec lbl str fin
            | _ => Ret (vec, lbl, str, fin)
            end in
          if str =? "=" then
            match read_num (scan_double P) fin with
            | (Some (ScanOk val), fin) => continue (vec ++ [val]) lbl str fin
            | _ => Throw 5 []
            end
          else if str =? ":" then
            let (rval, fin) := read_num (scan_double P) fin in
            let (rlim, fin) := read_num (scan_double P) fin in
            let (rinc, fin) := read_num (scan_double P) fin in
            match rval, rlim, rinc with
            | Some (ScanOk val), Some (ScanOk lim), Some (ScanOk inc) =>
                if PrimFloat.eqb inc 0 then Throw 2 []
                else
                  match range_loop fuel' val (padded_limit lim inc) inc vec with
                  | Some vec => continue vec lbl str fin
                  | None => Hang
                  end
            | _, _, _ => Throw 2 []
            end
          else if str =? "{" then
            match list_loop fuel' vec fin with
            | Some (vec, fin) =>
                let (r, fin) := read_string (clear fin) in
                let str := match r with Some s => s | None => str end in
                if negb (str =? "}") then Throw 3 []
                else
                  match vec with
                  | [] => Throw 6 []
                  | _ => continue vec lbl str fin
                  end
            | None => Hang
            end
          else if (String.length lbl =? 0)%nat then continue vec str str fin
          else Throw 4 []
      end
  end.

(** [str[str.length() - 1] == ']'] and then [str.substr(0, last)]. *)
Fixpoint strip_bracket (str : string) : string :=
  match str with
  | EmptyString => EmptyString
  | String c EmptyString => if (c =? "]")%char then EmptyString else str
  | String c s => String c (strip_bracket s)
  end.

(** The branch for [[x y z] = norm].  None of its extractions is tested but
    the one of [=], so a field may keep what the uninitialised [spin]
    held. *)
Definition read_spin (key str : string) (fin : istream)
    : Outcome (Spin * string * istream) :=
  let gu := garbage_unsigned P in
  let (x, fin) :=
    if (1 <? String.length key)%nat then
      let ss := mkStream (substring 1 (String.length key - 1) key) true in
      (stored gu (fst (read_num (scan_unsigned P) ss)), fin)
    else
      let (r, fin) := read_num (scan_unsigned P) fin in (stored gu r, fin) in
  let (ry, fin) := read_num (scan_unsigned P) fin in
  let y := stored gu ry in
  let (r, fin) := read_string fin in
  let str := match r with Some s => s | None => str end in
  let str := strip_bracket str in
  let z := stored gu (fst (read_num (scan_unsigned P) (mkStream str true))) in
  let (r, fin) := read_string fin in
  let str := match r with Some s => s | None => str end in
  if negb (str =? "=") then Throw 21 []
  else
    let (rn, fin) := read_num (scan_double P) fin in
    Ret (mkSpin x y z (stored (garbage_double P) rn), str, fin).

(** What one turn of [while (fin >> key)] reads. *)
Inductive Item : Type :=
| IEnd
| IComment
| ISpin (s : Spin)
| IParam (key lbl : string) (vec : list double).

Definition starts_with (c : ascii) (s : string) : bool :=
  match s with
  | String c' _ => (c' =? c)%char
  | EmptyString => false
  end.

(** The reading part of the loop body: a comment, a custom spin, or a
    parameter entry with its label resolved. *)
Definition read_item (fuel : nat) (str : string) (fin : istream)
    : Outcome (Item * string * istream) :=
  match read_string fin with
  | (None, fin) => Ret (IEnd, str, fin)
  | (Some key, fin) =>
      if starts_with "#" key then
        let (r, fin) := getline fin in
        Ret (IComment, match r with Some s => s | None => str end, fin)
      else if starts_with "[" key then
        match read_spin key str fin with
        | Ret (s, str, fin) => Ret (ISpin s, str, fin)
        | Throw e err => Throw e err
        | Hang => Hang
        end
      else
        match entry_loop fuel [] "" str fin with
        | Ret (vec, lbl, str, fin) =>
            let lbl := if (String.length lbl =? 0)%nat then key else lbl in
            Ret (IParam key lbl vec, str, fin)
        | Throw e err => Throw e err
        | Hang => Hang
        end
  end.

End Parser.

(** The bookkeeping after an entry is read: [p], [labelNames], [labelMap],
    [labelMapInv], [iters], then the length check against [iterLengths]. *)
Definition commit (T : Tables) (key lbl : string) (vec : list double)
    : Outcome Tables :=
  let size := Z.of_nat (List.length vec) in
  let p' := StdMap.set key vec (p T) in
  let labelNames' :=
    if StdMap.mem lbl (labelMap T) then labelNames T
    else labelNames T ++ [lbl] in
  let members :=
    match StdMap.find lbl (labelMap T) with Some s => s | None => [] end in
  let labelMap' := StdMap.set lbl (StdSet.insert key members) (labelMap T) in
  let labelMapInv' := StdMap.set key lbl (labelMapInv T) in
  let iters' := StdMap.set lbl 0%Z (iters T) in
  match StdMap.find lbl (iterLengths T) with
  | None =>
      Ret (mkTables p' labelNames' labelMap' labelMapInv' iters'
             (StdMap.set lbl size (iterLengths T)) (spins T))
  | Some prev =>
      if (prev =? size)%Z then
        Ret (mkTables p' labelNames' labelMap' labelMapInv' iters'
               (iterLengths T) (spins T))
      else Throw 7 [LabelSizeMsg lbl key size prev]
  end.

Definition push_spin (T : Tables) (s : Spin) : Tables :=
  mkTables (p T) (labelNames T) (labelMap T) (labelMapInv T) (iters T)
    (iterLengths T) (spins T ++ [s]).

(** [while (fin >> key) { ... }] *)
Fixpoint parse_loop (P : Platform) (fuel : nat) (T : Tables) (str : string)
    (fin : istream) : Outcome Tables :=
  match fuel with
  | O => Hang
  | S fuel' =>
      match read_item P fuel' str fin with
      | Ret (IEnd, _, _) => Ret T
      | Ret (IComment, str, fin) => parse_loop P fuel' T str fin
      | Ret (ISpin s, str, fin) => parse_loop P fuel' (push_spin T s) str fin
      | Ret (IParam key lbl vec, str, fin) =>
          match commit T key lbl vec with
          | Ret T' => parse_loop P fuel' T' str fin
          | Throw e err => Throw e err
          | Hang => Hang
          end
      | Throw e err => Throw e err
      | Hang => Hang
      end
  end.

(** ** A plain-decimal platform

    An instance of [Platform] for numerals written as an optional sign,
    digits and an optional fraction.  The mantissa and the power of ten are
    both exact in binary64 for numerals of up to fifteen digits, so the one
    division rounds as [strtod] does. *)
Module Plain.

Definition is_digit (c : ascii) : bool :=
  let n := N_of_ascii c in ((48 <=? n) && (n <=? 57))%N.

(** The digits at the front of [s] folded into [acc], how many there were,
    and the rest. *)
Fixpoint digits (s : string) (acc : Z) (n : nat) : Z * nat * string :=
  match s with
  | String c s' =>
      if is_digit c
      then digits s' (10 * acc + Z.of_N (N_of_ascii c) - 48)%Z (S n)
      else (acc, n, s)
  | EmptyString => (acc, n, s)
  end.

Definition of_Z (z : Z) : double := PrimFloat.of_uint63 (Uint63.of_Z z).

Definition scan_unsigned (s : string) : Scanned N * string :=
  match digits s 0 0 with
  | (_, O, r) => (ScanFail 0%N, r)
  | (v, _, r) =>
      if (v <? 2 ^ 32)%Z then (ScanOk (Z.to_N v), r)
      else (ScanFail (2 ^ 32 - 1)%N, r)
  end.

Definition scan_double (s : string) : Scanned double * string :=
  let (neg, s1) :=
    match s with
    | String "-" s' => (true, s')
    | String "+" s' => (false, s')
    | _ => (false, s)
    end in
  let '(ip, ni, s2) := digits s1 0 0 in
  let '(m, nf, s3) :=
    match s2 with
    | String "." s' => digits s' ip 0
    | _ => (ip, O, s2)
    end in
  match (ni + nf)%nat with
  | O => (ScanFail 0%float, s3)
  | _ =>
      let v := PrimFloat.div (of_Z m) (of_Z (10 ^ Z.of_nat nf)) in
      (ScanOk (if neg then PrimFloat.opp v else v), s3)
  end.

Definition truncate (d : double) : N :=
  match Prim2SF d with
  | S754_finite false m e =>
      if (0 <=? e)%Z then (Npos m * 2 ^ Z.to_N e)%N
      else (Npos m / 2 ^ Z.to_N (- e))%N
  | _ => 0%N
  end.

Definition platform : Platform :=
  mkPlatform scan_double scan_unsigned 0%N 0%float truncate truncate.

End Plain.

(** ** One simulation job *)

(** [enum ARG4] *)
Inductive ARG4 : Type := REINITIALIZE | RANDOMIZE.

(** [MSD::FlippingAlgorithm] *)
Inductive FlippingAlgorithm : Type := CONTINUOUS_SPIN_MODEL | UP_DOWN_MODEL.

(** [MSD::MolProtoFactory], as far as the driver selects it. *)
Inductive MolProtoFactory : Type := LINEAR_MOL | CIRCULAR_MOL.

Section Job.

(** Types declared in MSD.h: [udc::Vector], the block of observables a job
    reports ([MSD::Results] with the specific heats and susceptibilities),
    and [MSD::MolProto]. *)
Context {Vector Results MolProto : Type}.

(** [struct Atom] *)
Record Atom := mkAtom {
  atom_x : N;
  atom_y : N;
  atom_z : N;
  atom_spin : Vector;
  atom_flux : Vector;
  atom_mag : Vector
}.

(** [struct Info].  The 64 [double] fields reached through
    [info.parameters], [info.nodeParameters] and [info.edgeParameters] are
    kept in one map under the names [nextIter] and [recordData] give them;
    [results] stands for [info.results] together with [c .. cLR] and
    [x .. xm]. *)
Record Info := mkInfo {
  width : N;
  height : N;
  depth : N;
  molPosL : N;
  molPosR : N;
  topL : N;
  bottomL : N;
  frontR : N;
  backR : N;
  info_spins : list Spin;
  t_eq : N;
  simCount : N;
  freq : N;
  flippingAlgorithm : FlippingAlgorithm;
  initMode : ARG4;
  parameters : StdMap.t double;
  usingMMB : bool;
  molProto : MolProto;
  molType : MolProtoFactory;
  results : Results;
  atoms : list Atom
}.

(** The interface of [class MSD] the job uses.  A call that throws
    [out_of_range] (or [MoleculeException], for [setMolProto]) is [None]
    and leaves the model as it was. *)
Record Engine := mkEngine {
  MSD : Type;
  msd_new : N -> N -> N -> MolProtoFactory -> N -> N -> N -> N -> N -> N -> MSD;
  setParameters : MSD -> StdMap.t double -> MSD;
  setMolProto : MSD -> MolProto -> option MSD;
  setMolParameters : MSD -> StdMap.t double -> MSD;
  setFlippingAlgorithm : MSD -> FlippingAlgorithm -> MSD;
  getSpin : MSD -> N -> N -> N -> option Vector;
  setSpin : MSD -> N -> N -> N -> Vector -> option MSD;
  (** [Vector::sphericalForm(norm, vec.theta(), vec.phi())] *)
  sphericalForm : double -> Vector -> Vector;
  randomize : MSD -> MSD;
  metropolis : MSD -> N -> N -> MSD;
  (** [meanM() .. meanULR()], [specificHeat*()], [magneticSusceptibility*()] *)
  measure : MSD -> Results;
  getWidth : MSD -> N;
  getHeight : MSD -> N;
  getDepth : MSD -> N;
  getFlux : MSD -> N -> N -> N -> option Vector;
  getLocalM : MSD -> N -> N -> N -> option Vector
}.

Variable E : Engine.

(** [for (const Spin &s : info.spins) try { ... } catch(out_of_range &ex)]:
    the model after the custom spins, and the warnings written. *)
Fixpoint custom_spins (msd : MSD E) (l : list Spin) : MSD E * list Msg :=
  match l with
  | [] => (msd, [])
  | s :: l' =>
      let set :=
        match getSpin E msd (spin_x s) (spin_y s) (spin_z s) with
        | Some vec =>
            setSpin E msd (spin_x s) (spin_y s) (spin_z s)
              (sphericalForm E (spin_norm s) vec)
        | None => None
        end in
      match set with
      | Some msd' => custom_spins msd' l'
      | None =>
          let (msd', w) := custom_spins msd l' in (msd', SpinWarningMsg s :: w)
      end
  end.

Definition upto (n : N) : list N := map N.of_nat (seq 0 (N.to_nat n)).

(** The body of the three nested loops that fill [info.atoms]. *)
Definition atom_at (msd : MSD E) (x y z : N) : list Atom :=
  match getSpin E msd x y z, getFlux E msd x y z, getLocalM E msd x y z with
  | Some s, Some f, Some m => [mkAtom x y z s f m]
  | _, _, _ => []
  end.

Definition snapshot (msd : MSD E) : list Atom :=
  flat_map (fun x =>
    flat_map (fun y =>
      flat_map (fun z => atom_at msd x y z) (upto (getDepth E msd)))
      (upto (getHeight E msd)))
    (upto (getWidth E msd)).

Definition with_results (info : Info) (r : Results) (a : list Atom) : Info :=
  mkInfo (width info) (height info) (depth info) (molPosL info)
    (molPosR info) (topL info) (bottomL info) (frontR info) (backR info)
    (info_spins info) (t_eq info) (simCount info) (freq info)
    (flippingAlgorithm info) (initMode info) (parameters info)
    (usingMMB info) (molProto info) (molType info) r a.

Definition with_spins (info : Info) (l : list Spin) : Info :=
  mkInfo (width info) (height info) (depth info) (molPosL info)
    (molPosR info) (topL info) (bottomL info) (frontR info) (backR info)
    l (t_eq info) (simCount info) (freq info)
    (flippingAlgorithm info) (initMode info) (parameters info)
    (usingMMB info) (molProto info) (molType info) (results info)
    (atoms info).

(** The first statements of [algorithm]: the model constructed and given
    its parameters, molecule and flipping algorithm.  [None] is the
    [MoleculeException] of [setMolProto]. *)
Definition configure (info : Info) : option (MSD E) :=
  let msd :=
    msd_new E (width info) (height info) (depth info) (molType info)
      (molPosL info) (molPosR info) (topL info) (bottomL info)
      (frontR info) (backR info) in
  let msd := setParameters E msd (parameters info) in
  let configured :=
    if usingMMB info then setMolProto E msd (molProto info)
    else Some (setMolParameters E msd (parameters info)) in
  match configured with
  | Some msd => Some (setFlippingAlgorithm E msd (flippingAlgorithm info))
  | None => None
  end.

(** [Info algorithm(Info info)].  The second component is [None] when the
    job ends the process with [exit(-10)]. *)
Definition algorithm (info : Info) : list Msg * option Info :=
  match configure info with
  | None => ([MoleculeMsg], None)
  | Some msd =>
      let (msd, warnings) := custom_spins msd (info_spins info) in
      let msd :=
        match initMode info with
        | RANDOMIZE => randomize E msd
        | REINITIALIZE => msd
        end in
      let msd := metropolis E msd (t_eq info) 0 in
      let msd := metropolis E msd (simCount info) (freq info) in
      (warnings, Some (with_results info (measure E msd) (snapshot msd)))
  end.

End Job.

Arguments Info : clear implicits.
Arguments Atom : clear implicits.
Arguments Engine : clear implicits.

(** ** The driver: odometer, pool, report *)

(** The names [nextIter] maps to the swept fields of [preInfo]. *)
Definition fields : list string :=
  [ "kT"; "B_x"; "B_y"; "B_z";
    "SL"; "SR"; "Sm"; "FL"; "FR"; "Fm";
    "JL"; "JR"; "Jm"; "JmL"; "JmR"; "JLR";
    "Je0L"; "Je0R"; "Je0m";
    "Je1L"; "Je1R"; "Je1m"; "Je1mL"; "Je1mR"; "Je1LR";
    "JeeL"; "JeeR"; "Jeem"; "JeemL"; "JeemR"; "JeeLR";
    "bL"; "bR"; "bm"; "bmL"; "bmR"; "bLR";
    "AL_x"; "AL_y"; "AL_z"; "AR_x"; "AR_y"; "AR_z";
    "Am_x"; "Am_y"; "Am_z";
    "DL_x"; "DL_y"; "DL_z"; "DR_x"; "DR_y"; "DR_z";
    "Dm_x"; "Dm_y"; "Dm_z"; "DmL_x"; "DmL_y"; "DmL_z";
    "DmR_x"; "DmR_y"; "DmR_z"; "DLR_x"; "DLR_y"; "DLR_z" ].

(** The keys read once per job as [p.at(key)[0]]. *)
Definition constants : list string :=
  [ "width"; "height"; "depth"; "molPosL"; "molPosR"; "topL"; "bottomL";
    "frontR"; "backR"; "t_eq"; "simCount"; "freq" ].

Definition is_field (name : string) : bool := existsb (String.eqb name) fields.

(** [iters[lbl]] and [iterLengths[lbl]] as rvalues: a missing key reads as
    the value-initialised [0]. *)
Definition cursor (lbl : string) (m : StdMap.t Z) : Z :=
  match StdMap.find lbl m with Some c => c | None => 0%Z end.

(** [v.at(i)] for an [int] index. *)
Definition vec_at (v : list double) (i : Z) : option double :=
  if (i <? 0)%Z then None else nth_error v (Z.to_nat i).

(** The odometer step at the end of [nextIter]:
    [while (it != end && ++iters[*it] >= iterLengths[*it]) iters[*it++] = 0;]
    with [hasNextIter = it != end]. *)
Fixpoint advance (names : list string) (lens its : StdMap.t Z)
    : StdMap.t Z * bool :=
  match names with
  | [] => (its, false)
  | lbl :: names' =>
      let c := (cursor lbl its + 1)%Z in
      if (cursor lbl lens <=? c)%Z
      then advance names' lens (StdMap.set lbl 0%Z its)
      else (StdMap.set lbl c its, true)
  end.

Section Driver.

Context {Vector Results MolProto : Type}.

Variable P : Platform.
Variable E : Engine Vector Results MolProto.

Local Abbreviation JobInfo := (Info Vector Results MolProto).

(** What [main] has settled from the command line before it opens the
    parameter file, and the value of a default-constructed [Info]. *)
Record Args := mkArgs {
  threadCount : nat;
  arg_flippingAlgorithm : FlippingAlgorithm;
  arg_initMode : ARG4;
  arg_usingMMB : bool;
  arg_molProto : MolProto;
  arg_molType : MolProtoFactory;
  blank : JobInfo
}.

Variable A : Args.

(** [p.at(key)[0]]; [None] is the [out_of_range] of [at]. *)
Definition at0 (T : Tables) (key : string) : option double :=
  match StdMap.find key (p T) with
  | Some (v :: _) => Some v
  | Some [] => Some (garbage_double P)
  | None => None
  end.

(** [try { *fields.at(name) = p.at(name).at(i); } catch(out_of_range &ex) {}] *)
Definition assign_field (T : Tables) (i : Z) (params : StdMap.t double)
    (name : string) : StdMap.t double :=
  if is_field name then
    match StdMap.find name (p T) with
    | Some v =>
        match vec_at v i with
        | Some x => StdMap.set name x params
        | None => params
        end
    | None => params
    end
  else params.

(** The loop over [iters] that sets the swept fields; [labelMap.at] is
    outside the [try]. *)
Fixpoint assign_labels (T : Tables) (its : list (string * Z))
    (params : StdMap.t double) : option (StdMap.t double) :=
  match its with
  | [] => Some params
  | (lbl, i) :: its' =>
      match StdMap.find lbl (labelMap T) with
      | Some names =>
          assign_labels T its' (fold_left (assign_field T i) names params)
      | None => None
      end
  end.

Definition bind {X Y : Type} (o : option X) (f : X -> option Y) : option Y :=
  match o with Some x => f x | None => None end.

Notation "x <- o ;; k" := (bind o (fun x => k))
  (at level 61, o at next level, right associativity).

(** The first part of [nextIter]: [preInfo] with the constant fields and the
    swept fields set from the current cursors. *)
Definition materialize (T : Tables) (its : StdMap.t Z) (preInfo : JobInfo)
    : option JobInfo :=
  width <- at0 T "width" ;;
  height <- at0 T "height" ;;
  depth <- at0 T "depth" ;;
  molPosL <- at0 T "molPosL" ;;
  molPosR <- at0 T "molPosR" ;;
  topL <- at0 T "topL" ;;
  bottomL <- at0 T "bottomL" ;;
  frontR <- at0 T "frontR" ;;
  backR <- at0 T "backR" ;;
  t_eq <- at0 T "t_eq" ;;
  simCount <- at0 T "simCount" ;;
  freq <- at0 T "freq" ;;
  params <- assign_labels T its (parameters preInfo) ;;
  Some (mkInfo (to_unsigned P width) (to_unsigned P height)
          (to_unsigned P depth) (to_unsigned P molPosL)
          (to_unsigned P molPosR) (to_unsigned P topL)
          (to_unsigned P bottomL) (to_unsigned P frontR)
          (to_unsigned P backR) (spins T) (to_ull P t_eq)
          (to_ull P simCount) (to_ull P freq) (arg_flippingAlgorithm A)
          (arg_initMode A) params (arg_usingMMB A) (arg_molProto A)
          (arg_molType A) (results preInfo) (atoms preInfo)).

(** The lambda [nextIter]: the configuration it returns (also the new value
    of its static [preInfo]), the cursors after the step, and
    [hasNextIter].  [None] is an [out_of_range] leaving the lambda. *)
Definition nextIter (T : Tables) (its : StdMap.t Z) (preInfo : JobInfo)
    : option (JobInfo * StdMap.t Z * bool) :=
  info <- materialize T its preInfo ;;
  let (its', hasNextIter) := advance (labelNames T) (iterLengths T) its in
  Some (info, its', hasNextIter).

(** An [out_of_range] leaving the [try] block of [main], shown as the throw
    of the code [main]'s handler returns for it. *)
Definition missing_data {X : Type} : Outcome X := Throw 24 [MissingDataMsg].

(** The sweep on its own: [while (hasNextIter) nextIter()], as the list of
    cursors each call found together with the configuration it returned. *)
Fixpoint sweep (fuel : nat) (T : Tables) (its : StdMap.t Z)
    (preInfo : JobInfo) : Outcome (list (StdMap.t Z * JobInfo)) :=
  match fuel with
  | O => Hang
  | S fuel' =>
      match nextIter T its preInfo with
      | None => missing_data
      | Some (info, its', true) =>
          match sweep fuel' T its' info with
          | Ret rest => Ret ((its, info) :: rest)
          | other => other
          end
      | Some (info, its', false) => Ret [(its, info)]
      end
  end.

(** *** The report *)

(** A [<data>] element: its timestamp, the 64 parameters, the observables
    and the snapshot of the atoms. *)
Record Data := mkData {
  date : Z;
  data_parameters : StdMap.t double;
  data_results : Results;
  data_snapshot : list (Atom Vector)
}.

(** The children of the [<msd>] root element. *)
Inductive XmlNode : Type :=
| XmlVersion
| MsdVersion
| Gen (timestamp : Z)
| Parg (index : N)
| Pargs (indices : list N)
| Global (vars : list (string * double))
    (inds : list (string * option string * list double))
    (custom : list Spin) (mol : MolProto)
| DataNode (d : Data).

(** What the driver asks of [fout]. *)
Inductive FileOp : Type :=
| FClose
| FOpenTrunc
| FWrite (doc : list XmlNode).

(** The document in memory, the requests made to the output file so far,
    and the [completion] percentage. *)
Record Journal := mkJournal {
  root : list XmlNode;
  fout : list FileOp;
  completion : double
}.

(** The file as the requests leave it when each succeeds: the documents
    written since it was last opened with [ios::trunc]. *)
Fixpoint file_after (ops : list FileOp) (content : list (list XmlNode))
    : list (list XmlNode) :=
  match ops with
  | [] => content
  | FClose :: ops' => file_after ops' content
  | FOpenTrunc :: ops' => file_after ops' []
  | FWrite doc :: ops' => file_after ops' (content ++ [doc])
  end.

(** The order of the [<ind>] elements. *)
Definition inds : list string :=
  [ "kT"; "B_x"; "B_y"; "B_z";
    "SL"; "SR"; "Sm"; "FL"; "FR"; "Fm";
    "JL"; "JmL"; "Jm"; "JmR"; "JR"; "JLR";
    "Je0L"; "Je0m"; "Je0R";
    "Je1L"; "Je1mL"; "Je1m"; "Je1mR"; "Je1R"; "Je1LR";
    "JeeL"; "JeemL"; "Jeem"; "JeemR"; "JeeR"; "JeeLR";
    "bL"; "bmL"; "bm"; "bmR"; "bR"; "bLR";
    "AL_x"; "AL_y"; "AL_z"; "AR_x"; "AR_y"; "AR_z";
    "Am_x"; "Am_y"; "Am_z";
    "DL_x"; "DL_y"; "DL_z"; "DR_x"; "DR_y"; "DR_z";
    "Dm_x"; "Dm_y"; "Dm_z"; "DmL_x"; "DmL_y"; "DmL_z";
    "DmR_x"; "DmR_y"; "DmR_z"; "DLR_x"; "DLR_y"; "DLR_z" ].

Fixpoint collect {X Y : Type} (f : X -> option Y) (l : list X)
    : option (list Y) :=
  match l with
  | [] => Some []
  | x :: l' => y <- f x ;; ys <- collect f l' ;; Some (y :: ys)
  end.

(** One [<ind>]: its name, its label when that differs from the name, and
    the values of [p.at(name)]. *)
Definition ind_of (T : Tables) (name : string)
    : option (string * option string * list double) :=
  v <- StdMap.find name (p T) ;;
  let label :=
    match StdMap.find name (labelMapInv T) with
    | Some l => if String.eqb l name then None else Some l
    | None => None
    end in
  Some (name, label, v).

(** The skeleton of the document, built before the first job: [None] when
    a [p.at] throws.  [parg5] is appended to the root, next to [pargs]. *)
Definition preamble (beginning : Z) (T : Tables) : option (list XmlNode) :=
  vars <- collect (fun k => v <- at0 T k ;; Some (k, v)) constants ;;
  ix <- collect (ind_of T) inds ;;
  Some [ XmlVersion; MsdVersion; Gen beginning; Parg 5; Pargs [3; 4]%N;
         Global vars ix (spins T) (arg_molProto A) ].

Definition record_of (now : Z) (info : JobInfo) : XmlNode :=
  DataNode (mkData now (parameters info) (results info) (atoms info)).

(** The lambda [recordData]: append the [<data>] element to the root,
    reopen the file truncated and write the whole document. *)
Definition recordData (step : double) (now : Z) (J : Journal)
    (info : JobInfo) : Journal :=
  let root' := root J ++ [record_of now info] in
  mkJournal root' (fout J ++ [FClose; FOpenTrunc; FWrite root'])
    (PrimFloat.add (completion J) step).

(** *** The pseudo thread pool *)

(** A valid [future<Info>]: the configuration its job was started with,
    and how many more [wait_for] calls on it time out before one reports
    [future_status::ready]. *)
Record Future := mkFuture {
  job : JobInfo;
  pending : nat
}.

(** [threadPool[i] = f] *)
Fixpoint put {X : Type} (i : nat) (x : X) (l : list X) : list X :=
  match l, i with
  | [], _ => []
  | _ :: l', O => x :: l'
  | y :: l', S i' => y :: put i' x l'
  end.

Definition slot (pool : list (option Future)) (i : nat) : option Future :=
  nth i pool None.

(** How long each job takes, in timed-out polls: [delay k] for the [k]-th
    job started. *)
Variable delay : nat -> nat.

(** The clock read by [recordData], by the number of children the root
    has at the time. *)
Variable clock : nat -> Z.

(** The state of the simulation part of [main].  The last two fields are
    not variables of the program: [started] lists the configurations handed
    to [algorithm] so far, [collected] those whose result has been taken
    (inline, or by [get()]), each in the order it happened. *)
Record State := mkState {
  st_iters : StdMap.t Z;
  st_preInfo : JobInfo;
  hasNextIter : bool;
  threadPool : list (option Future);
  nextIndex : nat;
  postInfo : JobInfo;
  journal : Journal;
  cerr : list Msg;
  started : list JobInfo;
  collected : list JobInfo
}.

(** How the run ends: [main] returns, a job calls [exit], or a loop is
    still turning when the fuel is spent. *)
Inductive Status : Type :=
| Returned (code : Z)
| Exited (code : Z)
| Spinning.

(** The [while (true)] loop that finds the slot for the next job: the pool
    and [nextIndex] as it leaves them, and the configuration of the job
    found ready in that slot, whose result [get()] is about to hand over
    ([None] for [validResult = false], the slot being empty). *)
Fixpoint acquire (fuel : nat) (pool : list (option Future)) (i : nat)
    : option (list (option Future) * nat * option JobInfo) :=
  match fuel with
  | O => None
  | S fuel' =>
      match slot pool i with
      | None => Some (pool, i, None)
      | Some f =>
          match pending f with
          | O => Some (pool, i, Some (job f))
          | S k =>
              acquire fuel' (put i (Some (mkFuture (job f) k)) pool)
                ((i + 1) mod threadCount A)
          end
      end
  end.

Definition log (st : State) (msgs : list Msg) : State :=
  mkState (st_iters st) (st_preInfo st) (hasNextIter st) (threadPool st)
    (nextIndex st) (postInfo st) (journal st) (cerr st ++ msgs) (started st)
    (collected st).

(** [postInfo = ...; recordData(postInfo);] for the result [post] of the
    job started with [j]. *)
Definition record (step : double) (st : State) (j post : JobInfo) : State :=
  mkState (st_iters st) (st_preInfo st) (hasNextIter st) (threadPool st)
    (nextIndex st) post
    (recordData step (clock (List.length (root (journal st)))) (journal st) post)
    (cerr st) (started st) (collected st ++ [j]).

(** The clean-up loop [while (openThreads < threadCount)]. *)
Fixpoint drain (fuel : nat) (step : double) (openThreads : nat) (st : State)
    : Status * State :=
  match fuel with
  | O => (Spinning, st)
  | S fuel' =>
      if (openThreads <? threadCount A)%nat then
        let i := nextIndex st in
        let openThreads := if (i =? 0)%nat then O else openThreads in
        let next pool openThreads st :=
          drain fuel' step openThreads
            (mkState (st_iters st) (st_preInfo st) (hasNextIter st) pool
               ((i + 1) mod threadCount A) (postInfo st) (journal st)
               (cerr st) (started st) (collected st)) in
        match slot (threadPool st) i with
        | Some f =>
            match pending f with
            | O =>
                match algorithm E (job f) with
                | (w, Some post) =>
                    next (put i None (threadPool st)) (S openThreads)
                      (record step (log st w) (job f) post)
                | (w, None) => (Exited (-10), log st w)
                end
            | S k =>
                next (put i (Some (mkFuture (job f) k)) (threadPool st))
                  openThreads st
            end
        | None => next (threadPool st) (S openThreads) st
        end
      else (Returned 0, st)
  end.

(** [threadPool[nextIndex] = async(launch::async, algorithm, preInfo);] *)
Definition launch (st : State) (preInfo : JobInfo) : State :=
  mkState (st_iters st) (st_preInfo st) (hasNextIter st)
    (put (nextIndex st)
       (Some (mkFuture preInfo (delay (List.length (started st)))))
       (threadPool st))
    (nextIndex st) (postInfo st) (journal st) (cerr st)
    (started st ++ [preInfo]) (collected st).

(** [while (hasNextIter) { ... }] followed by the clean-up of the pool.
    A job that calls [exit] ends the run where its result is asked for:
    in [get()], before the next job is started, or in the call of
    [algorithm] when there is one worker. *)
Fixpoint run_loop (fuel : nat) (T : Tables) (step : double) (st : State)
    : Status * State :=
  match fuel with
  | O => (Spinning, st)
  | S fuel' =>
      if hasNextIter st then
        match nextIter T (st_iters st) (st_preInfo st) with
        | None => (Returned 24, log st [MissingDataMsg])
        | Some (preInfo, its, more) =>
            let st1 pool i started :=
              mkState its preInfo more pool i (postInfo st) (journal st)
                (cerr st) started (collected st) in
            if (1 <? threadCount A)%nat then
              match acquire fuel' (threadPool st) (nextIndex st) with
              | None => (Spinning, st)
              | Some (pool, i, taken) =>
                  let st2 := st1 pool i (started st) in
                  match taken with
                  | None => run_loop fuel' T step (launch st2 preInfo)
                  | Some j =>
                      match algorithm E j with
                      | (w, Some post) =>
                          run_loop fuel' T step
                            (record step (log (launch st2 preInfo) w) j post)
                      | (w, None) => (Exited (-10), log st2 w)
                      end
                  end
              end
            else
              let st2 :=
                st1 (threadPool st) (nextIndex st) (started st ++ [preInfo]) in
              match algorithm E preInfo with
              | (w, Some post) =>
                  run_loop fuel' T step (record step (log st2 w) preInfo post)
              | (w, None) => (Exited (-10), log st2 w)
              end
        end
      else if (1 <? threadCount A)%nat then drain fuel step O st
      else (Returned 0, st)
  end.

(** [int] to [double]. *)
Definition double_of_int (z : Z) : double :=
  if (z <? 0)%Z then PrimFloat.opp (PrimFloat.of_uint63 (Uint63.of_Z (- z)))
  else PrimFloat.of_uint63 (Uint63.of_Z z).

(** [step = 100.0; for (x : iterLengths) step /= x.second;] *)
Definition progress_step (T : Tables) : double :=
  fold_left (fun s x => PrimFloat.div s (double_of_int (snd x)))
    (iterLengths T) 100%float.

(** The state in which the first [nextIter] is called. *)
Definition start (T : Tables) (beginning : Z) (nodes : list XmlNode) : State :=
  mkState (iters T) (blank A) true
    (if (1 <? threadCount A)%nat then repeat None (threadCount A) else [])
    O (blank A)
    (mkJournal nodes [FClose; FOpenTrunc; FWrite nodes] 0%float) [] [] [].

(** [main], from the point where it opens the parameter file: [name] is
    [argv[1]] and [fin] the stream opened on it.  The result is how the
    process ends, what the parser and the handlers of [main] wrote to
    [cerr], and the state of the simulation part if it was entered. *)
Definition main (fuel : nat) (name : string) (fin : istream) (beginning : Z)
    : Status * list Msg * option State :=
  match parse_loop P fuel no_tables name fin with
  | Ret T =>
      match preamble beginning T with
      | Some nodes =>
          let (status, st) :=
            run_loop fuel T (progress_step T) (start T beginning nodes) in
          (status, [], Some st)
      | None => (Returned 24, [MissingDataMsg], None)
      end
  | Throw e err =>
      (Returned (Z.lor e 16), err ++ [CorruptedMsg (Z.lor e 16)], None)
  | Hang => (Spinning, [], None)
  end.

(** The configurations a run handed to [algorithm]. *)
Definition jobs_run (r : Status * list Msg * option State) : list JobInfo :=
  match snd r with
  | Some st => started st
  | None => []
  end.

End Driver.

(** ** A small engine

    An instance of [Engine] for the examples: a box of sites, none in the
    plane [x = molPosL]; a spin is a magnitude; the Monte Carlo steps leave
    the spins alone; and the result is the temperature followed by the
    magnitudes of the sites. *)
Module Box.

Record msd := mkMsd {
  dims : N * N * N;
  hole : N;
  kT : double;
  set_spins : list (N * N * N * double)
}.

Definition has_site (m : msd) (x y z : N) : bool :=
  let '(w, h, d) := dims m in
  ((x <? w) && (y <? h) && (z <? d) && negb (x =? hole m))%N.

Definition same_site (x y z : N) (e : N * N * N * double) : bool :=
  let '(x', y', z', _) := e in ((x =? x') && (y =? y') && (z =? z'))%N.

Definition getSpin (m : msd) (x y z : N) : option double :=
  if has_site m x y z then
    match List.find (same_site x y z) (set_spins m) with
    | Some (_, _, _, v) => Some v
    | None => Some 1%float
    end
  else None.

Definition setSpin (m : msd) (x y z : N) (v : double) : option msd :=
  if has_site m x y z
  then Some (mkMsd (dims m) (hole m) (kT m) ((x, y, z, v) :: set_spins m))
  else None.

Definition setParameters (m : msd) (params : StdMap.t double) : msd :=
  mkMsd (dims m) (hole m)
    (match StdMap.find "kT" params with Some t => t | None => 0%float end)
    (set_spins m).

Definition sites (m : msd) : list double :=
  let '(w, h, d) := dims m in
  flat_map (fun x => flat_map (fun y => flat_map (fun z =>
    match getSpin m x y z with Some v => [v] | None => [] end)
    (upto d)) (upto h)) (upto w).

Definition engine : Engine double (list double) unit :=
  mkEngine
    (fun w h d _ l _ _ _ _ _ => mkMsd (w, h, d) l 0%float [])
    setParameters
    (fun m _ => Some m)
    (fun m _ => m)
    (fun m _ => m)
    getSpin
    setSpin
    (fun norm _ => norm)
    (fun m => m)
    (fun m _ _ => m)
    (fun m => kT m :: sites m)
    (fun m => fst (fst (dims m)))
    (fun m => snd (fst (dims m)))
    (fun m => snd (dims m))
    getSpin
    getSpin.

Definition blank : Info double (list double) unit :=
  mkInfo 0 0 0 0 0 0 0 0 0 [] 0 0 0 CONTINUOUS_SPIN_MODEL REINITIALIZE
    StdMap.empty false tt LINEAR_MOL [] [].

Definition args (threads : nat) : Args :=
  mkArgs threads CONTINUOUS_SPIN_MODEL REINITIALIZE false tt LINEAR_MOL blank.

(** A parameter file: every constant and every field given once, the
    field [name] by the text [entry] and the others as [= 1]. *)
Definition nl : string := String (ascii_of_nat 10) EmptyString.

Definition line (key value : string) : string := key ++ " " ++ value ++ nl.

Definition file (head : string) (swept : list (string * string)) : string :=
  head ++
  concat "" (map (fun k => line k "= 2") constants) ++
  concat "" (map (fun k =>
    match List.find (fun e => String.eqb (fst e) k) swept with
    | Some (_, v) => line k v
    | None => line k "= 1"
    end) fields).

(** A file that sweeps [kT] over three values and, under the label [L],
    [B_x] and [B_y] over two. *)
Definition sample : string :=
  file "" [("kT", ": 1 3 1"); ("B_x", "L { 0 1 }"); ("B_y", "L { 5 6 }")].

(** The same file with a sequence of three values under the label [L]. *)
Definition uneven : string :=
  file "" [("kT", ": 1 3 1"); ("B_x", "L { 0 1 }"); ("B_y", "L { 5 6 7 }")].

(** The tables the parser builds from [sample]. *)
Definition tables : Tables :=
  Eval vm_compute in
    match parse_loop Plain.platform 100 no_tables "in" (mkStream sample true)
    with
    | Ret T => T
    | _ => no_tables
    end.

(** A job on a box of two by two by two sites whose plane [x = 0] is
    empty, with custom spins at [0 0 0] and at [1 1 1]. *)
Definition holed : Info double (list double) unit :=
  mkInfo 2 2 2 0 0 0 0 0 0
    [mkSpin 1 0 0 3%float; mkSpin 0 0 0 2.5%float; mkSpin 1 1 1 2%float]
    0 0 0 CONTINUOUS_SPIN_MODEL REINITIALIZE
    [("kT", 1%float)] false tt LINEAR_MOL [] [].

End Box.

(** ** Notions the statements use *)

(** The first [n] terms [val, val + inc, (val + inc) + inc, ...], each the
    sum the loop accumulated. *)
Fixpoint progression (n : nat) (val inc : double) : list double :=
  match n with
  | O => []
  | S n' => val :: progression n' (PrimFloat.add val inc) inc
  end.

(** The value of [val] after [n] turns of the loop. *)
Fixpoint term (n : nat) (val inc : double) : double :=
  match n with
  | O => val
  | S n' => term n' (PrimFloat.add val inc) inc
  end.

(** The first [n] terms pass the loop test against [lim] and the next one
    does not. *)
Definition stops_after (n : nat) (val lim inc : double) : bool :=
  forallb (fun v => in_range v lim inc) (progression n val inc)
  && negb (in_range (term n val inc) lim inc).

(** [fin >> val] succeeds once for each value of [vs], in order, taking the
    stream from [fin] to [fin']. *)
Inductive reads (P : Platform) : istream -> list double -> istream -> Prop :=
| reads_nil fin : reads P fin [] fin
| reads_cons fin val fin1 vs fin' :
    read_num (scan_double P) fin = (Some (ScanOk val), fin1) ->
    reads P fin1 vs fin' ->
    reads P fin (val :: vs) fin'.

(** The extraction of a [double] from [fin] fails. *)
Definition read_fails (P : Platform) (fin fin' : istream) : Prop :=
  snd (read_num (scan_double P) fin) = fin' /\
  forall val, fst (read_num (scan_double P) fin) <> Some (ScanOk val).

(** The items the loop of the parser reads, up to the end of the file or
    the first throw. *)
Fixpoint items (P : Platform) (fuel : nat) (str : string) (fin : istream)
    : list Item :=
  match fuel with
  | O => []
  | S fuel' =>
      match read_item P fuel' str fin with
      | Ret (IEnd, _, _) => []
      | Ret (it, str, fin) => it :: items P fuel' str fin
      | _ => []
      end
  end.

(** The keys of a map come in strictly increasing order. *)
Fixpoint ordered {V : Type} (m : StdMap.t V) : Prop :=
  match m with
  | [] => True
  | (k, _) :: m' =>
      (forall k', In k' (StdMap.keys m') -> String_as_OT.lt k k')
      /\ ordered m'
  end.

(** What the parser maintains about its tables: every stored sequence has
    a value; the labels are listed once each, are the keys of [labelMap],
    and have a recorded length of at least one; every cursor is zero and
    belongs to a listed label, and each listed label has a cursor. *)
Record tables_ok (T : Tables) : Prop := mk_tables_ok {
  ok_values : forall key vec, StdMap.find key (p T) = Some vec -> vec <> [];
  ok_nodup : NoDup (labelNames T);
  ok_members :
    forall lbl, In lbl (labelNames T) <-> StdMap.find lbl (labelMap T) <> None;
  ok_lengths :
    forall lbl n, StdMap.find lbl (iterLengths T) = Some n -> (1 <= n)%Z;
  ok_length_known :
    forall lbl, In lbl (labelNames T) -> StdMap.find lbl (iterLengths T) <> None;
  ok_cursors : forall lbl c, StdMap.find lbl (iters T) = Some c -> c = 0%Z;
  ok_iters_keys :
    forall lbl, In lbl (StdMap.keys (iters T)) -> In lbl (labelNames T);
  ok_iters_known :
    forall lbl, In lbl (labelNames T) -> StdMap.find lbl (iters T) <> None;
  ok_iters_ordered : ordered (iters T)
}.

(** [seen] are the items committed so far: the recorded lengths are those
    of the entries seen, label by label. *)
Definition lengths_of (seen : list Item) (T : Tables) : Prop :=
  (forall k lbl v,
      In (IParam k lbl v) seen ->
      StdMap.find lbl (iterLengths T) = Some (Z.of_nat (List.length v)))
  /\ (forall lbl n,
         StdMap.find lbl (iterLengths T) = Some n ->
         exists k v, In (IParam k lbl v) seen /\ n = Z.of_nat (List.length v)).

(** The product of the label lengths. *)
Fixpoint product (lens : list Z) : Z :=
  match lens with
  | [] => 1%Z
  | l :: ls => (l * product ls)%Z
  end.

(** The mixed-radix digits of [n], least significant first: the cursor
    values of the [n]-th configuration when the first label varies
    fastest. *)
Fixpoint digits (lens : list Z) (n : Z) : list Z :=
  match lens with
  | [] => []
  | l :: ls => (n mod l)%Z :: digits ls (n / l)%Z
  end.

(** The cursor values of the labels [names], in their order. *)
Definition cursors (names : list string) (its : StdMap.t Z) : list Z :=
  map (fun lbl => cursor lbl its) names.

(** Odometer order: the digits of [0, 1, ..., product lens - 1]. *)
Definition odometer (lens : list Z) : list (list Z) :=
  map (fun k => digits lens (Z.of_nat k)) (seq 0 (Z.to_nat (product lens))).

(** A combination of cursor values: one value below its length for each
    label. *)
Definition combination (lens cs : list Z) : Prop :=
  Forall2 (fun l c => (0 <= c < l)%Z) lens cs.

(** Every length is at least one. *)
Definition positive_lengths (lens : list Z) : Prop :=
  Forall (fun l => (1 <= l)%Z) lens.

(** The number a combination of cursor values stands for. *)
Fixpoint number (lens cs : list Z) : Z :=
  match lens, cs with
  | l :: ls, c :: cs' => (c + l * number ls cs')%Z
  | _, _ => 0%Z
  end.

Section Notions.

Context {Vector Results MolProto : Type}.
Variable P : Platform.
Variable E : Engine Vector Results MolProto.
Variable A : Args (Vector:=Vector) (Results:=Results) (MolProto:=MolProto).

(** Each configuration of the trace is what [materialize] makes of the
    cursors recorded with it and of the configuration before it. *)
Fixpoint materialized (T : Tables) (pre : Info Vector Results MolProto)
    (trace : list (StdMap.t Z * Info Vector Results MolProto)) : Prop :=
  match trace with
  | [] => True
  | (its, info) :: rest =>
      materialize P A T its pre = Some info /\ materialized T info rest
  end.

(** The swept fields of [info] hold the values the cursors [its] select:
    a field [name] that is listed under the label [lbl], and under no
    other, holds [p[name][its[lbl]]]. *)
Definition swept_values (T : Tables) (its : StdMap.t Z)
    (info : Info Vector Results MolProto) : Prop :=
  forall lbl names name v x,
    StdMap.find lbl (labelMap T) = Some names ->
    In name names ->
    (forall l ns,
        StdMap.find l (labelMap T) = Some ns -> In name ns -> l = lbl) ->
    is_field name = true ->
    StdMap.find name (p T) = Some v ->
    vec_at v (cursor lbl its) = Some x ->
    In lbl (labelNames T) ->
    StdMap.find name (parameters info) = Some x.

(** Consecutive calls: the step after each configuration but the last
    leaves [hasNextIter] true and the cursors the next call finds; the
    step after the last one clears [hasNextIter]. *)
Fixpoint stepwise (T : Tables)
    (trace : list (StdMap.t Z * Info Vector Results MolProto)) : Prop :=
  match trace with
  | [] => True
  | (its, _) :: rest =>
      match rest with
      | [] => snd (advance (labelNames T) (iterLengths T) its) = false
      | (its', _) :: _ =>
          advance (labelNames T) (iterLengths T) its = (its', true)
          /\ stepwise T rest
      end
  end.

(** The results of the jobs that end, up to the first one that ends the
    process. *)
Fixpoint completed (jobs : list (Info Vector Results MolProto))
    : list (Info Vector Results MolProto) :=
  match jobs with
  | [] => []
  | j :: rest =>
      match snd (algorithm E j) with
      | Some post => post :: completed rest
      | None => []
      end
  end.

(** The [<data>] elements for the results [posts], appended to a root of
    [n] children, with the time each was recorded at. *)
Fixpoint stamped (clock : nat -> Z) (n : nat)
    (posts : list (Info Vector Results MolProto)) : list XmlNode :=
  match posts with
  | [] => []
  | post :: rest => record_of (clock n) post :: stamped clock (S n) rest
  end.

(** The configurations of the jobs in flight, slot by slot. *)
Fixpoint in_flight (pool : list (option Future)) : list (Info Vector Results MolProto) :=
  match pool with
  | [] => []
  | Some f :: pool' => job f :: in_flight pool'
  | None :: pool' => in_flight pool'
  end.

(** Every constant key is in [p]. *)
Definition constants_present (T : Tables) : Prop :=
  forall k, In k constants -> exists v, at0 P T k = Some v.

(** How a run with one worker ends: [main] returns 0 when every job ended,
    and the process exits with -10 at the first job that calls [exit]. *)
Definition inline_status (jobs : list (Info Vector Results MolProto)) : Status :=
  if (List.length (completed jobs) =? List.length jobs)%nat
  then Returned 0 else Exited (-10).

(** What the sweep still has to return from the state [st]. *)
Definition remaining (T : Tables) (st : State)
    (trace : list (StdMap.t Z * Info Vector Results MolProto))
    : Prop :=
  if hasNextIter st
  then exists fuel0,
         sweep P A fuel0 T (st_iters st) (st_preInfo st) = Ret trace
  else trace = [].

End Notions.

(** The polls still to time out, plus one for each job in flight. *)
Fixpoint waiting {Vector Results MolProto : Type}
    (pool : list (option (Future (Vector:=Vector) (Results:=Results)
                            (MolProto:=MolProto)))) : nat :=
  match pool with
  | [] => O
  | Some f :: pool' => S (pending f) + waiting pool'
  | None :: pool' => waiting pool'
  end.

(** The warnings of the jobs [jobs], in order. *)
Definition warnings_of {Vector Results MolProto : Type}
    (E : Engine Vector Results MolProto)
    (jobs : list (Info Vector Results MolProto)) : list Msg :=
  flat_map (fun j => fst (algorithm E j)) jobs.

(** Every job of [jobs] ends (none calls [exit]). *)
Definition all_end {Vector Results MolProto : Type}
    (E : Engine Vector Results MolProto)
    (jobs : list (Info Vector Results MolProto)) : Prop :=
  Forall (fun j => snd (algorithm E j) <> None) jobs.

Section PoolNotions.

Context {Vector Results MolProto : Type}.
Variable A : Args (Vector:=Vector) (Results:=Results) (MolProto:=MolProto).

Local Abbreviation RunState :=
  (State (Vector:=Vector) (Results:=Results) (MolProto:=MolProto)).
Local Abbreviation Pool :=
  (list (option (Future (Vector:=Vector) (Results:=Results)
                   (MolProto:=MolProto)))).

(** What holds of the pool whenever the loops look at it: it has
    [threadCount] slots, [nextIndex] is one of them, and every job started
    is either collected or in flight in a slot, once. *)
Definition pool_inv (st : RunState) : Prop :=
  List.length (threadPool st) = threadCount A
  /\ nextIndex st < threadCount A
  /\ Permutation (started st) (collected st ++ in_flight (threadPool st)).

(** What holds of [openThreads] at the head of the clean-up loop, with
    [nextIndex = i]: it counts slots of the current lap, and when it has
    counted every slot passed, those slots are all empty. *)
Definition lap_inv (openThreads i : nat) (pool : Pool)
    : Prop :=
  if (i =? 0)%nat then
    openThreads <= threadCount A
    /\ (openThreads = threadCount A ->
        in_flight pool = ([] : list (Info Vector Results MolProto)))
  else
    openThreads <= i
    /\ (openThreads = i -> forall j, j < i -> slot pool j = None).

(** How many turns the clean-up loop has left when no job is in flight. *)
Definition lap_rest (openThreads i : nat) : nat :=
  let n := threadCount A in
  if (i =? 0)%nat then
    if (openThreads =? n)%nat then 0 else n + 1
  else if (openThreads =? i)%nat then n - i
  else 2 * n + 1 - i.

(** A bound on the turns the clean-up loop takes. *)
Definition drain_bound (openThreads i : nat) (pool : Pool)
    : nat :=
  waiting pool * (2 * threadCount A + 2) + lap_rest openThreads i.

End PoolNotions.

(** ** Notions for the properties of the parser as a whole *)

(** The custom spins among the items read, in order. *)
Definition spins_of (l : list Item) : list Spin :=
  flat_map (fun it => match it with ISpin s => [s] | _ => [] end) l.

(** The labels of the parameter entries among the items, each where it
    first appears; [seen] are the labels met before. *)
Fixpoint first_labels (seen : list string) (l : list Item) : list string :=
  match l with
  | [] => []
  | IParam _ lbl _ :: l' =>
      if existsb (String.eqb lbl) seen then first_labels seen l'
      else lbl :: first_labels (seen ++ [lbl]) l'
  | _ :: l' => first_labels seen l'
  end.

(** The label and the values of the last entry for [key]. *)
Fixpoint last_entry (key : string) (l : list Item)
    : option (string * list double) :=
  match l with
  | [] => None
  | it :: l' =>
      match last_entry key l' with
      | Some e => Some e
      | None =>
          match it with
          | IParam k lbl v => if String.eqb k key then Some (lbl, v) else None
          | _ => None
          end
      end
  end.

(** Every stored key has a label; it is listed among the parameters of
    that label, the label is one of [labelNames], and its sequence has the
    length recorded for the label. *)
Definition entries_ok (T : Tables) : Prop :=
  forall key v,
    StdMap.find key (p T) = Some v ->
    exists lbl names,
      StdMap.find key (labelMapInv T) = Some lbl
      /\ StdMap.find lbl (labelMap T) = Some names
      /\ In key names
      /\ In lbl (labelNames T)
      /\ StdMap.find lbl (iterLengths T) = Some (Z.of_nat (List.length v)).

(** The codes the parser throws. *)
Definition parser_codes : list Z := [1; 2; 3; 4; 5; 6; 7; 21]%Z.

(** No character of [s] is a newline. *)
Fixpoint no_newline (s : string) : bool :=
  match s with
  | EmptyString => true
  | String c s' => negb (N_of_ascii c =? 10)%N && no_newline s'
  end.

(** [str] is one of the operators of an entry. *)
Definition is_operator (str : string) : bool :=
  (str =? "=") || (str =? ":") || (str =? "{").

(** ** Notions for the properties of the run *)

(** How the simulation part can end: [main] returns 0, a job calls
    [exit(-10)], or a loop is still turning. *)
Definition run_status (s : Status) : Prop :=
  s = Returned 0 \/ s = Exited (-10) \/ s = Spinning.

(** The children of the root are the skeleton [nodes] followed by
    [<data>] elements only. *)
Definition skeleton_then_data {Vector Results MolProto : Type}
    (nodes root : list (XmlNode (Vector:=Vector) (Results:=Results)
                          (MolProto:=MolProto))) : Prop :=
  exists records,
    root = nodes ++ records
    /\ Forall (fun n => exists d, n = DataNode d) records.

(** ** The command line and the output file *)

(** What [main] writes to [cout] before the run (the last one goes to
    [cerr]). *)
Inductive Note : Type :=
| NeedParametersFile
| NeedOutputFile
| NeedModelType
| NeedInitMode
| NeedMoleculeType
| DefaultThreads (n : N)
    (* "Using a default number of threads: n" *)
| InvalidThreads (arg : string)
| InvalidModel (arg : string)
| InvalidInitMode (arg : string)
| UnrecognizedMolType
    (* "Unrecognized MOL_TYPE, and invalid .mmb file!" *)
| OutputFileError (code : Z) (filename : string).
    (* "(code) Error using output file: filename" *)

Section CommandLine.

Context {Vector Results MolProto : Type}.

(** What the start of [main] takes from its environment:
    [thread::hardware_concurrency()]; [MSD::MolProto::load] on the file of
    that name, [None] for a [DeserializationException]; a
    default-constructed [MolProto] and [Info]; and whether opening the
    output file with [ios::trunc], or the first write to it, fails. *)
Record Host := mkHost {
  hardware_concurrency : N;
  load_mmb : string -> option MolProto;
  default_molProto : MolProto;
  default_info : Info Vector Results MolProto;
  open_fails : string -> bool;
  write_fails : string -> bool
}.

Variable H : Host.
Variable P : Platform.

(** [argv[i]], for [i < argc]. *)
Definition arg (argv : list string) (i : nat) : string := nth i argv "".

(** [ss << argv[6]; ss >> threadCount;] and the test
    [ss.fail() || threadCount <= 0]: the count read, when it is accepted. *)
Definition read_threads (before : N) (text : string) : option N :=
  let (r, ss) := read_num (scan_unsigned P) (mkStream text true) in
  let threadCount := stored before r in
  if negb (good ss) || (threadCount <=? 0)%N then None else Some threadCount.

(** [main] up to the point where it prepares the output file: the code it
    returns, or what it has settled from [argv]. *)
Definition arguments (argv : list string)
    : list Note * (Z + Args (Vector:=Vector) (Results:=Results)
                          (MolProto:=MolProto)) :=
  let argc := List.length argv in
  let hw := hardware_concurrency H in
  let threadCount := if (1 <? hw)%N then hw else 1%N in
  if (argc <=? 1)%nat then ([NeedParametersFile], inl (-1)%Z)
  else if (argc <=? 2)%nat then ([NeedOutputFile], inl (-2)%Z)
  else if (argc <=? 3)%nat then ([NeedModelType], inl (-6)%Z)
  else if (argc <=? 4)%nat then ([NeedInitMode], inl (-7)%Z)
  else if (argc <=? 5)%nat then ([NeedMoleculeType], inl (-8)%Z)
  else
    let threads :=
      if (argc <=? 6)%nat then (Some threadCount, [DefaultThreads threadCount])
      else (read_threads threadCount (arg argv 6), []) in
    match threads with
    | (None, _) => ([InvalidThreads (arg argv 6)], inl (-4)%Z)
    | (Some threadCount, notes) =>
        let model :=
          if arg argv 3 =? "CONTINUOUS_SPIN_MODEL"
          then Some CONTINUOUS_SPIN_MODEL
          else if arg argv 3 =? "UP_DOWN_MODEL" then Some UP_DOWN_MODEL
          else None in
        match model with
        | None => (notes ++ [InvalidModel (arg argv 3)], inl (-3)%Z)
        | Some flippingAlgorithm =>
            let mode :=
              if arg argv 4 =? "REINITIALIZE" then Some REINITIALIZE
              else if arg argv 4 =? "RANDOMIZE" then Some RANDOMIZE
              else None in
            match mode with
            | None => (notes ++ [InvalidInitMode (arg argv 4)], inl (-5)%Z)
            | Some initMode =>
                let settled usingMMB molProto molType :=
                  (notes,
                   inr (mkArgs (N.to_nat threadCount) flippingAlgorithm
                          initMode usingMMB molProto molType
                          (default_info H))) in
                if arg argv 5 =? "LINEAR"
                then settled false (default_molProto H) LINEAR_MOL
                else if arg argv 5 =? "CIRCULAR"
                then settled false (default_molProto H) CIRCULAR_MOL
                else
                  match load_mmb H (arg argv 5) with
                  | Some molProto => settled true molProto LINEAR_MOL
                  | None => (notes ++ [UnrecognizedMolType], inl (-9)%Z)
                  end
            end
        end
    end.

(** The block that prepares the output file: [throw 1] when it cannot be
    opened and [throw 2] when the first write fails, each caught and
    returned with [e |= 0x20]. *)
Definition prepare_output (filename : string) : option Z :=
  if open_fails H filename then Some (Z.lor 1 32)
  else if write_fails H filename then Some (Z.lor 2 32)
  else None.

Variable E : Engine Vector Results MolProto.
Variable delay : nat -> nat.
Variable clock : nat -> Z.

(** The whole of [main]: [fin] is the stream opened on [argv[1]] and
    [beginning] the time read before the run. *)
Definition program (fuel : nat) (argv : list string) (fin : istream)
    (beginning : Z)
    : list Note * (Status * list Msg
                   * option (State (Vector:=Vector) (Results:=Results)
                               (MolProto:=MolProto))) :=
  match arguments argv with
  | (notes, inl code) => (notes, (Returned code, [], None))
  | (notes, inr A) =>
      match prepare_output (arg argv 2) with
      | Some code =>
          (notes ++ [OutputFileError code (arg argv 2)],
           (Returned code, [], None))
      | None =>
          (notes, main P E A delay clock fuel (arg argv 1) fin beginning)
      end
  end.

End CommandLine.

(** The codes [main] returns before it reads the parameter file. *)
Definition startup_codes : list Z :=
  [-1; -2; -3; -4; -5; -6; -7; -8; -9; 33; 34]%Z.

(** ** The elapsed time *)

(** [reportTime]: the days, hours, minutes and seconds it prints;
    [time_t] is a signed integer, and [/] and [%] round toward zero. *)
Definition reportTime (sec : Z) : Z * Z * Z * Z :=
  let min := Z.quot sec 60 in
  let sec := Z.rem sec 60 in
  let hr := Z.quot min 60 in
  let min := Z.rem min 60 in
  let days := Z.quot hr 24 in
  let hr := Z.rem hr 24 in
  (days, hr, min, sec).

(** One more file for the box, with custom spins and a second entry for
    [kT]. *)
Module BoxFiles.

Definition spun : string :=
  Box.file
    ("[1 0 0] = 3" ++ Box.nl ++ "kT : 7 9 1" ++ Box.nl ++ "[1 1 1] = 2"
     ++ Box.nl)
    [("kT", ": 1 3 1"); ("B_x", "L { 0 1 }"); ("B_y", "L { 5 6 }")].

Definition spun_tables : Tables :=
  Eval vm_compute in
    match parse_loop Plain.platform 100 no_tables "in" (mkStream spun true)
    with
    | Ret T => T
    | _ => no_tables
    end.

(** A host with four hardware threads, no molecule file, and an output
    file that can be written. *)
Definition host : Host (Vector:=double) (Results:=list double) (MolProto:=unit) :=
  mkHost 4 (fun _ => None) tt Box.blank (fun _ => false) (fun _ => false).

Definition argv : list string :=
  ["metropolis"; "in"; "out"; "CONTINUOUS_SPIN_MODEL"; "REINITIALIZE";
   "LINEAR"; "3"].

End BoxFiles.

(** ** Notions for the properties of a job *)

(** The coordinates of an atom. *)
Definition site_of {Vector : Type} (a : Atom Vector) : N * N * N :=
  (atom_x a, atom_y a, atom_z a).

Unset Implicit Arguments.

(** ** Facts about the containers *)

Lemma compare_refl (k : string) : String.compare k k = Eq.
Proof.
  pose proof (String.compare_antisym k k) as H.
  destruct (String.compare k k); simpl in H; congruence.
Qed.

Lemma eqb_compare (k k' : string) :
  String.eqb k k' = true -> String.compare k k' = Eq.
Proof.
  intros H. apply String.eqb_eq in H. subst. apply compare_refl.
Qed.

Lemma find_set_same {V : Type} (k : string) (v : V) (m : StdMap.t V) :
  StdMap.find k (StdMap.set k v m) = Some v.
Proof.
  induction m as [|[k' v'] m IH]; simpl.
  - now rewrite String.eqb_refl.
  - destruct (String.compare k k') eqn:C; simpl.
    + now rewrite String.eqb_refl.
    + now rewrite String.eqb_refl.
    + destruct (String.eqb k k') eqn:Ek; [|exact IH].
      apply eqb_compare in Ek. congruence.
Qed.

Lemma find_set_other {V : Type} (k k0 : string) (v : V) (m : StdMap.t V) :
  k0 <> k -> StdMap.find k0 (StdMap.set k v m) = StdMap.find k0 m.
Proof.
  intros Hne. induction m as [|[k' v'] m IH]; simpl.
  - destruct (String.eqb k0 k) eqn:Ek; [|reflexivity].
    apply String.eqb_eq in Ek. contradiction.
  - destruct (String.compare k k') eqn:C; simpl.
    + apply String.compare_eq_iff in C. subst k'.
      destruct (String.eqb k0 k) eqn:Ek; [|reflexivity].
      apply String.eqb_eq in Ek. contradiction.
    + destruct (String.eqb k0 k) eqn:Ek; [|reflexivity].
      apply String.eqb_eq in Ek. contradiction.
    + now rewrite IH.
Qed.

Lemma find_set {V : Type} (k k0 : string) (v : V) (m : StdMap.t V) :
  StdMap.find k0 (StdMap.set k v m) =
  if String.eqb k0 k then Some v else StdMap.find k0 m.
Proof.
  destruct (String.eqb k0 k) eqn:Ek.
  - apply String.eqb_eq in Ek. subst. apply find_set_same.
  - apply find_set_other. intros ->. now rewrite String.eqb_refl in Ek.
Qed.

Lemma keys_set {V : Type} (k k0 : string) (v : V) (m : StdMap.t V) :
  In k0 (StdMap.keys (StdMap.set k v m)) -> k0 = k \/ In k0 (StdMap.keys m).
Proof.
  unfold StdMap.keys. induction m as [|[k' v'] m IH]; simpl.
  - intuition.
  - destruct (String.compare k k') eqn:C; simpl; intuition.
Qed.

Lemma find_keys {V : Type} (k : string) (m : StdMap.t V) :
  In k (StdMap.keys m) -> StdMap.find k m <> None.
Proof.
  unfold StdMap.keys. induction m as [|[k' v'] m IH]; simpl; [tauto|].
  intros [->|H].
  - now rewrite String.eqb_refl.
  - destruct (String.eqb k k'); [discriminate|auto].
Qed.

Lemma compare_lt (k k' : string) :
  String.compare k k' = Lt -> String_as_OT.lt k k'.
Proof. intros H. now apply String_as_OT.cmp_lt. Qed.

Lemma compare_gt (k k' : string) :
  String.compare k k' = Gt -> String_as_OT.lt k' k.
Proof.
  intros H. apply String_as_OT.cmp_lt.
  unfold String_as_OT.cmp. rewrite String.compare_antisym, H. reflexivity.
Qed.

(** [m[k] = v] keeps the keys in order. *)
Lemma ordered_set {V : Type} (k : string) (v : V) (m : StdMap.t V) :
  ordered m -> ordered (StdMap.set k v m).
Proof.
  induction m as [|[k' v'] m IH]; simpl.
  - intros _. split; [intros ? []|exact I].
  - intros [Hlt Hm]. destruct (String.compare k k') eqn:C; simpl.
    + apply String.compare_eq_iff in C. subst. auto.
    + apply compare_lt in C. split; [|auto].
      intros k0 [<-|Hk0]; [exact C|].
      exact (String_as_OT.lt_trans _ _ _ C (Hlt _ Hk0)).
    + apply compare_gt in C. split; [|auto].
      intros k0 Hk0. apply keys_set in Hk0.
      destruct Hk0 as [->|Hk0]; auto.
Qed.

(** In an ordered map an entry is the one [find] returns for its key. *)
Lemma ordered_find {V : Type} (k : string) (v : V) (m : StdMap.t V) :
  ordered m -> In (k, v) m -> StdMap.find k m = Some v.
Proof.
  induction m as [|[k' v'] m IH]; simpl; [tauto|].
  intros [Hlt Hm] [[= -> ->]|Hin].
  - now rewrite String.eqb_refl.
  - destruct (String.eqb k k') eqn:Ek; [|auto].
    apply String.eqb_eq in Ek. subst k'.
    elim (String_as_OT.lt_not_eq k k); [|reflexivity].
    apply Hlt. unfold StdMap.keys. apply in_map_iff. now exists (k, v).
Qed.

Lemma find_in_keys {V : Type} (k : string) (m : StdMap.t V) :
  StdMap.find k m <> None -> In k (StdMap.keys m).
Proof.
  unfold StdMap.keys. induction m as [|[k' v'] m IH]; simpl; [tauto|].
  destruct (String.eqb k k') eqn:Ek; [|auto].
  apply String.eqb_eq in Ek. auto.
Qed.

Lemma cursor_set (l l0 : string) (c : Z) (m : StdMap.t Z) :
  cursor l0 (StdMap.set l c m) = if String.eqb l0 l then c else cursor l0 m.
Proof.
  unfold cursor. rewrite find_set. now destruct (String.eqb l0 l).
Qed.

(** ** The [:] operator *)

Lemma range_loop_stops (n : nat) :
  forall fuel val lim inc vec,
    stops_after n val lim inc = true ->
    n < fuel ->
    range_loop fuel val lim inc vec = Some (vec ++ progression n val inc).
Proof.
  induction n as [|n IH]; intros fuel val lim inc vec H Hf;
    (destruct fuel as [|fuel]; [lia|]); unfold stops_after in H;
    simpl in H |- *.
  - destruct (in_range val lim inc); [discriminate|].
    now rewrite app_nil_r.
  - destruct (in_range val lim inc); [|discriminate].
    rewrite (IH fuel _ lim inc (vec ++ [val]) H) by lia.
    now rewrite <- app_assoc.
Qed.

Lemma progression_length (n : nat) :
  forall val inc, List.length (progression n val inc) = n.
Proof. induction n; intros; simpl; auto. Qed.

(** One turn of the entry loop on [: val lim inc], for a progression that
    leaves the range after [n] terms: with no term the turn leaves [vec]
    empty and the loop goes on, otherwise the entry ends with the [n]
    terms. *)
Lemma entry_loop_range (P : Platform) fuel lbl str fin f1 f2 f3 f4
    val lim inc n :
  read_string fin = (Some ":", f1) ->
  read_num (scan_double P) f1 = (Some (ScanOk val), f2) ->
  read_num (scan_double P) f2 = (Some (ScanOk lim), f3) ->
  read_num (scan_double P) f3 = (Some (ScanOk inc), f4) ->
  PrimFloat.eqb inc 0 = false ->
  stops_after n val (padded_limit lim inc) inc = true ->
  n < fuel ->
  entry_loop P (S fuel) [] lbl str fin =
  match n with
  | O => entry_loop P fuel [] lbl ":" f4
  | _ => Ret (progression n val inc, lbl, ":", f4)
  end.
Proof.
  intros Hs Hv Hl Hi Hz Hn Hf.
  cbn [entry_loop]. rewrite Hs.
  change (":" =? "=") with false. change (":" =? ":") with true. cbv iota.
  rewrite Hv, Hl, Hi, Hz.
  rewrite (range_loop_stops n _ _ _ _ [] Hn Hf). simpl app.
  destruct n; reflexivity.
Qed.

(** C5.  An entry [key : start limit step] with a nonzero step yields the
    terms [start, start + step, ...] accumulated by the loop, as long as
    they pass the test against [limit + step / 256] (strictly below it for
    a positive step, strictly above it for a negative one): when the first
    [n > 0] terms pass and the next does not, the entry is those [n]
    terms.  In particular [kT : 1 5 1] gives [1, 2, 3, 4, 5] and
    [kT : 5 1 -1] gives [5, 4, 3, 2, 1]. *)
Theorem range_entry_progression :
  (forall (P : Platform) fuel lbl str fin f1 f2 f3 f4 val lim inc n,
      read_string fin = (Some ":", f1) ->
      read_num (scan_double P) f1 = (Some (ScanOk val), f2) ->
      read_num (scan_double P) f2 = (Some (ScanOk lim), f3) ->
      read_num (scan_double P) f3 = (Some (ScanOk inc), f4) ->
      PrimFloat.eqb inc 0 = false ->
      stops_after n val (padded_limit lim inc) inc = true ->
      0 < n < fuel ->
      entry_loop P (S fuel) [] lbl str fin
      = Ret (progression n val inc, lbl, ":", f4)
      /\ List.length (progression n val inc) = n
      /\ forall k, k < n ->
           nth_error (progression n val inc) k = Some (term k val inc))
  /\ (exists T,
        parse_loop Plain.platform 9 no_tables "in" (mkStream "kT : 1 5 1" true)
        = Ret T
        /\ StdMap.find "kT" (p T) = Some [1; 2; 3; 4; 5]%float)
  /\ (exists T,
        parse_loop Plain.platform 9 no_tables "in" (mkStream "kT : 5 1 -1" true)
        = Ret T
        /\ StdMap.find "kT" (p T) = Some [5; 4; 3; 2; 1]%float).
Proof.
  split; [|split].
  - intros P fuel lbl str fin f1 f2 f3 f4 val lim inc n Hs Hv Hl Hi Hz Hn Hf.
    split; [|split].
    + rewrite (entry_loop_range P fuel lbl str fin f1 f2 f3 f4 val lim inc n
                 Hs Hv Hl Hi Hz Hn) by lia.
      destruct n; [lia|reflexivity].
    + apply progression_length.
    + clear. revert val. induction n as [|n IH]; intros val k Hk; [lia|].
      destruct k; simpl; [reflexivity|]. apply IH. lia.
  - eexists. split; vm_compute; reflexivity.
  - eexists. split; vm_compute; reflexivity.
Qed.

(** The general part of [range_entry_progression] at the entry
    [: 1 5 1]. *)
Lemma range_entry_progression_witness :
  entry_loop Plain.platform 7 [] "" "in" (mkStream " : 1 5 1" true)
  = Ret ([1; 2; 3; 4; 5]%float, "", ":", mkStream "" true).
Proof.
  refine (proj1 (proj1 range_entry_progression Plain.platform 6 "" "in"
    (mkStream " : 1 5 1" true) (mkStream " 1 5 1" true)
    (mkStream " 5 1" true) (mkStream " 1" true) (mkStream "" true)
    1%float 5%float 1%float 5 _ _ _ _ _ _ _));
    try (vm_compute; reflexivity).
  lia.
Defined.

(** A start the step does not move: the loop never ends, whatever the
    fuel.  The hypothesis [stops_after] of the statements above is what
    excludes such entries. *)
Lemma range_loop_stuck (fuel : nat) (vec : list double) :
  range_loop fuel 1e16%float (padded_limit 1e17 1)%float 1%float vec = None.
Proof.
  revert vec. induction fuel as [|fuel IH]; intros vec; [reflexivity|].
  cbn [range_loop].
  replace (in_range 1e16 (padded_limit 1e17 1) 1)%float with true
    by (vm_compute; reflexivity).
  replace (PrimFloat.add 1e16 1)%float with 1e16%float
    by (vm_compute; reflexivity).
  apply IH.
Qed.

(** ** The [{ }] operator *)

Lemma list_loop_reads (P : Platform) fin vs f2 :
  reads P fin vs f2 ->
  forall fuel vec f3,
    read_fails P f2 f3 ->
    List.length vs < fuel ->
    list_loop P fuel vec fin = Some (vec ++ vs, f3).
Proof.
  induction 1 as [fin|fin val fin1 vs f2 Hr _ IH]; intros fuel vec f3 Hf Hlt;
    (destruct fuel as [|fuel]; [simpl in Hlt; lia|]); cbn [list_loop].
  - destruct Hf as [Hs Hn]. rewrite app_nil_r.
    destruct (read_num (scan_double P) fin) as [[[v|v]|] f]; simpl in *;
      subst; try reflexivity.
    now elim (Hn v).
  - rewrite Hr. rewrite (IH fuel (vec ++ [val]) f3 Hf) by (simpl in Hlt; lia).
    now rewrite <- app_assoc.
Qed.

(** One turn of the entry loop on [{ v1 ... vn }]. *)
Lemma entry_loop_list (P : Platform) fuel lbl str fin f1 f2 f3 f4 vs :
  read_string fin = (Some "{", f1) ->
  reads P f1 vs f2 ->
  read_fails P f2 f3 ->
  read_string (clear f3) = (Some "}", f4) ->
  List.length vs < fuel ->
  entry_loop P (S fuel) [] lbl str fin =
  match vs with
  | [] => Throw 6 []
  | _ => Ret (vs, lbl, "}", f4)
  end.
Proof.
  intros Hs Hr Hf Hc Hlt.
  cbn [entry_loop]. rewrite Hs.
  change ("{" =? "=") with false. change ("{" =? ":") with false.
  change ("{" =? "{") with true. cbv iota.
  rewrite (list_loop_reads P f1 vs f2 Hr fuel [] f3 Hf Hlt). simpl app.
  rewrite Hc. change (negb ("}" =? "}")) with false. cbv iota.
  destruct vs; reflexivity.
Qed.

Lemma parse_loop_throw (P : Platform) fuel T str fin e err :
  read_item P fuel str fin = Throw e err ->
  parse_loop P (S fuel) T str fin = Throw e err.
Proof. intros H. cbn [parse_loop]. now rewrite H. Qed.

Section MainFacts.

Context {Vector Results MolProto : Type}.
Variable P : Platform.
Variable E : Engine Vector Results MolProto.
Variable A : Args (Vector:=Vector) (Results:=Results) (MolProto:=MolProto).
Variable delay : nat -> nat.
Variable clock : nat -> Z.

Lemma main_throw fuel name fin beginning e err :
  parse_loop P fuel no_tables name fin = Throw e err ->
  main P E A delay clock fuel name fin beginning
  = (Returned (Z.lor e 16), err ++ [CorruptedMsg (Z.lor e 16)], None).
Proof. intros H. unfold main. now rewrite H. Qed.

End MainFacts.

(** C7.  An entry [{ v1 ... vn }] whose values are read one after the
    other, up to a failing extraction that leaves a literal [}] as the
    next word, yields exactly [v1 ... vn] in order when [n > 0]; with no
    value the entry throws 6, the parser stops there and [main] returns
    with the code of a corrupted file, having run no job.  In particular
    [{ 0.1 0.2 0.3 }] yields [0.1, 0.2, 0.3] and [{ }] is fatal. *)
Theorem list_entry_values :
  (forall (P : Platform) fuel lbl str fin f1 f2 f3 f4 vs,
      read_string fin = (Some "{", f1) ->
      reads P f1 vs f2 ->
      read_fails P f2 f3 ->
      read_string (clear f3) = (Some "}", f4) ->
      List.length vs < fuel ->
      match vs with
      | [] =>
          entry_loop P (S fuel) [] lbl str fin = Throw 6 []
          /\ forall T key str0 fin0,
               read_string fin0 = (Some key, fin) ->
               starts_with "#" key = false ->
               starts_with "[" key = false ->
               lbl = "" ->
               parse_loop P (S (S (S fuel))) T str0 fin0 = Throw 6 []
      | _ => entry_loop P (S fuel) [] lbl str fin = Ret (vs, lbl, "}", f4)
      end)
  /\ (exists T,
        parse_loop Plain.platform 9 no_tables "in"
          (mkStream "kT { 0.1 0.2 0.3 }" true) = Ret T
        /\ StdMap.find "kT" (p T) = Some [0.1; 0.2; 0.3]%float)
  /\ (forall fuel,
        7 <= fuel ->
        parse_loop Plain.platform fuel no_tables "in" (mkStream "kT { }" true)
        = Throw 6 [])
  /\ (forall (Vector Results MolProto : Type) P E (A : Args) delay clock
        fuel name fin beginning err,
        parse_loop P fuel no_tables name fin = Throw 6 err ->
        main (Vector:=Vector) (Results:=Results) (MolProto:=MolProto)
          P E A delay clock fuel name fin beginning
        = (Returned 22, err ++ [CorruptedMsg 22], None)).
Proof.
  split; [|split; [|split]].
  - intros P fuel lbl str fin f1 f2 f3 f4 vs Hs Hr Hf Hc Hlt.
    pose proof (entry_loop_list P fuel lbl str fin f1 f2 f3 f4 vs
                  Hs Hr Hf Hc Hlt) as H.
    destruct vs; [|exact H]. split; [exact H|].
    intros T key str0 fin0 Hk H1 H2 ->.
    apply parse_loop_throw. unfold read_item. rewrite Hk, H1, H2.
    assert (H' : entry_loop P (S (S fuel)) [] "" str0 fin = Throw 6 []).
    { apply (entry_loop_list P (S fuel) "" str0 fin f1 f2 f3 f4 [] Hs Hr Hf Hc).
      simpl. lia. }
    now rewrite H'.
  - eexists. split; vm_compute; reflexivity.
  - intros fuel Hfuel.
    do 7 (destruct fuel as [|fuel]; [lia|]). vm_compute. reflexivity.
  - intros V R M P E A delay clock fuel name fin beginning err H.
    now rewrite (main_throw P E A delay clock fuel name fin beginning 6 err H).
Qed.

(** The general part of [list_entry_values] at [{ 0.1 0.2 0.3 }]. *)
Lemma list_entry_values_witness :
  entry_loop Plain.platform 5 [] "" "in" (mkStream " { 0.1 0.2 0.3 }" true)
  = Ret ([0.1; 0.2; 0.3]%float, "", "}", mkStream "" true).
Proof.
  refine (proj1 list_entry_values Plain.platform 4 "" "in"
    (mkStream " { 0.1 0.2 0.3 }" true) (mkStream " 0.1 0.2 0.3 }" true)
    (mkStream " }" true) (mkStream "}" false) (mkStream "" true)
    [0.1; 0.2; 0.3]%float _ _ _ _ _).
  - vm_compute; reflexivity.
  - apply reads_cons with (fin1 := mkStream " 0.2 0.3 }" true);
      [vm_compute; reflexivity|].
    apply reads_cons with (fin1 := mkStream " 0.3 }" true);
      [vm_compute; reflexivity|].
    apply reads_cons with (fin1 := mkStream " }" true);
      [vm_compute; reflexivity|].
    apply reads_nil.
  - split; [vm_compute; reflexivity|]. intros val. vm_compute. discriminate.
  - vm_compute; reflexivity.
  - simpl. lia.
Defined.

(** ** What a successful parse guarantees *)

Lemma entry_loop_nonempty (P : Platform) (fuel : nat) :
  forall vec lbl str fin v l s f,
    entry_loop P fuel vec lbl str fin = Ret (v, l, s, f) -> v <> [].
Proof.
  induction fuel as [|fuel IH]; intros vec lbl str fin v l s f H;
    [discriminate|].
  cbn [entry_loop] in H.
  repeat match type of H with
  | context [match ?x with _ => _ end] =>
      match x with
      | context [entry_loop] => fail 1
      | _ => destruct x eqn:?; try discriminate
      end
  | entry_loop _ _ _ _ _ _ = _ => apply IH in H; exact H
  | Ret _ = Ret _ => injection H as <- _ _ _; discriminate
  | Ret _ = Ret _ =>
      injection H as <- _ _ _;
      match goal with
      | |- ?a ++ [_] <> [] => destruct a; discriminate
      end
  end.
Qed.

Lemma read_item_nonempty (P : Platform) fuel str fin key lbl vec s f :
  read_item P fuel str fin = Ret (IParam key lbl vec, s, f) -> vec <> [].
Proof.
  unfold read_item. intros H.
  destruct (read_string fin) as [[k|] f0]; [|discriminate].
  destruct (starts_with "#" k).
  { destruct (getline f0); discriminate. }
  destruct (starts_with "[" k).
  { destruct (read_spin P k str f0) as [[[? ?] ?]| |]; discriminate. }
  destruct (entry_loop P fuel [] "" str f0) as [[[[v l] s0] f1]| |] eqn:He;
    try discriminate.
  injection H as _ _ <- _ _. exact (entry_loop_nonempty P fuel _ _ _ _ _ _ _ _ He).
Qed.

Lemma no_tables_ok : tables_ok no_tables.
Proof.
  constructor; simpl; try discriminate; try tauto.
  constructor.
Qed.

Lemma push_spin_ok (T : Tables) (s : Spin) :
  tables_ok T -> tables_ok (push_spin T s).
Proof. intros [? ? ? ? ? ? ? ? ?]. constructor; assumption. Qed.

Lemma commit_ok (T T' : Tables) key lbl vec :
  tables_ok T -> vec <> [] ->
  commit T key lbl vec = Ret T' -> tables_ok T'.
Proof.
  intros [Hv Hn Hm Hl Hk Hc Hi Hkn Hord] Hne H. unfold commit in H.
  assert (Hsize : (1 <= Z.of_nat (List.length vec))%Z)
    by (destruct vec; [congruence|simpl; lia]).
  assert (Hnames :
    forall l, In l (if StdMap.mem lbl (labelMap T) then labelNames T
                    else labelNames T ++ [lbl])
              <-> l = lbl \/ In l (labelNames T)).
  { intros l. unfold StdMap.mem.
    destruct (StdMap.find lbl (labelMap T)) eqn:F.
    - split; [tauto|]. intros [->|]; [|assumption]. apply Hm. congruence.
    - rewrite in_app_iff. simpl. intuition. }
  assert (Hnd : NoDup (if StdMap.mem lbl (labelMap T) then labelNames T
                       else labelNames T ++ [lbl])).
  { unfold StdMap.mem. destruct (StdMap.find lbl (labelMap T)) eqn:F; [exact Hn|].
    apply NoDup_app; [exact Hn|repeat constructor; simpl; tauto|].
    intros x Hx [<-|[]]. apply Hm in Hx. congruence. }
  assert (Heq : forall l, String.eqb l lbl = false -> l <> lbl)
    by (intros l E ->; rewrite String.eqb_refl in E; discriminate).
  assert (G1 : forall k v,
             StdMap.find k (StdMap.set key vec (p T)) = Some v -> v <> []).
  { intros k v. rewrite find_set. destruct (String.eqb k key);
      [intros [= <-]; exact Hne|apply Hv]. }
  assert (G3 : forall l m,
             In l (if StdMap.mem lbl (labelMap T) then labelNames T
                   else labelNames T ++ [lbl])
             <-> StdMap.find l (StdMap.set lbl m (labelMap T)) <> None).
  { intros l m. rewrite Hnames, find_set.
    destruct (String.eqb l lbl) eqn:El.
    - apply String.eqb_eq in El. split; [discriminate|tauto].
    - rewrite <- Hm. apply Heq in El. tauto. }
  assert (G6 : forall l c,
             StdMap.find l (StdMap.set lbl 0%Z (iters T)) = Some c -> c = 0%Z).
  { intros l c. rewrite find_set. destruct (String.eqb l lbl);
      [congruence|apply Hc]. }
  assert (G7 : forall l,
             In l (StdMap.keys (StdMap.set lbl 0%Z (iters T))) ->
             In l (if StdMap.mem lbl (labelMap T) then labelNames T
                   else labelNames T ++ [lbl])).
  { intros l Hin. apply Hnames. apply keys_set in Hin.
    destruct Hin; [left|right]; auto. }
  assert (G8 : forall l,
             In l (if StdMap.mem lbl (labelMap T) then labelNames T
                   else labelNames T ++ [lbl]) ->
             StdMap.find l (StdMap.set lbl 0%Z (iters T)) <> None).
  { intros l Hin. rewrite find_set.
    destruct (String.eqb l lbl) eqn:El; [discriminate|].
    apply Hnames in Hin. apply Heq in El. destruct Hin; [tauto|auto]. }
  pose proof (ordered_set lbl 0%Z (iters T) Hord) as G9.
  destruct (StdMap.find lbl (iterLengths T)) as [prev|] eqn:F;
    [destruct (prev =? Z.of_nat (List.length vec))%Z eqn:Ep; [|discriminate]|];
    injection H as <-; constructor; simpl; auto.
  - intros l Hin. apply Hnames in Hin. destruct Hin as [->|Hin];
      [congruence|auto].
  - intros l n. rewrite find_set. destruct (String.eqb l lbl); [|apply Hl].
    intros [= <-]. exact Hsize.
  - intros l Hin. rewrite find_set.
    destruct (String.eqb l lbl) eqn:El; [discriminate|].
    apply Hnames in Hin. apply Heq in El. destruct Hin; [tauto|auto].
Qed.

Lemma parse_loop_ok (P : Platform) (fuel : nat) :
  forall T str fin T',
    tables_ok T ->
    parse_loop P fuel T str fin = Ret T' -> tables_ok T'.
Proof.
  induction fuel as [|fuel IH]; intros T str fin T' HT H; [discriminate|].
  cbn [parse_loop] in H.
  destruct (read_item P fuel str fin) as [[[it s] f]| |] eqn:R;
    try discriminate.
  destruct it as [| |sp|key lbl vec].
  - now injection H as <-.
  - exact (IH _ _ _ _ HT H).
  - exact (IH _ _ _ _ (push_spin_ok T sp HT) H).
  - destruct (commit T key lbl vec) as [T1| |] eqn:C; try discriminate.
    apply (IH _ _ _ _ (commit_ok T T1 key lbl vec HT
                         (read_item_nonempty P _ _ _ _ _ _ _ _ R) C) H).
Qed.

(** C10.  After a successful parse every stored sequence has at least one
    value and every label a length of at least one.  The entry loop ends
    only with a value in hand: on [: val lim inc] with no term in range
    the turn leaves the sequence empty and the loop reads the next word of
    the same entry, as in [kT : 5 1 1 = 7], which stores [kT = 7]. *)
Theorem parse_values_nonempty :
  (forall (P : Platform) fuel name fin T,
      parse_loop P fuel no_tables name fin = Ret T ->
      (forall key vec,
          StdMap.find key (p T) = Some vec -> 1 <= List.length vec)
      /\ (forall lbl,
             In lbl (labelNames T) -> (1 <= cursor lbl (iterLengths T))%Z))
  /\ (forall (P : Platform) fuel vec lbl str fin v l s f,
         entry_loop P fuel vec lbl str fin = Ret (v, l, s, f) ->
         1 <= List.length v)
  /\ (forall (P : Platform) fuel lbl str fin f1 f2 f3 f4 val lim inc,
         read_string fin = (Some ":", f1) ->
         read_num (scan_double P) f1 = (Some (ScanOk val), f2) ->
         read_num (scan_double P) f2 = (Some (ScanOk lim), f3) ->
         read_num (scan_double P) f3 = (Some (ScanOk inc), f4) ->
         PrimFloat.eqb inc 0 = false ->
         in_range val (padded_limit lim inc) inc = false ->
         entry_loop P (S (S fuel)) [] lbl str fin
         = entry_loop P (S fuel) [] lbl ":" f4)
  /\ (exists T,
        parse_loop Plain.platform 9 no_tables "in"
          (mkStream "kT : 5 1 1 = 7" true) = Ret T
        /\ StdMap.find "kT" (p T) = Some [7]%float).
Proof.
  split; [|split; [|split]].
  - intros P fuel name fin T H.
    destruct (parse_loop_ok P fuel _ _ _ _ no_tables_ok H)
      as [Hv _ _ Hl Hk _ _ _ _].
    split.
    + intros key vec F. apply Hv in F. destruct vec; [congruence|simpl; lia].
    + intros lbl Hin. apply Hk in Hin. unfold cursor.
      destruct (StdMap.find lbl (iterLengths T)) as [n|] eqn:F; [|congruence].
      exact (Hl _ _ F).
  - intros P fuel vec lbl str fin v l s f H.
    apply entry_loop_nonempty in H. destruct v; [congruence|simpl; lia].
  - intros P fuel lbl str fin f1 f2 f3 f4 val lim inc Hs Hv Hl Hi Hz Hr.
    apply (entry_loop_range P (S fuel) lbl str fin f1 f2 f3 f4 val lim inc 0
             Hs Hv Hl Hi Hz); [|lia].
    unfold stops_after. simpl. now rewrite Hr.
  - eexists. split; vm_compute; reflexivity.
Qed.

(** [parse_values_nonempty] at the file [kT : 5 1 1 = 7]. *)
Lemma parse_values_nonempty_witness :
  (forall key vec,
      StdMap.find key [("kT", [7]%float)] = Some vec -> 1 <= List.length vec)
  /\ (forall lbl, In lbl ["kT"] -> (1 <= cursor lbl [("kT", 1%Z)])%Z).
Proof.
  exact (proj1 parse_values_nonempty Plain.platform 9 "in"
           (mkStream "kT : 5 1 1 = 7" true)
           (mkTables [("kT", [7]%float)] ["kT"] [("kT", ["kT"])]
              [("kT", "kT")] [("kT", 0%Z)] [("kT", 1%Z)] [])
           eq_refl).
Defined.

(** ** Labels with sequences of different lengths *)

Lemma lengths_of_more (seen : list Item) (T : Tables) (it : Item) :
  (forall k lbl v, it <> IParam k lbl v) ->
  lengths_of seen T -> lengths_of (seen ++ [it]) T.
Proof.
  intros Hit [H1 H2]. split.
  - intros k lbl v Hin. apply in_app_or in Hin.
    destruct Hin as [Hin|[->|[]]]; [eauto|]. now elim (Hit k lbl v).
  - intros lbl n F. destruct (H2 lbl n F) as (k & v & Hin & ->).
    exists k, v. split; [apply in_or_app; auto|reflexivity].
Qed.

Lemma lengths_of_commit (seen : list Item) (T T' : Tables) key lbl vec :
  lengths_of seen T ->
  commit T key lbl vec = Ret T' ->
  lengths_of (seen ++ [IParam key lbl vec]) T'.
Proof.
  intros [H1 H2] C. unfold commit in C.
  destruct (StdMap.find lbl (iterLengths T)) as [prev|] eqn:F.
  - destruct (prev =? Z.of_nat (List.length vec))%Z eqn:Ep; [|discriminate].
    apply Z.eqb_eq in Ep. injection C as <-. unfold lengths_of. simpl. split.
    + intros k l v Hin. apply in_app_or in Hin.
      destruct Hin as [Hin|[[= <- <- <-]|[]]]; [eauto|congruence].
    + intros l n Fl. destruct (H2 l n Fl) as (k & v & Hin & ->).
      exists k, v. split; [apply in_or_app; auto|reflexivity].
  - injection C as <-. unfold lengths_of. simpl. split.
    + intros k l v Hin. rewrite find_set. apply in_app_or in Hin.
      destruct Hin as [Hin|[[= <- <- <-]|[]]].
      * destruct (String.eqb l lbl) eqn:El; [|eauto].
        apply String.eqb_eq in El. subst l. apply H1 in Hin. congruence.
      * now rewrite String.eqb_refl.
    + intros l n. rewrite find_set.
      destruct (String.eqb l lbl) eqn:El.
      * apply String.eqb_eq in El. subst l. intros [= <-].
        exists key, vec. split; [apply in_or_app; simpl; auto|reflexivity].
      * intros Fl. destruct (H2 l n Fl) as (k & v & Hin & ->).
        exists k, v. split; [apply in_or_app; auto|reflexivity].
Qed.

Lemma lengths_of_agree (seen : list Item) (T : Tables) k1 k2 lbl v1 v2 :
  lengths_of seen T ->
  In (IParam k1 lbl v1) seen -> In (IParam k2 lbl v2) seen ->
  List.length v1 = List.length v2.
Proof.
  intros [H1 _] Ha Hb. apply H1 in Ha. apply H1 in Hb.
  rewrite Ha in Hb. injection Hb as Hb. lia.
Qed.

Lemma parse_loop_conflict (P : Platform) (fuel : nat) :
  forall T str fin seen k1 k2 lbl v1 v2,
    lengths_of seen T ->
    In (IParam k1 lbl v1) (seen ++ items P fuel str fin) ->
    In (IParam k2 lbl v2) (seen ++ items P fuel str fin) ->
    List.length v1 <> List.length v2 ->
    exists l1 k lbl' u1 l2 key u2 l3,
      seen ++ items P fuel str fin
      = l1 ++ IParam k lbl' u1 :: l2 ++ IParam key lbl' u2 :: l3
      /\ List.length u1 <> List.length u2
      /\ parse_loop P fuel T str fin
         = Throw 7 [LabelSizeMsg lbl' key (Z.of_nat (List.length u2))
                      (Z.of_nat (List.length u1))].
Proof.
  induction fuel as [|fuel IH]; intros T str fin seen k1 k2 lbl v1 v2 HT Ha Hb Hne.
  { simpl in Ha, Hb. rewrite app_nil_r in Ha, Hb.
    elim Hne. exact (lengths_of_agree _ _ _ _ _ _ _ HT Ha Hb). }
  cbn [items parse_loop] in *.
  destruct (read_item P fuel str fin) as [[[it s] f]| |] eqn:R;
    try (rewrite app_nil_r in Ha, Hb;
         elim Hne; exact (lengths_of_agree _ _ _ _ _ _ _ HT Ha Hb)).
  assert (Hassoc : forall r, seen ++ it :: r = (seen ++ [it]) ++ r)
    by (intros; now rewrite <- app_assoc).
  destruct it as [| |sp|key l vec].
  - rewrite app_nil_r in Ha, Hb.
    elim Hne. exact (lengths_of_agree _ _ _ _ _ _ _ HT Ha Hb).
  - rewrite Hassoc in *.
    apply (IH T s f _ k1 k2 lbl v1 v2); auto.
    apply lengths_of_more; [discriminate|exact HT].
  - rewrite Hassoc in *.
    apply (IH (push_spin T sp) s f _ k1 k2 lbl v1 v2); auto.
    apply lengths_of_more; [discriminate|exact HT].
  - destruct (commit T key l vec) as [T1| |] eqn:C.
    + rewrite Hassoc in *.
      apply (IH T1 s f _ k1 k2 lbl v1 v2); auto.
      exact (lengths_of_commit _ _ _ _ _ _ HT C).
    + unfold commit in C.
      destruct (StdMap.find l (iterLengths T)) as [prev|] eqn:F;
        [|discriminate].
      destruct (prev =? Z.of_nat (List.length vec))%Z eqn:Ep; [discriminate|].
      injection C as <- <-. apply Z.eqb_neq in Ep.
      destruct HT as [_ H2]. destruct (H2 l prev F) as (k & u & Hin & ->).
      apply in_split in Hin. destruct Hin as (l1 & l2 & ->).
      exists l1, k, l, u, l2, key, vec, (items P fuel s f).
      split; [now rewrite <- app_assoc|]. split; [lia|reflexivity].
    + unfold commit in C.
      destruct (StdMap.find l (iterLengths T)); [|discriminate].
      destruct (_ =? _)%Z; discriminate.
Qed.

(** C6.  When the file has two parameter entries with the same label and
    sequences of different lengths, the parser throws 7 at the first entry
    whose length differs from the one recorded for its label, after a
    message naming that label, the key and both lengths; [main] returns
    with the code 23 of a corrupted file, and no job has been started. *)
Theorem label_length_mismatch (Vector Results MolProto : Type)
    (P : Platform) (E : Engine Vector Results MolProto) (A : Args)
    (delay : nat -> nat) (clock : nat -> Z) (fuel : nat) (name : string)
    (fin : istream) (beginning : Z) k1 k2 lbl v1 v2 :
  In (IParam k1 lbl v1) (items P fuel name fin) ->
  In (IParam k2 lbl v2) (items P fuel name fin) ->
  List.length v1 <> List.length v2 ->
  exists l1 k lbl' u1 l2 key u2 l3,
    items P fuel name fin
    = l1 ++ IParam k lbl' u1 :: l2 ++ IParam key lbl' u2 :: l3
    /\ List.length u1 <> List.length u2
    /\ main P E A delay clock fuel name fin beginning
       = (Returned 23,
          [LabelSizeMsg lbl' key (Z.of_nat (List.length u2))
             (Z.of_nat (List.length u1));
           CorruptedMsg 23],
          None)
    /\ jobs_run (main P E A delay clock fuel name fin beginning) = [].
Proof.
  intros Ha Hb Hne.
  destruct (parse_loop_conflict P fuel no_tables name fin [] k1 k2 lbl v1 v2)
    as (l1 & k & lbl' & u1 & l2 & key & u2 & l3 & Hi & Hu & Hp); auto.
  { split; simpl; [tauto|discriminate]. }
  exists l1, k, lbl', u1, l2, key, u2, l3.
  rewrite (main_throw P E A delay clock fuel name fin beginning _ _ Hp).
  repeat split; auto.
Qed.

(** ** The odometer *)

Lemma product_pos (lens : list Z) :
  positive_lengths lens -> (1 <= product lens)%Z.
Proof.
  induction 1 as [|l ls Hl _ IH]; simpl; [lia|nia].
Qed.

Lemma digits_combination (lens : list Z) :
  positive_lengths lens ->
  forall n, combination lens (digits lens n).
Proof.
  induction 1 as [|l ls Hl _ IH]; intros n; simpl; constructor.
  - apply Z.mod_pos_bound. lia.
  - apply IH.
Qed.

Lemma number_digits (lens : list Z) :
  positive_lengths lens ->
  forall n, (0 <= n < product lens)%Z -> number lens (digits lens n) = n.
Proof.
  induction 1 as [|l ls Hl Hls IH]; intros n Hn; simpl in *; [lia|].
  pose proof (product_pos ls Hls) as Hp.
  rewrite IH.
  - pose proof (Z.div_mod n l). lia.
  - split; [apply Z.div_pos; lia|].
    apply Z.div_lt_upper_bound; lia.
Qed.

Lemma number_bound (lens cs : list Z) :
  combination lens cs -> (0 <= number lens cs < product lens)%Z.
Proof.
  induction 1 as [|l c ls cs' Hc _ IH]; simpl; [lia|nia].
Qed.

Lemma digits_number (lens cs : list Z) :
  combination lens cs -> digits lens (number lens cs) = cs.
Proof.
  induction 1 as [|l c ls cs' Hc H IH]; simpl; [reflexivity|].
  pose proof (number_bound ls cs' H) as Hb.
  assert (Hm : ((c + l * number ls cs') mod l = c)%Z).
  { symmetry. apply (Z.mod_unique_pos _ _ (number ls cs')); lia. }
  assert (Hd : ((c + l * number ls cs') / l = number ls cs')%Z).
  { symmetry. apply (Z.div_unique_pos _ _ _ c); lia. }
  now rewrite Hm, Hd, IH.
Qed.

(** The odometer lists every combination, each once. *)
Lemma odometer_complete (lens : list Z) :
  positive_lengths lens ->
  NoDup (odometer lens)
  /\ forall cs, In cs (odometer lens) <-> combination lens cs.
Proof.
  intros Hpos. pose proof (product_pos lens Hpos) as Hp.
  unfold odometer. split.
  - apply NoDup_map_NoDup_ForallPairs; [|apply seq_NoDup].
    intros a b Ha Hb Heq. apply in_seq in Ha, Hb.
    apply (f_equal (number lens)) in Heq.
    rewrite !number_digits in Heq by (auto; lia). lia.
  - intros cs. rewrite in_map_iff. split.
    + intros (k & <- & _). now apply digits_combination.
    + intros Hc. pose proof (number_bound lens cs Hc) as Hb.
      exists (Z.to_nat (number lens cs)). split.
      * rewrite Z2Nat.id by lia. now apply digits_number.
      * apply in_seq. lia.
Qed.

Lemma odometer_length (lens : list Z) :
  positive_lengths lens ->
  Z.of_nat (List.length (odometer lens)) = product lens.
Proof.
  intros Hpos. pose proof (product_pos lens Hpos).
  unfold odometer. rewrite length_map, length_seq. lia.
Qed.

(** One step of the odometer on the digits of [n]. *)
Lemma digits_carry (l : Z) (ls : list Z) (n : Z) :
  (1 <= l)%Z -> positive_lengths ls ->
  (0 <= n < l * product ls)%Z ->
  (l <= n mod l + 1)%Z ->
  ((n + 1) mod (l * product ls) mod l = 0)%Z
  /\ ((n + 1) mod (l * product ls) / l = (n / l + 1) mod product ls)%Z
  /\ (0 <= n / l < product ls)%Z
  /\ ((n + 1 <? l * product ls) = (n / l + 1 <? product ls))%Z.
Proof.
  intros Hl Hls Hn Hc. pose proof (product_pos ls Hls) as Hp.
  pose proof (Z.div_mod n l ltac:(lia)) as Hdm.
  pose proof (Z.mod_pos_bound n l ltac:(lia)) as Hmb.
  assert (Hq : (0 <= n / l < product ls)%Z).
  { split; [apply Z.div_pos; lia|apply Z.div_lt_upper_bound; lia]. }
  assert (Hn1 : (n + 1 = l * (n / l + 1))%Z) by lia.
  rewrite Hn1, Zmult_mod_distr_l.
  repeat split; try lia.
  - rewrite Z.mul_comm. apply Z.mod_mul. lia.
  - rewrite Z.mul_comm. apply Z.div_mul. lia.
  - destruct (Z.ltb_spec (l * (n / l + 1)) (l * product ls));
      destruct (Z.ltb_spec (n / l + 1) (product ls)); try reflexivity; nia.
Qed.

Lemma digits_step (l : Z) (ls : list Z) (n : Z) :
  (1 <= l)%Z -> positive_lengths ls ->
  (0 <= n < l * product ls)%Z ->
  (n mod l + 1 < l)%Z ->
  ((n + 1) mod (l * product ls) mod l = n mod l + 1)%Z
  /\ ((n + 1) mod (l * product ls) / l = n / l)%Z
  /\ ((n + 1 <? l * product ls) = true)%Z.
Proof.
  intros Hl Hls Hn Hc. pose proof (product_pos ls Hls) as Hp.
  pose proof (Z.div_mod n l ltac:(lia)) as Hdm.
  pose proof (Z.mod_pos_bound n l ltac:(lia)) as Hmb.
  assert (Hq : (0 <= n / l < product ls)%Z).
  { split; [apply Z.div_pos; lia|apply Z.div_lt_upper_bound; lia]. }
  assert (Hlt : (n + 1 < l * product ls)%Z) by nia.
  rewrite (Z.mod_small (n + 1)) by lia.
  repeat split.
  - symmetry. apply (Z.mod_unique_pos _ _ (n / l)); lia.
  - symmetry. apply (Z.div_unique_pos _ _ _ (n mod l + 1)); lia.
  - now apply Z.ltb_lt.
Qed.

Lemma cursors_set_notin (names : list string) l c its :
  ~ In l names -> cursors names (StdMap.set l c its) = cursors names its.
Proof.
  intros Hn. unfold cursors. apply map_ext_in. intros a Ha.
  rewrite cursor_set. destruct (String.eqb a l) eqn:Ea; [|reflexivity].
  apply String.eqb_eq in Ea. subst. contradiction.
Qed.

Lemma cursors_cons (l : string) (names : list string) (m : StdMap.t Z) :
  cursors (l :: names) m = cursor l m :: cursors names m.
Proof. reflexivity. Qed.

Lemma cursors_outside (names : list string) (its its' : StdMap.t Z) :
  (forall l, In l names -> cursor l its' = cursor l its) ->
  cursors names its' = cursors names its.
Proof. intros H. unfold cursors. now apply map_ext_in. Qed.

(** [advance] takes the digits of [n] to those of [n + 1], wrapping to
    zero and clearing [hasNextIter] after the last combination; it touches
    the cursors of the listed labels only. *)
Lemma advance_digits (lens : StdMap.t Z) (names : list string) :
  forall its n,
    NoDup names ->
    positive_lengths (cursors names lens) ->
    cursors names its = digits (cursors names lens) n ->
    (0 <= n < product (cursors names lens))%Z ->
    cursors names (fst (advance names lens its))
    = digits (cursors names lens) ((n + 1) mod product (cursors names lens))
    /\ snd (advance names lens its)
       = (n + 1 <? product (cursors names lens))%Z
    /\ (forall l, ~ In l names ->
          cursor l (fst (advance names lens its)) = cursor l its)
    /\ (forall l, In l (StdMap.keys (fst (advance names lens its))) ->
          In l names \/ In l (StdMap.keys its)).
Proof.
  induction names as [|l ns IH]; intros its n Hnd Hpos Hc Hn.
  - simpl in *. repeat split; auto.
    assert (n = 0%Z) by lia. subst. reflexivity.
  - inversion Hnd as [|? ? Hl Hns]; subst.
    rewrite !cursors_cons in Hc, Hn, Hpos. cbn [digits product] in Hc, Hn.
    inversion Hpos as [|? ? HL HLs]; subst.
    injection Hc as Hc0 Hcs.
    cbn [advance]. rewrite Hc0.
    destruct (Z.leb_spec (cursor l lens) (n mod cursor l lens + 1)) as [Hle|Hlt].
    + destruct (digits_carry _ _ n HL HLs Hn Hle) as (D1 & D2 & D3 & D4).
      destruct (IH (StdMap.set l 0%Z its) (n / cursor l lens)%Z Hns HLs)
        as (I1 & I2 & I3 & I4); [now rewrite cursors_set_notin|exact D3|].
      rewrite !cursors_cons. cbn [digits product].
      rewrite D1, D2, D4. repeat split.
      * f_equal; [|exact I1].
        rewrite (I3 l Hl), cursor_set, String.eqb_refl. reflexivity.
      * exact I2.
      * intros l0 Hl0. simpl in Hl0.
        rewrite I3 by tauto. rewrite cursor_set.
        destruct (String.eqb l0 l) eqn:E; [|reflexivity].
        apply String.eqb_eq in E. subst. elim Hl0. now left.
      * intros l0 Hl0. apply I4 in Hl0. simpl.
        destruct Hl0 as [|Hk]; [tauto|]. apply keys_set in Hk.
        destruct Hk as [->|]; auto.
    + destruct (digits_step _ _ n HL HLs Hn Hlt) as (D1 & D2 & D3).
      rewrite !cursors_cons. cbn [digits product fst snd].
      rewrite D1, D2, D3. repeat split.
      * f_equal.
        -- now rewrite cursor_set, String.eqb_refl.
        -- now rewrite cursors_set_notin.
      * intros l0 Hl0. simpl in Hl0. rewrite cursor_set.
        destruct (String.eqb l0 l) eqn:E; [|reflexivity].
        apply String.eqb_eq in E. subst. elim Hl0. now left.
      * intros l0 Hl0. apply keys_set in Hl0. simpl.
        destruct Hl0 as [->|]; auto.
Qed.

Lemma collect_some {X Y : Type} (f : X -> option Y) (l : list X) (ys : list Y) :
  collect f l = Some ys -> forall x, In x l -> f x <> None.
Proof.
  revert ys. induction l as [|a l IH]; intros ys H x Hx; [destruct Hx|].
  simpl in H. destruct (f a) eqn:Fa; [|discriminate]. simpl in H.
  destruct (collect f l) eqn:C; [|discriminate].
  destruct Hx as [<-|Hx]; [congruence|]. exact (IH _ eq_refl x Hx).
Qed.

Section SweepFacts.

Context {Vector Results MolProto : Type}.
Variable P : Platform.
Variable A : Args (Vector:=Vector) (Results:=Results) (MolProto:=MolProto).

Local Abbreviation JobInfo := (Info Vector Results MolProto).

Lemma preamble_constants (T : Tables) beginning nodes :
  preamble P A beginning T = Some nodes -> constants_present P T.
Proof.
  unfold preamble. intros H k Hk.
  destruct (collect _ constants) as [vars|] eqn:C; [|discriminate].
  pose proof (collect_some _ _ _ C k Hk) as Hn. simpl in Hn.
  destruct (at0 P T k) as [v|]; [eauto|]. now elim Hn.
Qed.

Lemma assign_labels_some (T : Tables) (its : list (string * Z)) :
  forall params,
    (forall l, In l (StdMap.keys its) -> StdMap.find l (labelMap T) <> None) ->
    exists ps, assign_labels T its params = Some ps.
Proof.
  induction its as [|[l i] its IH]; intros params H; simpl; [eauto|].
  destruct (StdMap.find l (labelMap T)) eqn:F.
  - apply IH. intros l0 Hl0. apply H. simpl. auto.
  - elim (H l); simpl; auto.
Qed.

Lemma materialize_some (T : Tables) (its : StdMap.t Z) (pre : JobInfo) :
  constants_present P T ->
  (forall l, In l (StdMap.keys its) -> StdMap.find l (labelMap T) <> None) ->
  exists info, materialize P A T its pre = Some info.
Proof.
  intros Hc Hk. unfold materialize.
  repeat match goal with
  | |- context [bind (at0 P T ?k) _] =>
      let H := fresh in
      destruct (Hc k ltac:(simpl; tauto)) as [? H]; rewrite H; cbn [bind]
  end.
  destruct (assign_labels_some T its (parameters pre) Hk) as [ps ->].
  cbn [bind]. eauto.
Qed.

Lemma advance_ordered (lens : StdMap.t Z) (names : list string) :
  forall its, ordered its -> ordered (fst (advance names lens its)).
Proof.
  induction names as [|l ns IH]; intros its Ho; [exact Ho|].
  cbn [advance]. destruct (_ <=? _)%Z.
  - apply IH. now apply ordered_set.
  - now apply ordered_set.
Qed.

Lemma fold_assign_miss (T : Tables) (i : Z) (name : string)
    (names : list string) :
  forall params,
    ~ In name names ->
    StdMap.find name (fold_left (assign_field T i) names params)
    = StdMap.find name params.
Proof.
  induction names as [|n ns IH]; intros params Hn; [reflexivity|].
  cbn [fold_left]. rewrite IH by (simpl in Hn; tauto).
  unfold assign_field. destruct (is_field n); [|reflexivity].
  destruct (StdMap.find n (p T)) as [v|]; [|reflexivity].
  destruct (vec_at v i); [|reflexivity].
  apply find_set_other. intros ->. apply Hn. now left.
Qed.

Lemma fold_assign_hit (T : Tables) (i : Z) (name : string) (v : list double)
    (x : double) (names : list string) :
  is_field name = true ->
  StdMap.find name (p T) = Some v ->
  vec_at v i = Some x ->
  forall params,
    In name names \/ StdMap.find name params = Some x ->
    StdMap.find name (fold_left (assign_field T i) names params) = Some x.
Proof.
  intros Hf Hp Hx.
  induction names as [|n ns IH]; intros params H.
  - destruct H as [[]|H]. exact H.
  - cbn [fold_left]. apply IH.
    destruct (String.eqb n name) eqn:En.
    + apply String.eqb_eq in En. subst n. right.
      unfold assign_field. rewrite Hf, Hp, Hx. apply find_set_same.
    + assert (n <> name)
        by (intros ->; rewrite String.eqb_refl in En; discriminate).
      destruct H as [[->|H]|H]; [congruence|now left|right].
      unfold assign_field. destruct (is_field n); [|exact H].
      destruct (StdMap.find n (p T)) as [v'|]; [|exact H].
      destruct (vec_at v' i); [|exact H].
      rewrite find_set_other; [exact H|congruence].
Qed.

Lemma assign_labels_value (T : Tables) (lbl name : string) (i0 : Z)
    (names : StdSet.t) (v : list double) (x : double) :
  StdMap.find lbl (labelMap T) = Some names ->
  In name names ->
  (forall l ns,
      StdMap.find l (labelMap T) = Some ns -> In name ns -> l = lbl) ->
  is_field name = true ->
  StdMap.find name (p T) = Some v ->
  vec_at v i0 = Some x ->
  forall its params ps,
    (forall i, In (lbl, i) its -> i = i0) ->
    In lbl (StdMap.keys its) \/ StdMap.find name params = Some x ->
    assign_labels T its params = Some ps ->
    StdMap.find name ps = Some x.
Proof.
  intros Hl Hin Hu Hf Hp Hx.
  induction its as [|[l i] its IH]; intros params ps Hi0 H Ha.
  - simpl in *. destruct H as [[]|H]. congruence.
  - cbn [assign_labels] in Ha.
    destruct (StdMap.find l (labelMap T)) as [ns|] eqn:Fl; [|discriminate].
    apply (IH _ _ (fun i' Hi' => Hi0 i' (or_intror Hi'))) in Ha; [exact Ha|].
    destruct (String.eqb l lbl) eqn:El.
    + apply String.eqb_eq in El. subst l. right.
      rewrite Hl in Fl. injection Fl as <-.
      rewrite (Hi0 i (or_introl eq_refl)).
      apply (fold_assign_hit T i0 name v x names Hf Hp Hx). now left.
    + assert (l <> lbl)
        by (intros ->; rewrite String.eqb_refl in El; discriminate).
      unfold StdMap.keys in H. cbn [map fst In] in H.
      destruct H as [[->|H]|H]; [congruence|now left|right].
      rewrite fold_assign_miss; [exact H|].
      intros Hn. apply (Hu _ _ Fl) in Hn. contradiction.
Qed.

Lemma materialize_values (T : Tables) (its : StdMap.t Z) (pre info : JobInfo) :
  ordered its ->
  (forall l, In l (labelNames T) -> StdMap.find l its <> None) ->
  materialize P A T its pre = Some info ->
  swept_values T its info.
Proof.
  intros Ho Hkn Hm lbl names name v x Hl Hin Hu Hf Hp Hx Hk.
  apply Hkn in Hk.
  unfold materialize in Hm.
  repeat match type of Hm with
  | bind (at0 P T ?k) _ = _ =>
      destruct (at0 P T k); [cbn [bind] in Hm|discriminate]
  end.
  destruct (assign_labels T its (parameters pre)) as [ps|] eqn:Ha;
    [|discriminate].
  cbn [bind] in Hm. injection Hm as <-. cbn [parameters].
  apply (assign_labels_value T lbl name (cursor lbl its) names v x
           Hl Hin Hu Hf Hp Hx its (parameters pre) ps); auto.
  - intros i Hi. apply (ordered_find _ _ _ Ho) in Hi.
    unfold cursor. now rewrite Hi.
  - left. now apply find_in_keys.
Qed.

Lemma sweep_inv fuel (T : Tables) its (pre : JobInfo) trace :
  sweep P A fuel T its pre = Ret trace ->
  exists fuel' info its' more,
    fuel = S fuel'
    /\ nextIter P A T its pre = Some (info, its', more)
    /\ if more
       then exists rest,
              sweep P A fuel' T its' info = Ret rest
              /\ trace = (its, info) :: rest
       else trace = [(its, info)].
Proof.
  destruct fuel as [|fuel]; [discriminate|]. cbn [sweep].
  destruct (nextIter P A T its pre) as [[[info its'] more]|]; [|discriminate].
  intros H. exists fuel, info, its', more. repeat split.
  destruct more.
  - destruct (sweep P A fuel T its' info) as [rest| |]; try discriminate.
    injection H as <-. eauto.
  - now injection H as <-.
Qed.

(** Between two calls [hasNextIter] is true and the cursors are those the
    step left; after the last call it is false, and the cursors the step
    wrapped are not read. *)
Lemma sweep_stepwise (fuel : nat) :
  forall (T : Tables) its (pre : JobInfo) trace,
    sweep P A fuel T its pre = Ret trace ->
    stepwise T trace /\ exists info rest, trace = (its, info) :: rest.
Proof.
  induction fuel as [|fuel IH]; intros T its pre trace Hs; [discriminate|].
  apply sweep_inv in Hs.
  destruct Hs as (fuel' & info & its' & more & [= <-] & Hn & Hs).
  assert (Ha : advance (labelNames T) (iterLengths T) its = (its', more)).
  { unfold nextIter in Hn. destruct (materialize P A T its pre); [|discriminate].
    cbn [bind] in Hn. destruct (advance _ _ its). now injection Hn as _ -> ->. }
  destruct more.
  - destruct Hs as (rest & Hr & ->). split; [|eauto].
    destruct (IH _ _ _ _ Hr) as (Hst & info' & rest' & ->).
    cbn [stepwise]. split; [exact Ha|exact Hst].
  - subst trace. split; [|eauto]. cbn [stepwise]. now rewrite Ha.
Qed.

Lemma advance_keeps (lens : StdMap.t Z) (l : string) (names : list string) :
  forall its,
    StdMap.find l its <> None ->
    StdMap.find l (fst (advance names lens its)) <> None.
Proof.
  assert (Hset : forall k c (m : StdMap.t Z),
             StdMap.find l m <> None -> StdMap.find l (StdMap.set k c m) <> None).
  { intros k c m H. rewrite find_set. now destruct (String.eqb l k). }
  induction names as [|n ns IH]; intros its H; [exact H|].
  cbn [advance]. destruct (_ <=? _)%Z.
  - now apply IH, Hset.
  - now apply Hset.
Qed.

(** Every configuration of the sweep carries, for each field bound to a
    label, the value its sequence has at the label's cursor. *)
Lemma sweep_values (fuel : nat) :
  forall (T : Tables) its (pre : JobInfo) trace,
    ordered its ->
    (forall l, In l (labelNames T) -> StdMap.find l its <> None) ->
    sweep P A fuel T its pre = Ret trace ->
    Forall (fun x => swept_values T (fst x) (snd x)) trace.
Proof.
  induction fuel as [|fuel IH]; intros T its pre trace Ho Hk Hs; [discriminate|].
  apply sweep_inv in Hs.
  destruct Hs as (fuel' & info & its' & more & [= <-] & Hn & Hs).
  unfold nextIter in Hn.
  destruct (materialize P A T its pre) as [info'|] eqn:Hm; [|discriminate].
  cbn [bind] in Hn.
  pose proof (advance_ordered (iterLengths T) (labelNames T) its Ho) as Ho'.
  pose proof (fun l Hl => advance_keeps (iterLengths T) l (labelNames T) its
                            (Hk l Hl)) as Hk'.
  destruct (advance _ _ its) as [its1 more1]. injection Hn as -> -> ->.
  apply materialize_values in Hm; auto.
  destruct more.
  - destruct Hs as (rest & Hr & ->). constructor; [exact Hm|].
    exact (IH _ _ _ _ Ho' Hk' Hr).
  - subst trace. constructor; [exact Hm|constructor].
Qed.

Variable T : Tables.

Let names := labelNames T.
Let lens := cursors (labelNames T) (iterLengths T).

Hypothesis Hconst : constants_present P T.
Hypothesis Hnodup : NoDup names.
Hypothesis Hpos : positive_lengths lens.
Hypothesis Hmembers :
  forall l, In l names -> StdMap.find l (labelMap T) <> None.

(** From the digits of [n], the sweep returns the remaining [m]
    configurations, in odometer order. *)
Lemma sweep_from (m : nat) :
  forall n its pre,
    (Z.of_nat m = product lens - n)%Z ->
    1 <= m -> (0 <= n)%Z ->
    cursors names its = digits lens n ->
    (forall l, In l (StdMap.keys its) -> In l names) ->
    exists trace,
      (forall fuel, m <= fuel -> sweep P A fuel T its pre = Ret trace)
      /\ map (fun x => cursors names (fst x)) trace
         = map (fun k => digits lens (n + Z.of_nat k)%Z) (seq 0 m)
      /\ materialized P A T pre trace.
Proof.
  induction m as [|m IH]; intros n its pre Hm H1 Hn Hc Hk; [lia|].
  destruct (materialize_some T its pre Hconst) as [info Hi];
    [intros l Hl; auto|].
  destruct (advance_digits (iterLengths T) names its n Hnodup Hpos Hc)
    as (D1 & D2 & _ & D4); [unfold lens, names in *; lia|].
  change (cursors names (iterLengths T)) with lens in D1, D2.
  destruct (advance names (iterLengths T) its) as [its' more] eqn:Ad.
  simpl in D1, D2, D4.
  destruct m as [|m].
  - exists [(its, info)]. repeat split.
    + intros fuel Hf. destruct fuel as [|fuel]; [lia|].
      cbn [sweep]. unfold nextIter. rewrite Hi. cbn [bind]. fold names.
      rewrite Ad. replace more with false; [reflexivity|].
      rewrite D2. symmetry. apply Z.ltb_ge. lia.
    + simpl. now rewrite Hc, Z.add_0_r.
    + simpl. auto.
  - assert (Hlt : (n + 1 < product lens)%Z) by lia.
    rewrite Z.mod_small in D1 by lia.
    destruct (IH (n + 1)%Z its' info) as (trace & Ht & Hmap & Hmat);
      try lia; auto.
    { intros l Hl. destruct (D4 l Hl); auto. }
    exists ((its, info) :: trace). repeat split.
    + intros fuel Hf. destruct fuel as [|fuel]; [lia|].
      cbn [sweep]. unfold nextIter. rewrite Hi. cbn [bind]. fold names.
      rewrite Ad. replace more with true.
      * now rewrite (Ht fuel) by lia.
      * rewrite D2. symmetry. now apply Z.ltb_lt.
    + cbn [map fst]. rewrite Hmap, Hc.
      change (seq 0 (S (S m))) with (0 :: seq 1 (S m)).
      rewrite <- (seq_shift (S m) 0). cbn [map]. rewrite map_map, Z.add_0_r.
      f_equal. apply map_ext. intros k. f_equal. lia.
    + exact Hi.
    + exact Hmat.
Qed.

End SweepFacts.

Lemma parsed_lengths_positive (P : Platform) fuel name fin T :
  parse_loop P fuel no_tables name fin = Ret T ->
  positive_lengths (cursors (labelNames T) (iterLengths T)).
Proof.
  intros Hparse.
  destruct (parse_loop_ok P fuel _ _ _ _ no_tables_ok Hparse)
    as [_ _ _ Hl Hk _ _ _ _].
  unfold cursors. apply Forall_map, Forall_forall. intros l Hin.
  apply Hk in Hin. unfold cursor.
  destruct (StdMap.find l (iterLengths T)) eqn:F; [|congruence].
  exact (Hl _ _ F).
Qed.

(** After a successful parse the sweep starts from the digits of zero and
    returns its configurations in odometer order. *)
Lemma sweep_runs (Vector Results MolProto : Type) (P : Platform)
    (A : Args (Vector:=Vector) (Results:=Results) (MolProto:=MolProto))
    (fuel : nat) (name : string) (fin : istream) (T : Tables)
    (beginning : Z) (nodes : list XmlNode) :
  parse_loop P fuel no_tables name fin = Ret T ->
  preamble P A beginning T = Some nodes ->
  exists trace,
    (forall fuel',
        Z.to_nat (product (cursors (labelNames T) (iterLengths T))) <= fuel' ->
        sweep P A fuel' T (iters T) (blank A) = Ret trace)
    /\ map (fun x => cursors (labelNames T) (fst x)) trace
       = odometer (cursors (labelNames T) (iterLengths T))
    /\ materialized P A T (blank A) trace.
Proof.
  intros Hparse Hpre.
  pose proof (parsed_lengths_positive P fuel name fin T Hparse) as Hpos.
  destruct (parse_loop_ok P fuel _ _ _ _ no_tables_ok Hparse)
    as [_ Hnd Hm _ _ Hc Hi Hkn Hord].
  pose proof (product_pos _ Hpos) as Hp.
  destruct (sweep_from P A T (preamble_constants P A T _ _ Hpre) Hnd Hpos
              (fun l Hin => proj1 (Hm l) Hin)
              (Z.to_nat (product (cursors (labelNames T) (iterLengths T))))
              0%Z (iters T) (blank A))
    as (trace & Ht & Hmap & Hmat); try lia; auto.
  { transitivity (map (fun _ : string => 0%Z) (labelNames T)).
    - unfold cursors. apply map_ext_in. intros l Hin. unfold cursor.
      destruct (StdMap.find l (iters T)) eqn:F; [exact (Hc _ _ F)|reflexivity].
    - clear - Hpos. unfold cursors in *.
      induction (labelNames T) as [|l ls IH]; simpl; [reflexivity|].
      inversion Hpos; subst. rewrite Z.mod_0_l, Z.div_0_l by lia.
      f_equal. auto. }
  exists trace. repeat split; auto.
Qed.

(** C1.  After a successful parse (and with the document skeleton built,
    so that every constant key is present), calling [nextIter] while
    [hasNextIter] holds returns exactly [product] of the label lengths
    many configurations.  The cursor values the calls find are the
    mixed-radix digits of [0, 1, ...], the first label of [labelNames]
    varying fastest; they are pairwise distinct and are exactly the
    combinations of cursor values; each configuration is built from the
    cursors found before the step, and a field bound to one label holds
    the value of its sequence at that label's cursor; and the run ends
    before the wrapped cursors are read. *)
Theorem sweep_odometer (Vector Results MolProto : Type) (P : Platform)
    (A : Args (Vector:=Vector) (Results:=Results) (MolProto:=MolProto))
    (fuel : nat) (name : string) (fin : istream) (T : Tables)
    (beginning : Z) (nodes : list XmlNode) :
  parse_loop P fuel no_tables name fin = Ret T ->
  preamble P A beginning T = Some nodes ->
  let lens := cursors (labelNames T) (iterLengths T) in
  exists trace,
    (forall fuel',
        Z.to_nat (product lens) <= fuel' ->
        sweep P A fuel' T (iters T) (blank A) = Ret trace)
    /\ map (fun x => cursors (labelNames T) (fst x)) trace = odometer lens
    /\ Z.of_nat (List.length trace) = product lens
    /\ NoDup (map (fun x => cursors (labelNames T) (fst x)) trace)
    /\ (forall cs,
           In cs (map (fun x => cursors (labelNames T) (fst x)) trace)
           <-> combination lens cs)
    /\ materialized P A T (blank A) trace
    /\ stepwise T trace
    /\ Forall (fun x => swept_values T (fst x) (snd x)) trace.
Proof.
  intros Hparse Hpre lens.
  destruct (parse_loop_ok P fuel _ _ _ _ no_tables_ok Hparse)
    as [_ _ _ _ _ _ _ Hkn Hord].
  pose proof (parsed_lengths_positive P fuel name fin T Hparse) as Hpos.
  fold lens in Hpos.
  destruct (sweep_runs _ _ _ P A fuel name fin T beginning nodes Hparse Hpre)
    as (trace & Ht & Hod & Hmat).
  fold lens in Ht, Hod.
  exists trace. rewrite Hod.
  destruct (odometer_complete lens Hpos) as [Hn Hin].
  pose proof (product_pos lens Hpos) as Hp.
  repeat split; auto.
  - rewrite <- (odometer_length lens Hpos), <- Hod. now rewrite length_map.
  - apply Hin.
  - apply Hin.
  - exact (proj1 (sweep_stepwise P A _ T _ _ _ (Ht _ (Nat.le_refl _)))).
  - exact (sweep_values P A _ T _ _ _ Hord Hkn (Ht _ (Nat.le_refl _))).
Qed.

(** ** One worker *)

Section InlineFacts.

Context {Vector Results MolProto : Type}.
Variable P : Platform.
Variable E : Engine Vector Results MolProto.
Variable A : Args (Vector:=Vector) (Results:=Results) (MolProto:=MolProto).
Variable delay : nat -> nat.
Variable clock : nat -> Z.

Local Abbreviation JobInfo := (Info Vector Results MolProto).
Local Abbreviation run := (run_loop P E A delay clock).


(** With one worker the loop runs each configuration where it gets it and
    records its result before it asks for the next one. *)
Lemma run_loop_inline (T : Tables) (step : double) (trace : list (StdMap.t Z * JobInfo)) :
  forall fuel0 fuel st,
    threadCount A <= 1 ->
    hasNextIter st = true ->
    sweep P A fuel0 T (st_iters st) (st_preInfo st) = Ret trace ->
    List.length trace < fuel ->
    let jobs := map snd trace in
    let st' := snd (run fuel T step st) in
    fst (run fuel T step st) = inline_status E jobs
    /\ root (journal st')
       = root (journal st)
         ++ stamped clock (List.length (root (journal st))) (completed E jobs)
    /\ collected st'
       = collected st ++ firstn (List.length (completed E jobs)) jobs.
Proof.
  induction trace as [|[its0 info0] rest IH]; intros fuel0 fuel st HN Hh Hs Hf.
  { apply sweep_inv in Hs. destruct Hs as (? & ? & ? & [] & _ & _ & Hs).
    - now destruct Hs as (? & _ & ?).
    - discriminate. }
  apply sweep_inv in Hs.
  destruct Hs as (fuel0' & info & its' & more & -> & Hn & Hs).
  assert (info0 = info /\ its0 = st_iters st /\
          (if more then sweep P A fuel0' T its' info = Ret rest else rest = []))
    as (-> & -> & Hrest).
  { destruct more.
    - destruct Hs as (r & Hr & [= -> -> ->]). auto.
    - injection Hs as -> -> ->. auto. }
  destruct fuel as [|fuel]; [simpl in Hf; lia|].
  assert (HN' : (1 <? threadCount A)%nat = false) by (apply Nat.ltb_ge; lia).
  cbn zeta. cbn [run_loop map snd completed].
  rewrite Hh, Hn, HN'. unfold inline_status. cbn [completed].
  destruct (algorithm E info) as [w [post|]] eqn:Ha; cbn [snd fst].
  - set (st1 := record clock step _ info post).
    destruct more.
    + destruct (IH fuel0' fuel st1 HN eq_refl Hrest) as (I1 & I2 & I3);
        [simpl in Hf; lia|].
       rewrite I1, I2, I3. unfold inline_status.
      subst st1. cbn [record journal recordData root collected log].
      rewrite length_app. cbn [List.length stamped firstn].
      rewrite Nat.add_1_r, <- !app_assoc. repeat split.
    + subst rest. destruct fuel as [|fuel]; [simpl in Hf; lia|].
      cbn [run_loop]. subst st1.
      cbn [record hasNextIter log journal recordData root collected
           map completed stamped List.length firstn fst snd].
      rewrite HN'. cbn [fst snd journal root collected]. repeat split.
  - cbn [List.length Nat.eqb fst snd log journal collected stamped firstn].
    now rewrite !app_nil_r.
Qed.

End InlineFacts.

(** [sweep_odometer] on the file [Box.sample]: six configurations. *)
Lemma sweep_odometer_witness :
  exists trace,
    sweep Plain.platform (Box.args 1) 6 Box.tables (iters Box.tables) Box.blank
    = Ret trace
    /\ Z.of_nat (List.length trace) = 6%Z.
Proof.
  assert (Hp : parse_loop Plain.platform 100 no_tables "in"
                 (mkStream Box.sample true) = Ret Box.tables)
    by (vm_compute; reflexivity).
  assert (Hn : exists nodes,
             preamble Plain.platform (Box.args 1) 0 Box.tables = Some nodes)
    by (vm_compute; eexists; reflexivity).
  destruct Hn as [nodes Hn].
  destruct (sweep_odometer _ _ _ _ _ _ _ _ _ _ _ Hp Hn)
    as (trace & Hs & _ & Hl & _).
  exists trace. split; [apply Hs; vm_compute; lia|exact Hl].
Defined.

(** [label_length_mismatch] on the file [Box.uneven]. *)
Lemma label_length_mismatch_witness :
  exists l1 k lbl' u1 l2 key u2 l3,
    items Plain.platform 100 "in" (mkStream Box.uneven true)
    = l1 ++ IParam k lbl' u1 :: l2 ++ IParam key lbl' u2 :: l3
    /\ List.length u1 <> List.length u2
    /\ main Plain.platform Box.engine (Box.args 1) (fun _ => 0)
         (fun _ => 0%Z) 100 "in" (mkStream Box.uneven true) 0
       = (Returned 23,
          [LabelSizeMsg lbl' key (Z.of_nat (List.length u2))
             (Z.of_nat (List.length u1));
           CorruptedMsg 23],
          None)
    /\ jobs_run (main Plain.platform Box.engine (Box.args 1) (fun _ => 0)
                   (fun _ => 0%Z) 100 "in" (mkStream Box.uneven true) 0)
       = [].
Proof.
  apply (label_length_mismatch _ _ _ Plain.platform Box.engine (Box.args 1)
           (fun _ => 0) (fun _ => 0%Z) 100 "in" (mkStream Box.uneven true) 0
           "B_x" "B_y" "L" [0; 1]%float [5; 6; 7]%float).
  - vm_compute. tauto.
  - vm_compute. tauto.
  - simpl. lia.
Defined.

(** C2.  With one worker, each configuration the sweep returns is run
    where it is returned and its result recorded before the next call of
    [nextIter]; so the [<data>] elements of the report are the results of
    the configurations in the order of the sweep (up to the first job, if
    any, that ends the process). *)
Theorem single_worker_order (Vector Results MolProto : Type) (P : Platform)
    (E : Engine Vector Results MolProto)
    (A : Args (Vector:=Vector) (Results:=Results) (MolProto:=MolProto))
    (delay : nat -> nat) (clock : nat -> Z)
    (fuel : nat) (name : string) (fin : istream) (T : Tables)
    (beginning : Z) (nodes : list XmlNode) :
  parse_loop P fuel no_tables name fin = Ret T ->
  preamble P A beginning T = Some nodes ->
  threadCount A = 1 ->
  let count := Z.to_nat (product (cursors (labelNames T) (iterLengths T))) in
  exists trace,
    (forall fuel', count <= fuel' ->
        sweep P A fuel' T (iters T) (blank A) = Ret trace)
    /\ (forall fuel' step,
           count < fuel' ->
           let r := run_loop P E A delay clock fuel' T step
                      (start A T beginning nodes) in
           fst r = inline_status E (map snd trace)
           /\ root (journal (snd r))
              = nodes ++ stamped clock (List.length nodes)
                           (completed E (map snd trace))
           /\ collected (snd r)
              = firstn (List.length (completed E (map snd trace)))
                  (map snd trace))
    /\ (forall fuel' step st info its more w post,
           hasNextIter st = true ->
           nextIter P A T (st_iters st) (st_preInfo st)
           = Some (info, its, more) ->
           algorithm E info = (w, Some post) ->
           exists st1,
             run_loop P E A delay clock (S fuel') T step st
             = run_loop P E A delay clock fuel' T step st1
             /\ root (journal st1)
                = root (journal st)
                  ++ [record_of (clock (List.length (root (journal st)))) post]
             /\ st_iters st1 = its /\ hasNextIter st1 = more).
Proof.
  intros Hparse Hpre HN count.
  destruct (sweep_runs _ _ _ P A fuel name fin T beginning nodes Hparse Hpre)
    as (trace & Hs & Hod & _).
  assert (Hlen : Z.of_nat (List.length trace)
                 = product (cursors (labelNames T) (iterLengths T))).
  { rewrite <- (odometer_length _ (parsed_lengths_positive P _ _ _ _ Hparse)).
    now rewrite <- Hod, length_map. }
  exists trace. split; [exact Hs|split].
  - intros fuel' step Hf r.
    assert (H1 : threadCount A <= 1) by lia.
    assert (H2 : sweep P A count T (st_iters (start A T beginning nodes))
                   (st_preInfo (start A T beginning nodes)) = Ret trace)
      by (apply Hs; lia).
    assert (H3 : List.length trace < fuel') by (unfold count in *; lia).
    exact (run_loop_inline P E A delay clock T step trace count fuel'
             (start A T beginning nodes) H1 eq_refl H2 H3).
  - intros fuel' step st info its more w post Hh Hn Ha.
    assert (HN' : (1 <? threadCount A)%nat = false) by (apply Nat.ltb_ge; lia).
    cbn [run_loop]. rewrite Hh, Hn, HN', Ha.
    eexists. split; [reflexivity|]. repeat split.
Qed.

(** [single_worker_order] on the file [Box.sample]: the six records follow
    the skeleton in the order of the sweep. *)
Lemma single_worker_order_witness :
  exists trace nodes,
    sweep Plain.platform (Box.args 1) 6 Box.tables (iters Box.tables) Box.blank
    = Ret trace
    /\ root (journal (snd (run_loop Plain.platform Box.engine (Box.args 1)
                             (fun _ => 0) Z.of_nat 7 Box.tables 0%float
                             (start (Box.args 1) Box.tables 0 nodes))))
       = nodes ++ stamped Z.of_nat (List.length nodes)
                    (completed Box.engine (map snd trace)).
Proof.
  assert (Hp : parse_loop Plain.platform 100 no_tables "in"
                 (mkStream Box.sample true) = Ret Box.tables)
    by (vm_compute; reflexivity).
  assert (Hn : exists nodes,
             preamble Plain.platform (Box.args 1) 0 Box.tables = Some nodes)
    by (vm_compute; eexists; reflexivity).
  destruct Hn as [nodes Hn].
  destruct (single_worker_order _ _ _ Plain.platform Box.engine (Box.args 1)
              (fun _ => 0) Z.of_nat _ _ _ _ _ _ Hp Hn eq_refl)
    as (trace & Hs & Hr & _).
  exists trace, nodes. split; [apply Hs; vm_compute; lia|].
  apply (Hr 7 0%float). vm_compute. lia.
Defined.

(** ** The report *)

Lemma file_after_app {Vector Results MolProto : Type}
    (a b : list (FileOp (Vector:=Vector) (Results:=Results) (MolProto:=MolProto)))
    content :
  file_after (a ++ b) content = file_after b (file_after a content).
Proof.
  revert content. induction a as [|op a IH]; intros content; [reflexivity|].
  destruct op; simpl; apply IH.
Qed.

(** C8.  [recordData] adds exactly one [<data>] element, after the last
    child of the root; the skeleton and the elements recorded before keep
    their places; and it then reopens the output file truncated and writes
    the whole document, so that the file holds the full report whatever it
    held before. *)
Theorem record_appends_and_rewrites (Vector Results MolProto : Type)
    (step : double) (now : Z)
    (J : Journal (Vector:=Vector) (Results:=Results) (MolProto:=MolProto))
    (info : Info Vector Results MolProto) :
  let J' := recordData step now J info in
  root J' = root J ++ [record_of now info]
  /\ List.length (root J') = S (List.length (root J))
  /\ (forall k, k < List.length (root J) ->
        nth_error (root J') k = nth_error (root J) k)
  /\ nth_error (root J') (List.length (root J)) = Some (record_of now info)
  /\ fout J' = fout J ++ [FClose; FOpenTrunc; FWrite (root J')]
  /\ (forall content, file_after (fout J') content = [root J'])
  /\ (forall clock
             (st : State (Vector:=Vector) (Results:=Results) (MolProto:=MolProto))
             j post,
        journal (record clock step st j post)
        = recordData step (clock (List.length (root (journal st))))
            (journal st) post).
Proof.
  cbn zeta. unfold recordData. cbn [root fout]. repeat split.
  - rewrite length_app. simpl. lia.
  - intros k Hk. now rewrite nth_error_app1.
  - rewrite nth_error_app2, Nat.sub_diag by lia. reflexivity.
  - intros content. rewrite file_after_app. reflexivity.
Qed.

(** ** Custom spins off the lattice *)

Section SpinFacts.

Context {Vector Results MolProto : Type}.
Variable E : Engine Vector Results MolProto.

Local Abbreviation JobInfo := (Info Vector Results MolProto).

Lemma custom_spins_app (a b : list Spin) :
  forall msd,
    custom_spins E msd (a ++ b)
    = (fst (custom_spins E (fst (custom_spins E msd a)) b),
       snd (custom_spins E msd a)
       ++ snd (custom_spins E (fst (custom_spins E msd a)) b)).
Proof.
  induction a as [|s a IH]; intros msd; cbn [app custom_spins fst snd].
  - now destruct (custom_spins E msd b).
  - destruct (match getSpin E msd (spin_x s) (spin_y s) (spin_z s) with
              | Some vec => _
              | None => None
              end) as [msd'|].
    + apply IH.
    + rewrite IH. now destruct (custom_spins E msd a).
Qed.

Lemma custom_spins_skip (s : Spin) (l : list Spin) (msd : MSD E) :
  getSpin E msd (spin_x s) (spin_y s) (spin_z s) = None ->
  custom_spins E msd (s :: l)
  = (fst (custom_spins E msd l), SpinWarningMsg s :: snd (custom_spins E msd l)).
Proof.
  intros H. cbn [custom_spins]. rewrite H. now destruct (custom_spins E msd l).
Qed.

Lemma configure_with_spins (info : JobInfo) (l : list Spin) :
  configure E (with_spins info l) = configure E info.
Proof. reflexivity. Qed.

End SpinFacts.

(** C9.  When a job has a custom spin [s] at a coordinate where its
    lattice has no site ([getSpin] throws there, whatever spins were set
    before), the job writes one warning that carries [s], in the place of
    [s] among the warnings, skips that spin only, and ends with the
    results, the snapshot and hence the [<data>] element of the same job
    without [s]. *)
Theorem missing_site_skipped (Vector Results MolProto : Type)
    (E : Engine Vector Results MolProto) (info : Info Vector Results MolProto)
    (pre post : list Spin) (s : Spin) (msd0 : MSD E) :
  info_spins info = pre ++ s :: post ->
  configure E info = Some msd0 ->
  (forall l,
      getSpin E (fst (custom_spins E msd0 l)) (spin_x s) (spin_y s) (spin_z s)
      = None) ->
  exists w1 w2 r,
    algorithm E (with_spins info (pre ++ post)) = (w1 ++ w2, Some r)
    /\ algorithm E info
       = (w1 ++ SpinWarningMsg s :: w2, Some (with_spins r (info_spins info)))
    /\ forall now,
         record_of now (with_spins r (info_spins info)) = record_of now r.
Proof.
  intros Hsp Hc Hno.
  exists (snd (custom_spins E msd0 pre)),
         (snd (custom_spins E (fst (custom_spins E msd0 pre)) post)).
  destruct info; cbn [info_spins] in Hsp; subst.
  unfold algorithm. rewrite configure_with_spins, Hc.
  cbn [with_spins info_spins].
  rewrite !custom_spins_app, (custom_spins_skip E s post _ (Hno pre)).
  cbn [fst snd]. eexists. split; [reflexivity|]. split; reflexivity.
Qed.

(** In the box, a custom spin never changes which coordinates have a
    site. *)
Lemma box_sites_fixed (l : list Spin) :
  forall m x y z,
    Box.has_site (fst (custom_spins Box.engine m l)) x y z
    = Box.has_site m x y z.
Proof.
  induction l as [|s l IH]; intros m x y z; [reflexivity|].
  cbn [custom_spins]. cbn [getSpin setSpin sphericalForm Box.engine].
  unfold Box.getSpin, Box.setSpin.
  destruct (Box.has_site m (spin_x s) (spin_y s) (spin_z s)).
  - destruct (List.find _ _) as [[[[? ?] ?] ?]|]; now rewrite IH.
  - specialize (IH m x y z).
    destruct (custom_spins Box.engine m l). exact IH.
Qed.

(** [missing_site_skipped] on the job [Box.holed], whose second custom
    spin is at [0 0 0], in the empty plane. *)
Lemma missing_site_skipped_witness :
  exists w1 w2 r,
    algorithm Box.engine
      (with_spins Box.holed [mkSpin 1 0 0 3%float; mkSpin 1 1 1 2%float])
    = (w1 ++ w2, Some r)
    /\ algorithm Box.engine Box.holed
       = (w1 ++ SpinWarningMsg (mkSpin 0 0 0 2.5%float) :: w2,
          Some (with_spins r (info_spins Box.holed)))
    /\ forall now,
         record_of now (with_spins r (info_spins Box.holed)) = record_of now r.
Proof.
  apply (missing_site_skipped _ _ _ Box.engine Box.holed
           [mkSpin 1 0 0 3%float] [mkSpin 1 1 1 2%float]
           (mkSpin 0 0 0 2.5%float)
           (Box.mkMsd (2, 2, 2)%N 0 1%float [])).
  - reflexivity.
  - reflexivity.
  - intros l. cbn [getSpin Box.engine]. unfold Box.getSpin.
    rewrite box_sites_fixed. reflexivity.
Defined.

(** ** The pool *)

Section PoolFacts.

Context {Vector Results MolProto : Type}.

Local Abbreviation JobInfo := (Info Vector Results MolProto).
Local Abbreviation Pool :=
  (list (option (Future (Vector:=Vector) (Results:=Results)
                   (MolProto:=MolProto)))).

Lemma put_length {X : Type} (i : nat) (x : X) (l : list X) :
  List.length (put i x l) = List.length l.
Proof.
  revert i. induction l as [|y l IH]; intros [|i]; simpl; auto.
Qed.

Lemma slot_put_same (pool : Pool) i x :
  i < List.length pool -> slot (put i x pool) i = x.
Proof.
  unfold slot. revert i. induction pool as [|y l IH]; intros [|i] H;
    simpl in *; try lia; auto. apply IH. lia.
Qed.

Lemma slot_put_other (pool : Pool) i j x :
  i <> j -> slot (put i x pool) j = slot pool j.
Proof.
  unfold slot. revert i j. induction pool as [|y l IH]; intros [|i] [|j] H;
    simpl in *; try lia; auto.
Qed.

Lemma slot_some_lt (pool : Pool) i f :
  slot pool i = Some f -> i < List.length pool.
Proof.
  unfold slot. revert i. induction pool as [|y l IH]; intros [|i] H;
    simpl in *; try discriminate; try lia.
  apply IH in H. lia.
Qed.

Lemma in_flight_refresh (pool : Pool) i f f' :
  slot pool i = Some f -> job f' = job f ->
  in_flight (put i (Some f') pool) = in_flight pool.
Proof.
  unfold slot. revert i. induction pool as [|y l IH]; intros [|i] H Hj;
    simpl in *; try discriminate.
  - subst y. simpl. now rewrite Hj.
  - destruct y; simpl; rewrite (IH i H Hj); reflexivity.
Qed.

Lemma in_flight_take (pool : Pool) i f :
  slot pool i = Some f ->
  Permutation (in_flight pool) (job f :: in_flight (put i None pool)).
Proof.
  unfold slot. revert i. induction pool as [|y l IH]; intros [|i] H;
    simpl in *; try discriminate.
  - subst y. reflexivity.
  - destruct y; simpl.
    + rewrite (IH i H). apply perm_swap.
    + exact (IH i H).
Qed.

Lemma in_flight_launch (pool : Pool) i f :
  slot pool i = None -> i < List.length pool ->
  Permutation (in_flight (put i (Some f) pool)) (job f :: in_flight pool).
Proof.
  unfold slot. revert i. induction pool as [|y l IH]; intros [|i] H Hi;
    simpl in *; try lia.
  - subst y. reflexivity.
  - destruct y; simpl.
    + rewrite (IH i H) by lia. apply perm_swap.
    + apply IH; [exact H|lia].
Qed.

Lemma in_flight_length (pool : Pool) :
  List.length (in_flight pool) <= List.length pool.
Proof.
  induction pool as [|[f|] l IH]; simpl; lia.
Qed.

Lemma in_flight_none (pool : Pool) :
  (forall j, j < List.length pool -> slot pool j = None) ->
  in_flight pool = [].
Proof.
  unfold slot. induction pool as [|y l IH]; intros H; [reflexivity|].
  pose proof (H 0 ltac:(simpl; lia)) as H0. simpl in H0. subst y. simpl.
  apply IH. intros j Hj. apply (H (S j)). simpl. lia.
Qed.

Lemma in_flight_repeat (n : nat) :
  in_flight (repeat (None : option Future) n) = ([] : list JobInfo).
Proof. induction n; simpl; auto. Qed.

Lemma waiting_refresh (pool : Pool) i f k :
  slot pool i = Some f -> pending f = S k ->
  S (waiting (put i (Some (mkFuture (job f) k)) pool)) = waiting pool.
Proof.
  unfold slot. revert i. induction pool as [|y l IH]; intros [|i] H Hp;
    simpl in *; try discriminate.
  - subst y. simpl. lia.
  - destruct y; simpl; rewrite <- (IH i H Hp); lia.
Qed.

Lemma waiting_take (pool : Pool) i f :
  slot pool i = Some f ->
  S (pending f) + waiting (put i None pool) = waiting pool.
Proof.
  unfold slot. revert i. induction pool as [|y l IH]; intros [|i] H;
    simpl in *; try discriminate.
  - subst y. simpl. lia.
  - destruct y; simpl; rewrite <- (IH i H); lia.
Qed.

Lemma waiting_none (pool : Pool) : in_flight pool = [] -> waiting pool = 0.
Proof.
  induction pool as [|[f|] l IH]; simpl; auto; discriminate.
Qed.

End PoolFacts.

Section PoolRun.

Context {Vector Results MolProto : Type}.
Variable P : Platform.
Variable E : Engine Vector Results MolProto.
Variable A : Args (Vector:=Vector) (Results:=Results) (MolProto:=MolProto).
Variable delay : nat -> nat.
Variable clock : nat -> Z.

Local Abbreviation JobInfo := (Info Vector Results MolProto).
Local Abbreviation N := (threadCount A).

(** The polling loop only counts down the waits: it stops at an empty
    slot, or at a slot whose job is ready, and leaves every job where it
    is. *)
Lemma acquire_sound (fuel : nat) :
  forall pool i pool' i' taken,
    List.length pool = N -> i < N ->
    acquire A fuel pool i = Some (pool', i', taken) ->
    List.length pool' = N /\ i' < N
    /\ in_flight pool' = in_flight pool
    /\ waiting pool' <= waiting pool
    /\ match taken with
       | None => slot pool' i' = None
       | Some j => exists f, slot pool' i' = Some f /\ job f = j /\ pending f = 0
       end.
Proof.
  induction fuel as [|fuel IH]; intros pool i pool' i' taken Hl Hi H;
    [discriminate|].
  cbn [acquire] in H. destruct (slot pool i) as [f|] eqn:Sl.
  - destruct (pending f) as [|k] eqn:Pf.
    + injection H as <- <- <-. repeat split; auto. now exists f.
    + apply IH in H.
      * destruct H as (H1 & H2 & H3 & H4 & H5).
        rewrite (in_flight_refresh pool i f (mkFuture (job f) k) Sl eq_refl) in H3.
        pose proof (waiting_refresh pool i f k Sl Pf).
        repeat split; auto. lia.
      * now rewrite put_length.
      * apply Nat.mod_upper_bound. lia.
  - injection H as <- <- <-. repeat split; auto.
Qed.

Lemma acquire_total (fuel : nat) :
  forall pool i,
    waiting pool < fuel -> exists r, acquire A fuel pool i = Some r.
Proof.
  induction fuel as [|fuel IH]; intros pool i Hw; [lia|].
  cbn [acquire]. destruct (slot pool i) as [f|] eqn:Sl; [|eauto].
  destruct (pending f) as [|k] eqn:Pf; [eauto|].
  apply IH. pose proof (waiting_refresh pool i f k Sl Pf). lia.
Qed.

Lemma put_put {X : Type} (i : nat) (x y : X) (l : list X) :
  put i x (put i y l) = put i x l.
Proof.
  revert i. induction l as [|z l IH]; intros [|i]; simpl; auto.
  now rewrite IH.
Qed.

(** Starting a job in the slot the polling loop stopped at. *)
Lemma in_flight_replace (pool : list (option Future)) i (f : Future)
    (taken : option JobInfo) :
  i < List.length pool ->
  match taken with
  | None => slot pool i = None
  | Some j => exists g, slot pool i = Some g /\ job g = j /\ pending g = 0
  end ->
  Permutation
    (match taken with Some j => [j] | None => [] end
     ++ in_flight (put i (Some f) pool))
    (job f :: in_flight pool).
Proof.
  intros Hi H. destruct taken as [j|].
  - destruct H as (g & Hg & <- & _). simpl.
    rewrite <- (put_put i (Some f) None pool).
    rewrite (in_flight_launch (put i None pool) i f).
    + rewrite (in_flight_take pool i g Hg). apply perm_swap.
    + now apply slot_put_same.
    + now rewrite put_length.
  - simpl. now apply in_flight_launch.
Qed.

Lemma pool_inv_log (st : State) (w : list Msg) :
  pool_inv A st -> pool_inv A (log st w).
Proof. exact (fun H => H). Qed.

(** The clean-up loop keeps the pool in order, at every turn. *)
Lemma drain_inv (fuel : nat) :
  forall step openThreads st,
    pool_inv A st ->
    pool_inv A (snd (drain E A clock fuel step openThreads st)).
Proof.
  induction fuel as [|fuel IH]; intros step openThreads st Hinv; [exact Hinv|].
  cbn [drain]. destruct (openThreads <? N)%nat; [|exact Hinv].
  destruct Hinv as (Hl & Hi & Hp).
  assert (Hm : (nextIndex st + 1) mod N < N) by (apply Nat.mod_upper_bound; lia).
  destruct (slot (threadPool st) (nextIndex st)) as [f|] eqn:Sl.
  - destruct (pending f) as [|k] eqn:Pf.
    + destruct (algorithm E (job f)) as [w [post|]] eqn:Ha.
      * apply IH. repeat split; cbn; auto.
        -- now rewrite put_length.
        -- rewrite Hp, (in_flight_take _ _ _ Sl), <- app_assoc.
           reflexivity.
      * repeat split; auto.
    + apply IH. repeat split; cbn; auto.
      * now rewrite put_length.
      * now rewrite (in_flight_refresh _ _ f (mkFuture (job f) k) Sl eq_refl).
  - apply IH. repeat split; cbn; auto.
Qed.

(** So does the main loop. *)
Lemma run_loop_inv (fuel : nat) :
  forall T step st,
    1 < N ->
    pool_inv A st ->
    pool_inv A (snd (run_loop P E A delay clock fuel T step st)).
Proof.
  induction fuel as [|fuel IH]; intros T step st HN Hinv; [exact Hinv|].
  cbn [run_loop]. destruct (hasNextIter st).
  - destruct (nextIter P A T (st_iters st) (st_preInfo st))
      as [[[preInfo its] more]|]; [|exact Hinv].
    replace (1 <? N)%nat with true by (symmetry; apply Nat.ltb_lt; lia).
    destruct (acquire A fuel (threadPool st) (nextIndex st))
      as [[[pool i] taken]|] eqn:Ac; [|exact Hinv].
    destruct Hinv as (Hl & Hi & Hp).
    destruct (acquire_sound fuel _ _ _ _ _ Hl Hi Ac) as (A1 & A2 & A3 & _ & A5).
    pose proof (in_flight_replace pool i
                  (mkFuture preInfo (delay (List.length (started st)))) taken
                  ltac:(lia) A5) as Hr.
    destruct taken as [j|].
    + destruct (algorithm E j) as [w [post|]] eqn:Ha.
      * apply IH; [exact HN|]. repeat split; cbn; auto.
        -- now rewrite put_length.
        -- rewrite <- app_assoc. simpl in Hr |- *.
           etransitivity; [symmetry; apply Permutation_cons_append|].
           etransitivity; [apply perm_skip; exact Hp|].
           rewrite Hr, A3. apply Permutation_middle.
      * cbn [snd]. repeat split; cbn; auto. now rewrite A3.
    + apply IH; [exact HN|]. repeat split; cbn; auto.
      * now rewrite put_length.
      * simpl in Hr.
        etransitivity; [symmetry; apply Permutation_cons_append|].
        etransitivity; [apply perm_skip; exact Hp|].
        rewrite Hr, A3. apply Permutation_middle.
  - replace (1 <? N)%nat with true by (symmetry; apply Nat.ltb_lt; lia).
    now apply drain_inv.
Qed.

End PoolRun.

Section DrainFacts.

Context {Vector Results MolProto : Type}.
Variable E : Engine Vector Results MolProto.
Variable A : Args (Vector:=Vector) (Results:=Results) (MolProto:=MolProto).
Variable clock : nat -> Z.

Local Abbreviation JobInfo := (Info Vector Results MolProto).
Local Abbreviation Pool :=
  (list (option (Future (Vector:=Vector) (Results:=Results)
                   (MolProto:=MolProto)))).
Local Abbreviation N := (threadCount A).

Lemma next_index (i : nat) :
  i < N -> (i + 1) mod N = if (i + 1 =? N)%nat then 0 else i + 1.
Proof.
  intros Hi. destruct (Nat.eqb_spec (i + 1) N) as [<-|Hne].
  - apply Nat.Div0.mod_same.
  - apply Nat.mod_small. lia.
Qed.

Lemma lap_rest_bound (openThreads i : nat) :
  lap_rest A openThreads i <= 2 * N + 1.
Proof.
  unfold lap_rest. destruct (i =? 0)%nat; [destruct (_ =? _)%nat; lia|].
  destruct (_ =? _)%nat; lia.
Qed.

(** The turn over a slot that is empty, or emptied in this turn: it is
    counted. *)
Lemma lap_counted (openThreads i : nat) (pool pool' : Pool) :
  i < N -> List.length pool' = N -> openThreads < N ->
  lap_inv A openThreads i pool ->
  slot pool' i = None ->
  (forall j, j <> i -> slot pool' j = slot pool j) ->
  let o := if (i =? 0)%nat then 0 else openThreads in
  lap_inv A (S o) ((i + 1) mod N) pool'
  /\ lap_rest A (S o) ((i + 1) mod N) < lap_rest A openThreads i.
Proof.
  intros Hi Hl Ho Hinv Hs Hother o.
  assert (Ho' : o <= i /\ (o = i -> forall j, j < i -> slot pool j = None)).
  { unfold lap_inv in Hinv. subst o.
    destruct (Nat.eqb_spec i 0) as [->|]; [split; [lia|intros; lia]|exact Hinv]. }
  destruct Ho' as [Hoi Hclean].
  assert (Hfull : o = i -> forall j, j < i + 1 -> slot pool' j = None).
  { intros He j Hj. destruct (Nat.eq_dec j i) as [->|Hne]; [exact Hs|].
    rewrite Hother by exact Hne. apply Hclean; [exact He|lia]. }
  assert (Hrest : lap_rest A (S o) ((i + 1) mod N) < lap_rest A openThreads i).
  { rewrite next_index by exact Hi. unfold lap_rest. clear Hclean Hfull.
    revert Hoi. subst o.
    destruct (Nat.eqb_spec (i + 1) N); destruct (Nat.eqb_spec i 0);
      repeat match goal with
      | |- context [(?a =? ?b)%nat] => destruct (Nat.eqb_spec a b)
      end; lia. }
  split; [|exact Hrest].
  rewrite next_index by exact Hi. unfold lap_inv.
  destruct (Nat.eqb_spec (i + 1) N) as [HN|HN].
  - change (0 =? 0)%nat with true. cbv iota.
    split; [lia|]. intros He. apply in_flight_none. intros j Hj.
    apply Hfull; lia.
  - destruct (Nat.eqb_spec (i + 1) 0); [lia|].
    split; [lia|]. intros He. apply Hfull. lia.
Qed.

(** The turn over a slot whose job is not ready: it is not counted. *)
Lemma lap_passed (openThreads i : nat) (pool pool' : Pool) :
  i < N -> openThreads < N ->
  lap_inv A openThreads i pool ->
  let o := if (i =? 0)%nat then 0 else openThreads in
  lap_inv A o ((i + 1) mod N) pool'.
Proof.
  intros Hi Ho Hinv o.
  assert (Hoi : o <= i).
  { unfold lap_inv in Hinv. subst o.
    destruct (Nat.eqb_spec i 0) as [->|]; [lia|apply Hinv]. }
  rewrite next_index by exact Hi. unfold lap_inv.
  destruct (Nat.eqb_spec (i + 1) N) as [HN|HN].
  - change (0 =? 0)%nat with true. cbv iota. split; [lia|]. intros. lia.
  - destruct (Nat.eqb_spec (i + 1) 0); [lia|].
    split; [lia|]. intros. lia.
Qed.

End DrainFacts.

Section DrainEnds.

Context {Vector Results MolProto : Type}.
Variable E : Engine Vector Results MolProto.
Variable A : Args (Vector:=Vector) (Results:=Results) (MolProto:=MolProto).
Variable clock : nat -> Z.

Local Abbreviation JobInfo := (Info Vector Results MolProto).
Local Abbreviation N := (threadCount A).

(** The clean-up loop ends, with every job that was in flight collected
    and recorded once, and nothing else recorded or reported. *)
Lemma drain_ends (fuel : nat) :
  forall step openThreads st,
    pool_inv A st ->
    lap_inv A openThreads (nextIndex st) (threadPool st) ->
    all_end E (in_flight (threadPool st)) ->
    drain_bound A openThreads (nextIndex st) (threadPool st) < fuel ->
    exists order st',
      drain E A clock fuel step openThreads st = (Returned 0, st')
      /\ in_flight (threadPool st') = []
      /\ collected st' = collected st ++ order
      /\ Permutation order (in_flight (threadPool st))
      /\ started st' = started st
      /\ root (journal st')
         = root (journal st)
           ++ stamped clock (List.length (root (journal st)))
                (completed E order)
      /\ List.length (completed E order) = List.length order
      /\ cerr st' = cerr st ++ warnings_of E order.
Proof.
  induction fuel as [|fuel IH]; intros step openThreads st Hinv Hlap Hend Hb;
    [lia|].
  destruct Hinv as (Hl & Hi & Hp).
  cbn [drain]. destruct (Nat.ltb_spec openThreads N) as [Ho|Ho].
  - assert (Hm : (nextIndex st + 1) mod N < N)
      by (apply Nat.mod_upper_bound; lia).
    pose proof (lap_rest_bound A) as Hrb.
    unfold drain_bound in Hb.
    destruct (slot (threadPool st) (nextIndex st)) as [f|] eqn:Sl.
    + pose proof (in_flight_take _ _ _ Sl) as Htake.
      destruct (pending f) as [|k] eqn:Pf.
      * pose proof (waiting_take _ _ _ Sl) as Hw. rewrite Pf in Hw.
        assert (Hj : snd (algorithm E (job f)) <> None).
        { unfold all_end in Hend. rewrite Forall_forall in Hend.
          apply Hend. apply (Permutation_in _ (Permutation_sym Htake)).
          now left. }
        destruct (algorithm E (job f)) as [w [post|]] eqn:Ha;
          [|now elim Hj].
        destruct (lap_counted A openThreads (nextIndex st) (threadPool st)
                    (put (nextIndex st) None (threadPool st)))
          as [Hlap' _]; auto.
        { now rewrite put_length. }
        { apply slot_put_same. lia. }
        { intros j Hne. apply slot_put_other. auto. }
        match goal with
        | |- exists _ _, drain _ _ _ _ _ ?o ?s = _ /\ _ =>
            destruct (IH step o s) as (order & st' & D1 & D2 & D3 & D4 & D5
                                       & D6 & D7 & D8)
        end.
        { repeat split; cbn; auto.
          - now rewrite put_length.
          - rewrite Hp, Htake, <- app_assoc. reflexivity. }
        { exact Hlap'. }
        { cbn. unfold all_end in *.
          apply (Permutation_Forall Htake) in Hend.
          now inversion Hend. }
        { cbn. unfold drain_bound.
          specialize (Hrb (S (if (nextIndex st =? 0)%nat then 0 else openThreads))
                        ((nextIndex st + 1) mod N)).
          rewrite <- Hw in Hb. lia. }
        cbn in D3, D4, D5, D6, D8.
        exists (job f :: order), st'. rewrite D1, D3, D5, D6, D8.
        cbn [completed warnings_of flat_map]. rewrite Ha. cbn [fst snd].
        rewrite length_app. cbn [List.length stamped].
        rewrite Nat.add_1_r, <- !app_assoc. repeat split; auto.
        rewrite Htake. now apply perm_skip.
      * pose proof (waiting_refresh _ _ _ _ Sl Pf) as Hw.
        match goal with
        | |- exists _ _, drain _ _ _ _ _ ?o ?s = _ /\ _ =>
            destruct (IH step o s) as (order & st' & D1 & D2 & D3 & D4 & D5
                                       & D6 & D7 & D8)
        end.
        { repeat split; cbn; auto.
          - now rewrite put_length.
          - now rewrite (in_flight_refresh _ _ f (mkFuture (job f) k) Sl eq_refl). }
        { cbn. now apply lap_passed with (pool := threadPool st). }
        { cbn. now rewrite (in_flight_refresh _ _ f (mkFuture (job f) k) Sl eq_refl). }
        { cbn. unfold drain_bound.
          specialize (Hrb (if (nextIndex st =? 0)%nat then 0 else openThreads)
                        ((nextIndex st + 1) mod N)).
          rewrite <- Hw in Hb. lia. }
        cbn in D3, D4, D5, D6, D8.
        rewrite (in_flight_refresh _ _ f (mkFuture (job f) k) Sl eq_refl) in D4.
        exists order, st'. repeat split; auto.
    + destruct (lap_counted A openThreads (nextIndex st) (threadPool st)
                  (threadPool st)) as [Hlap' Hrest]; auto.
      match goal with
      | |- exists _ _, drain _ _ _ _ _ ?o ?s = _ /\ _ =>
          destruct (IH step o s) as (order & st' & D1 & D2 & D3 & D4 & D5
                                     & D6 & D7 & D8)
      end.
      { repeat split; cbn; auto. }
      { exact Hlap'. }
      { exact Hend. }
      { cbn. unfold drain_bound. lia. }
      cbn in D3, D4, D5, D6, D8.
      exists order, st'. repeat split; auto.
  - assert (Hnone : in_flight (threadPool st) = []).
    { unfold lap_inv in Hlap.
      destruct (Nat.eqb_spec (nextIndex st) 0); [apply Hlap|]; lia. }
    exists [], st. rewrite Hnone. cbn. rewrite !app_nil_r. repeat split; auto.
Qed.

End DrainEnds.

Section PoolWhole.

Context {Vector Results MolProto : Type}.
Variable P : Platform.
Variable E : Engine Vector Results MolProto.
Variable A : Args (Vector:=Vector) (Results:=Results) (MolProto:=MolProto).
Variable delay : nat -> nat.
Variable clock : nat -> Z.
Variable T : Tables.
Variable step : double.

Local Abbreviation JobInfo := (Info Vector Results MolProto).
Local Abbreviation N := (threadCount A).
Local Abbreviation run := (run_loop P E A delay clock).

Lemma acquire_mono (fuel : nat) :
  forall pool i r,
    acquire A fuel pool i = Some r ->
    forall fuel', fuel <= fuel' -> acquire A fuel' pool i = Some r.
Proof.
  induction fuel as [|fuel IH]; intros pool i r H fuel' Hf; [discriminate|].
  destruct fuel' as [|fuel']; [lia|]. cbn [acquire] in *.
  destruct (slot pool i) as [f|]; [|exact H].
  destruct (pending f); [exact H|]. apply (IH _ _ _ H). lia.
Qed.

(** With several workers and jobs that all end, the run returns: every
    configuration of the sweep has been started, and every job started or
    already in flight has been collected and recorded once. *)
Lemma run_loop_pool (trace : list (StdMap.t Z * JobInfo)) :
  forall st,
    1 < N ->
    pool_inv A st ->
    remaining P A T st trace ->
    all_end E (in_flight (threadPool st) ++ map snd trace) ->
    exists bound,
      forall fuel, bound <= fuel ->
        exists order st',
          run fuel T step st = (Returned 0, st')
          /\ in_flight (threadPool st') = []
          /\ started st' = started st ++ map snd trace
          /\ collected st' = collected st ++ order
          /\ Permutation order (in_flight (threadPool st) ++ map snd trace)
          /\ root (journal st')
             = root (journal st)
               ++ stamped clock (List.length (root (journal st)))
                    (completed E order)
          /\ List.length (completed E order) = List.length order
          /\ cerr st' = cerr st ++ warnings_of E order.
Proof.
  induction trace as [|[its0 info0] rest IH]; intros st HN Hinv Hrem Hend;
    unfold remaining in Hrem; destruct (hasNextIter st) eqn:Hh.
  - destruct Hrem as [fuel0 Hs]. apply sweep_inv in Hs.
    destruct Hs as (? & ? & ? & [] & _ & _ & Hs);
      [now destruct Hs as (? & _ & ?)|discriminate].
  - exists (S (drain_bound A 0 (nextIndex st) (threadPool st))).
    intros fuel Hf. destruct fuel as [|fuel]; [lia|].
    cbn [run_loop]. rewrite Hh.
    replace (1 <? N)%nat with true by (symmetry; apply Nat.ltb_lt; lia).
    destruct (drain_ends E A clock (S fuel) step 0 st Hinv)
      as (order & st' & D1 & D2 & D3 & D4 & D5 & D6 & D7 & D8).
    { unfold lap_inv. destruct (Nat.eqb_spec (nextIndex st) 0);
        (split; [lia|intros; lia]). }
    { simpl in Hend. now rewrite app_nil_r in Hend. }
    { lia. }
    exists order, st'. simpl. rewrite !app_nil_r. repeat split; auto.
  - destruct Hrem as [fuel0 Hs]. apply sweep_inv in Hs.
    destruct Hs as (fuel0' & info & its' & more & -> & Hn & Hs).
    assert (info0 = info /\ its0 = st_iters st /\
            (if more then sweep P A fuel0' T its' info = Ret rest else rest = []))
      as (-> & -> & Hrest).
    { destruct more.
      - destruct Hs as (r & Hr & [= -> -> ->]). auto.
      - injection Hs as -> -> ->. auto. }
    destruct Hinv as (Hl & Hi & Hp).
    destruct (acquire_total A (S (waiting (threadPool st))) (threadPool st)
                (nextIndex st) ltac:(lia)) as [[[pool i] taken] Hac].
    destruct (acquire_sound A _ _ _ _ _ _ Hl Hi Hac) as (A1 & A2 & A3 & _ & A5).
    pose proof (in_flight_replace pool i
                  (mkFuture info (delay (List.length (started st)))) taken
                  ltac:(lia) A5) as Hr.
    cbn [map snd] in Hend |- *.
    assert (Hnext : forall st1,
      pool_inv A st1 -> hasNextIter st1 = more ->
      st_iters st1 = its' -> st_preInfo st1 = info ->
      Permutation (match taken with Some j => [j] | None => [] end
                   ++ in_flight (threadPool st1))
        (info :: in_flight (threadPool st)) ->
      exists bound, forall fuel, bound <= fuel ->
        exists order st',
          run fuel T step st1 = (Returned 0, st')
          /\ in_flight (threadPool st') = []
          /\ started st' = started st1 ++ map snd rest
          /\ collected st' = collected st1 ++ order
          /\ Permutation
               (match taken with Some j => [j] | None => [] end ++ order)
               (in_flight (threadPool st) ++ info :: map snd rest)
          /\ root (journal st')
             = root (journal st1)
               ++ stamped clock (List.length (root (journal st1)))
                    (completed E order)
          /\ List.length (completed E order) = List.length order
          /\ cerr st' = cerr st1 ++ warnings_of E order).
    { intros st1 I1 I2 I3 I4 I5.
      destruct (IH st1 HN I1) as [bound Hb].
      - unfold remaining. rewrite I2, I3, I4.
        destruct more; [eauto|exact Hrest].
      - unfold all_end in *. rewrite Forall_app in Hend |- *.
        destruct Hend as [He1 He2].
        split; [|exact (Forall_inv_tail He2)].
        assert (He : Forall (fun j => snd (algorithm E j) <> None)
                       (info :: in_flight (threadPool st)))
          by (constructor; [exact (Forall_inv He2)|exact He1]).
        apply (Permutation_Forall (Permutation_sym I5)) in He.
        rewrite Forall_app in He. apply He.
      - exists bound. intros fuel Hf.
        destruct (Hb fuel Hf) as (order & st' & R1 & R2 & R3 & R4 & R5 & R6
                                  & R7 & R8).
        exists order, st'. repeat split; auto.
        rewrite R5, app_assoc, I5. simpl.
        apply Permutation_cons_app. reflexivity. }
    destruct taken as [j|].
    + assert (Hj : snd (algorithm E j) <> None).
      { unfold all_end in Hend. rewrite Forall_forall in Hend. apply Hend.
        apply in_or_app. left. rewrite <- A3.
        destruct A5 as (g & Hg & <- & _).
        apply (Permutation_in _ (Permutation_sym (in_flight_take _ _ _ Hg))).
        now left. }
      destruct (algorithm E j) as [w [post|]] eqn:Ha; [|now elim Hj].
      match type of Hac with
      | acquire _ _ ?p0 ?i0 = _ =>
          destruct (Hnext
            (record clock step
               (log (launch delay
                       (mkState its' info more pool i (postInfo st)
                          (journal st) (cerr st) (started st) (collected st))
                       info) w) j post))
            as [bound Hb]
      end.
      { repeat split; cbn; auto.
        - now rewrite put_length.
        - etransitivity; [symmetry; apply Permutation_cons_append|].
          etransitivity; [apply perm_skip; exact Hp|].
          rewrite <- app_assoc. simpl in Hr |- *.
          rewrite Hr, A3. apply Permutation_middle. }
      { reflexivity. }
      { reflexivity. }
      { reflexivity. }
      { cbn. rewrite <- A3. exact Hr. }
      exists (S (Nat.max (S (waiting (threadPool st))) bound)).
      intros fuel Hf. destruct fuel as [|fuel]; [lia|].
      cbn [run_loop]. rewrite Hh, Hn.
      replace (1 <? N)%nat with true by (symmetry; apply Nat.ltb_lt; lia).
      rewrite (acquire_mono _ _ _ _ Hac fuel) by lia. rewrite Ha.
      destruct (Hb fuel ltac:(lia))
        as (order & st' & R1 & R2 & R3 & R4 & R5 & R6 & R7 & R8).
      exists (j :: order), st'. rewrite R1, R3, R4, R6, R8.
      cbn [record log launch started collected journal recordData root cerr
           completed warnings_of flat_map].
      rewrite Ha. cbn [fst snd].
      rewrite length_app. cbn [List.length stamped].
      rewrite Nat.add_1_r, <- !app_assoc. repeat split; auto.
    + destruct (Hnext
                  (launch delay
                     (mkState its' info more pool i (postInfo st)
                        (journal st) (cerr st) (started st) (collected st))
                     info))
        as [bound Hb].
      { repeat split; cbn; auto.
        - now rewrite put_length.
        - etransitivity; [symmetry; apply Permutation_cons_append|].
          etransitivity; [apply perm_skip; exact Hp|].
          simpl in Hr. rewrite Hr, A3. apply Permutation_middle. }
      { reflexivity. }
      { reflexivity. }
      { reflexivity. }
      { cbn. rewrite <- A3. exact Hr. }
      exists (S (Nat.max (S (waiting (threadPool st))) bound)).
      intros fuel Hf. destruct fuel as [|fuel]; [lia|].
      cbn [run_loop]. rewrite Hh, Hn.
      replace (1 <? N)%nat with true by (symmetry; apply Nat.ltb_lt; lia).
      rewrite (acquire_mono _ _ _ _ Hac fuel) by lia.
      destruct (Hb fuel ltac:(lia))
        as (order & st' & R1 & R2 & R3 & R4 & R5 & R6 & R7 & R8).
      exists order, st'. rewrite R1, R3, R4, R6, R8.
      cbn [launch started collected journal root cerr].
      rewrite <- !app_assoc. repeat split; auto.
  - discriminate.
Qed.

End PoolWhole.

Lemma start_pool_inv {Vector Results MolProto : Type}
    (A : Args (Vector:=Vector) (Results:=Results) (MolProto:=MolProto))
    (T : Tables) (beginning : Z) (nodes : list XmlNode) :
  1 < threadCount A -> pool_inv A (start A T beginning nodes).
Proof.
  intros HN. unfold pool_inv, start.
  cbn [threadPool nextIndex started collected].
  replace (1 <? threadCount A)%nat with true
    by (symmetry; apply Nat.ltb_lt; lia).
  rewrite repeat_length, in_flight_repeat. repeat split; [lia|constructor].
Qed.

(** C3.  With more than one worker, whatever the point the run has reached
    (the state it is in when any amount of fuel is spent), the pool has
    [threadCount] slots, so at most that many jobs are in flight, and
    every job started is in flight in one slot or already collected.  The
    polling loop moves no job: it stops at an empty slot, to be claimed
    with no result to record, or at one slot whose job is ready, to be
    emptied by [get()]; the new job then takes that slot, so that the jobs
    in flight afterwards are the former ones, less the one collected, plus
    the new one. *)
Theorem pool_at_most_threadCount (Vector Results MolProto : Type)
    (P : Platform) (E : Engine Vector Results MolProto)
    (A : Args (Vector:=Vector) (Results:=Results) (MolProto:=MolProto))
    (delay : nat -> nat) (clock : nat -> Z) (T : Tables) (step : double)
    (beginning : Z) (nodes : list XmlNode) (fuel : nat) :
  1 < threadCount A ->
  let st :=
    snd (run_loop P E A delay clock fuel T step (start A T beginning nodes)) in
  List.length (threadPool st) = threadCount A
  /\ List.length (in_flight (threadPool st)) <= threadCount A
  /\ Permutation (started st) (collected st ++ in_flight (threadPool st))
  /\ (forall fuel' pool i pool' i' taken,
         List.length pool = threadCount A -> i < threadCount A ->
         acquire A fuel' pool i = Some (pool', i', taken) ->
         in_flight pool' = in_flight pool
         /\ i' < threadCount A
         /\ match taken with
            | None => slot pool' i' = None
            | Some j =>
                exists f, slot pool' i' = Some f /\ job f = j /\ pending f = 0
            end
         /\ forall f,
              Permutation
                (match taken with Some j => [j] | None => [] end
                 ++ in_flight (put i' (Some f) pool'))
                (job f :: in_flight pool)).
Proof.
  intros HN st.
  destruct (run_loop_inv P E A delay clock fuel T step
              (start A T beginning nodes) HN (start_pool_inv A T _ _ HN))
    as (I1 & I2 & I3).
  fold st in I1, I2, I3. repeat split; auto.
  - rewrite <- I1. apply in_flight_length.
  - eapply acquire_sound; eauto.
  - eapply acquire_sound; eauto.
  - eapply acquire_sound; eauto.
  - intros f.
    destruct (acquire_sound A _ _ _ _ _ _ H H0 H1) as (A1 & A2 & A3 & _ & A5).
    rewrite <- A3. apply in_flight_replace; [lia|exact A5].
Qed.

(** [pool_at_most_threadCount] for three workers on [Box.tables], five
    turns into the run. *)
Lemma pool_at_most_threadCount_witness :
  List.length
    (in_flight
       (threadPool
          (snd (run_loop Plain.platform Box.engine (Box.args 3)
                  (fun k => 5 - k) Z.of_nat 5 Box.tables 0%float
                  (start (Box.args 3) Box.tables 0 []))))) <= 3.
Proof.
  refine (proj1 (proj2 (pool_at_most_threadCount _ _ _ Plain.platform
    Box.engine (Box.args 3) (fun k => 5 - k) Z.of_nat Box.tables 0%float 0 []
    5 _))).
  vm_compute. lia.
Defined.

Lemma box_always_ends (j : Info double (list double) unit) :
  snd (algorithm Box.engine j) <> None.
Proof.
  unfold algorithm, configure. cbn [setMolProto Box.engine].
  destruct (usingMMB j); destruct (custom_spins _ _ _); discriminate.
Qed.

(** C4.  With more than one worker and jobs that all end, the clean-up
    loop ends; it collects every job that was in flight, each once, and
    records one [<data>] element for each; it adds nothing else to the
    report and writes nothing to [cerr] but the warnings of those jobs, so
    an empty slot gives neither a result nor an error.  Over the whole
    run every configuration of the sweep is started and is collected and
    recorded exactly once. *)
Theorem drain_collects_each_once (Vector Results MolProto : Type)
    (P : Platform) (E : Engine Vector Results MolProto)
    (A : Args (Vector:=Vector) (Results:=Results) (MolProto:=MolProto))
    (delay : nat -> nat) (clock : nat -> Z) (step : double) :
  1 < threadCount A ->
  (forall st,
      pool_inv A st ->
      all_end E (in_flight (threadPool st)) ->
      exists bound,
        forall fuel, bound <= fuel ->
          exists order st',
            drain E A clock fuel step 0 st = (Returned 0, st')
            /\ in_flight (threadPool st') = []
            /\ collected st' = collected st ++ order
            /\ Permutation order (in_flight (threadPool st))
            /\ root (journal st')
               = root (journal st)
                 ++ stamped clock (List.length (root (journal st)))
                      (completed E order)
            /\ List.length (completed E order) = List.length order
            /\ cerr st' = cerr st ++ warnings_of E order)
  /\ (forall fuel st openThreads,
         openThreads < threadCount A ->
         slot (threadPool st) (nextIndex st) = None ->
         exists o st1,
           drain E A clock (S fuel) step openThreads st
           = drain E A clock fuel step (S o) st1
           /\ journal st1 = journal st /\ cerr st1 = cerr st
           /\ collected st1 = collected st
           /\ threadPool st1 = threadPool st)
  /\ (forall fuel0 name fin T beginning nodes,
         parse_loop P fuel0 no_tables name fin = Ret T ->
         preamble P A beginning T = Some nodes ->
         exists trace,
           (forall fuel,
               Z.to_nat (product (cursors (labelNames T) (iterLengths T)))
               <= fuel ->
               sweep P A fuel T (iters T) (blank A) = Ret trace)
           /\ (all_end E (map snd trace) ->
               exists bound,
                 forall fuel, bound <= fuel ->
                   exists order st',
                     run_loop P E A delay clock fuel T step
                       (start A T beginning nodes) = (Returned 0, st')
                     /\ in_flight (threadPool st') = []
                     /\ started st' = map snd trace
                     /\ collected st' = order
                     /\ Permutation order (map snd trace)
                     /\ root (journal st')
                        = nodes ++ stamped clock (List.length nodes)
                                     (completed E order)
                     /\ List.length (completed E order) = List.length order)).
Proof.
  intros HN. split; [|split].
  - intros st Hinv Hend.
    exists (S (drain_bound A 0 (nextIndex st) (threadPool st))).
    intros fuel Hf.
    destruct (drain_ends E A clock fuel step 0 st Hinv)
      as (order & st' & D1 & D2 & D3 & D4 & D5 & D6 & D7 & D8); auto.
    { unfold lap_inv. destruct (Nat.eqb_spec (nextIndex st) 0);
        (split; [lia|intros; lia]). }
    exists order, st'. repeat split; auto.
  - intros fuel st openThreads Ho Hs. cbn [drain].
    replace (openThreads <? threadCount A)%nat with true
      by (symmetry; apply Nat.ltb_lt; lia).
    rewrite Hs. eexists. eexists. split; [reflexivity|]. repeat split.
  - intros fuel0 name fin T beginning nodes Hparse Hpre.
    destruct (sweep_runs _ _ _ P A fuel0 name fin T beginning nodes
                Hparse Hpre) as (trace & Hs & _).
    exists trace. split; [exact Hs|]. intros Hend.
    destruct (run_loop_pool P E A delay clock T step trace
                (start A T beginning nodes) HN (start_pool_inv A T _ _ HN))
      as [bound Hb].
    { unfold remaining. cbn. eexists. apply Hs. apply Nat.le_refl. }
    { unfold start. cbn [threadPool].
      replace (1 <? threadCount A)%nat with true
        by (symmetry; apply Nat.ltb_lt; lia).
      now rewrite in_flight_repeat. }
    exists bound. intros fuel Hf.
    destruct (Hb fuel Hf) as (order & st' & R1 & R2 & R3 & R4 & R5 & R6 & R7 & _).
    exists order, st'.
    assert (Hflight : in_flight (threadPool (start A T beginning nodes)) = []).
    { unfold start. cbn [threadPool].
      replace (1 <? threadCount A)%nat with true
        by (symmetry; apply Nat.ltb_lt; lia).
      apply in_flight_repeat. }
    rewrite Hflight in R5. repeat split; auto.
Qed.

(** [drain_collects_each_once] for three workers on the file [Box.sample]:
    the run returns with the six configurations collected. *)
Lemma drain_collects_each_once_witness :
  exists trace bound nodes,
    sweep Plain.platform (Box.args 3) 6 Box.tables (iters Box.tables) Box.blank
    = Ret trace
    /\ forall fuel, bound <= fuel ->
         exists order st',
           run_loop Plain.platform Box.engine (Box.args 3) (fun k => 5 - k)
             Z.of_nat fuel Box.tables 0%float
             (start (Box.args 3) Box.tables 0 nodes) = (Returned 0, st')
           /\ collected st' = order
           /\ Permutation order (map snd trace).
Proof.
  assert (Hp : parse_loop Plain.platform 100 no_tables "in"
                 (mkStream Box.sample true) = Ret Box.tables)
    by (vm_compute; reflexivity).
  assert (Hn : exists nodes,
             preamble Plain.platform (Box.args 3) 0 Box.tables = Some nodes)
    by (vm_compute; eexists; reflexivity).
  destruct Hn as [nodes Hn].
  assert (HN : 1 < threadCount (Box.args 3)) by (vm_compute; lia).
  destruct (proj2 (proj2 (drain_collects_each_once _ _ _ Plain.platform
              Box.engine (Box.args 3) (fun k => 5 - k) Z.of_nat 0%float HN))
              100 "in" (mkStream Box.sample true) Box.tables 0%Z nodes Hp Hn)
    as (trace & Hs & Hr).
  destruct Hr as [bound Hb].
  { apply Forall_forall. intros j _. apply box_always_ends. }
  exists trace, bound, nodes. split; [apply Hs; vm_compute; lia|].
  intros fuel Hf.
  destruct (Hb fuel Hf) as (order & st' & R1 & _ & _ & R4 & R5 & _).
  exists order, st'. repeat split; auto.
Defined.

(** * Further properties of the driver *)

(** ** The codes of the parser *)

Ltac break_hyp H :=
  repeat match type of H with
  | context [match ?x with _ => _ end] =>
      lazymatch x with
      | context [match _ with _ => _ end] => fail
      | _ => destruct x eqn:?; try discriminate H
      end
  end.

Lemma entry_loop_codes (P : Platform) (fuel : nat) :
  forall vec lbl str fin e err,
    entry_loop P fuel vec lbl str fin = Throw e err ->
    In e [1; 2; 3; 4; 5; 6]%Z /\ err = [].
Proof.
  induction fuel as [|fuel IH]; intros vec lbl str fin e err H;
    [discriminate|].
  cbn [entry_loop] in H. break_hyp H;
    try (injection H as <- <-; simpl; tauto);
    try (eapply IH; eassumption).
Qed.

Lemma read_spin_codes (P : Platform) key str fin e err :
  read_spin P key str fin = Throw e err -> e = 21%Z /\ err = [].
Proof.
  unfold read_spin. intros H. cbv zeta in H.
  repeat match type of H with
  | match ?x with _ => _ end = _ => destruct x; try discriminate H
  end.
  now injection H as <- <-.
Qed.

Lemma read_item_codes (P : Platform) fuel str fin e err :
  read_item P fuel str fin = Throw e err ->
  In e [1; 2; 3; 4; 5; 6; 21]%Z /\ err = [].
Proof.
  unfold read_item. intros H. break_hyp H.
  - injection H as <- <-.
    match goal with
    | H : read_spin _ _ _ _ = Throw _ _ |- _ =>
        apply read_spin_codes in H; destruct H as [-> ->]
    end.
    simpl. tauto.
  - injection H as <- <-.
    match goal with
    | H : entry_loop _ _ _ _ _ _ = Throw _ _ |- _ =>
        apply entry_loop_codes in H; destruct H as [H ->]
    end.
    simpl in *. tauto.
Qed.

Lemma commit_codes T key lbl vec e err :
  commit T key lbl vec = Throw e err ->
  e = 7%Z /\ exists prev,
    err = [LabelSizeMsg lbl key (Z.of_nat (List.length vec)) prev].
Proof.
  unfold commit. intros H. break_hyp H. injection H as <- <-. eauto.
Qed.

Lemma parse_loop_codes (P : Platform) (fuel : nat) :
  forall T str fin e err,
    parse_loop P fuel T str fin = Throw e err ->
    In e parser_codes /\ (e <> 7%Z -> err = []).
Proof.
  induction fuel as [|fuel IH]; intros T str fin e err H; [discriminate|].
  cbn [parse_loop] in H.
  destruct (read_item P fuel str fin) as [[[it s] f]|e0 err0|] eqn:R;
    try discriminate.
  - destruct it as [| |sp|key lbl vec]; try discriminate;
      try (eapply IH; eassumption).
    destruct (commit T key lbl vec) as [T1|e1 err1|] eqn:C; try discriminate.
    + eapply IH; eassumption.
    + injection H as <- <-. apply commit_codes in C. destruct C as [-> _].
      unfold parser_codes. simpl. split; [tauto|congruence].
  - injection H as <- <-. apply read_item_codes in R. destruct R as [R ->].
    unfold parser_codes. simpl in *. split; [tauto|reflexivity].
Qed.

(** X1.  Whatever the file, a parse that fails throws one of the eight codes
    of the parser; it has written to [cerr] only for the code 7; and
    [main] returns the code with bit 4 set, a value from 17 to 23, after
    the message of a corrupted file and before any job is started. *)
Theorem parse_failure_codes (Vector Results MolProto : Type)
    (P : Platform) (E : Engine Vector Results MolProto)
    (A : Args (Vector:=Vector) (Results:=Results) (MolProto:=MolProto))
    (delay : nat -> nat) (clock : nat -> Z) (fuel : nat) (name : string)
    (fin : istream) (beginning : Z) (e : Z) (err : list Msg) :
  parse_loop P fuel no_tables name fin = Throw e err ->
  In e parser_codes
  /\ (e <> 7%Z -> err = [])
  /\ (17 <= Z.lor e 16 <= 23)%Z
  /\ main P E A delay clock fuel name fin beginning
     = (Returned (Z.lor e 16), err ++ [CorruptedMsg (Z.lor e 16)], None)
  /\ jobs_run (main P E A delay clock fuel name fin beginning) = [].
Proof.
  intros H.
  destruct (parse_loop_codes P fuel _ _ _ _ _ H) as [Hin Herr].
  rewrite (main_throw P E A delay clock fuel name fin beginning e err H).
  repeat split; auto;
    unfold parser_codes in Hin; simpl in Hin;
    repeat (destruct Hin as [<-|Hin]; [vm_compute; congruence|]);
    destruct Hin.
Qed.

(** [parse_failure_codes] on a file whose entry has no value. *)
Lemma parse_failure_codes_witness :
  main Plain.platform Box.engine (Box.args 1) (fun _ => 0) (fun _ => 0%Z) 5
    "in" (mkStream "kT =" true) 0
  = (Returned 21, [CorruptedMsg 21], None).
Proof.
  exact (proj1 (proj2 (proj2 (proj2
    (parse_failure_codes _ _ _ Plain.platform Box.engine (Box.args 1)
       (fun _ => 0) (fun _ => 0%Z) 5 "in" (mkStream "kT =" true) 0 5 []
       eq_refl))))).
Defined.

(** ** Entries the parser rejects *)

(** X2.  A range whose step compares equal to zero (of either sign) is not
    expanded: the entry throws 2, the parse stops there, and [main]
    returns 18. *)
Theorem zero_step_rejected (Vector Results MolProto : Type)
    (P : Platform) (E : Engine Vector Results MolProto)
    (A : Args (Vector:=Vector) (Results:=Results) (MolProto:=MolProto))
    (delay : nat -> nat) (clock : nat -> Z) (beginning : Z)
    (fuel : nat) (T : Tables) (key str : string)
    (fin f0 f1 f2 f3 f4 : istream) (val lim inc : double) :
  read_string fin = (Some key, f0) ->
  starts_with "#" key = false ->
  starts_with "[" key = false ->
  read_string f0 = (Some ":", f1) ->
  read_num (scan_double P) f1 = (Some (ScanOk val), f2) ->
  read_num (scan_double P) f2 = (Some (ScanOk lim), f3) ->
  read_num (scan_double P) f3 = (Some (ScanOk inc), f4) ->
  PrimFloat.eqb inc 0 = true ->
  parse_loop P (S (S fuel)) T str fin = Throw 2 []
  /\ (T = no_tables ->
      main P E A delay clock (S (S fuel)) str fin beginning
      = (Returned 18, [CorruptedMsg 18], None)).
Proof.
  intros Hk H1 H2 Hs Hv Hl Hi Hz.
  assert (H : parse_loop P (S (S fuel)) T str fin = Throw 2 []).
  { apply parse_loop_throw. unfold read_item. rewrite Hk, H1, H2.
    cbn [entry_loop]. rewrite Hs.
    change (":" =? "=") with false. change (":" =? ":") with true. cbv iota.
    now rewrite Hv, Hl, Hi, Hz. }
  split; [exact H|]. intros ->.
  now rewrite (main_throw P E A delay clock _ str fin beginning 2 [] H).
Qed.

(** [zero_step_rejected] on the file [kT : 1 5 0]. *)
Lemma zero_step_rejected_witness :
  main Plain.platform Box.engine (Box.args 1) (fun _ => 0) (fun _ => 0%Z) 2
    "in" (mkStream "kT : 1 5 0" true) 0
  = (Returned 18, [CorruptedMsg 18], None).
Proof.
  refine (proj2 (zero_step_rejected _ _ _ Plain.platform Box.engine
    (Box.args 1) (fun _ => 0) (fun _ => 0%Z) 0 0 no_tables "kT" "in"
    (mkStream "kT : 1 5 0" true) (mkStream " : 1 5 0" true)
    (mkStream " 1 5 0" true) (mkStream " 5 0" true) (mkStream " 0" true)
    (mkStream "" true) 1%float 5%float 0%float _ _ _ _ _ _ _ _) eq_refl);
    vm_compute; reflexivity.
Defined.

(** X3.  An entry takes one label at most: a second word that is not an
    operator, read before any value, throws 4. *)
Theorem second_label_rejected (P : Platform) (fuel : nat) (T : Tables)
    (key str w1 w2 : string) (fin f0 f1 f2 : istream) :
  read_string fin = (Some key, f0) ->
  starts_with "#" key = false ->
  starts_with "[" key = false ->
  read_string f0 = (Some w1, f1) ->
  read_string f1 = (Some w2, f2) ->
  is_operator w1 = false ->
  is_operator w2 = false ->
  w1 <> "" ->
  parse_loop P (S (S (S fuel))) T str fin = Throw 4 [].
Proof.
  intros Hk H1 H2 Hw1 Hw2 O1 O2 Hne.
  apply parse_loop_throw. unfold read_item. rewrite Hk, H1, H2.
  unfold is_operator in O1, O2.
  apply orb_false_elim in O1. destruct O1 as [O1 O1c].
  apply orb_false_elim in O1. destruct O1 as [O1a O1b].
  apply orb_false_elim in O2. destruct O2 as [O2 O2c].
  apply orb_false_elim in O2. destruct O2 as [O2a O2b].
  cbn [entry_loop]. rewrite Hw1, O1a, O1b, O1c. cbn [String.length Nat.eqb].
  rewrite Hw2, O2a, O2b, O2c.
  destruct w1 as [|c w1]; [congruence|]. reflexivity.
Qed.

(** [second_label_rejected] on the file [kT a b = 1]. *)
Lemma second_label_rejected_witness :
  parse_loop Plain.platform 3 no_tables "in" (mkStream "kT a b = 1" true)
  = Throw 4 [].
Proof.
  refine (second_label_rejected Plain.platform 0 no_tables "kT" "in" "a" "b"
    (mkStream "kT a b = 1" true) (mkStream " a b = 1" true)
    (mkStream " b = 1" true) (mkStream " = 1" true) _ _ _ _ _ _ _ _);
    try (vm_compute; reflexivity).
  discriminate.
Defined.

(** ** Comments *)

Lemma span_word_line (rest : string) (text : string) :
  no_newline text = true ->
  exists w t,
    span_word (text ++ String "010" rest)%string = (w, (t ++ String "010" rest)%string)
    /\ no_newline t = true.
Proof.
  induction text as [|c text IH]; intros Hn.
  - exists "", "". split; reflexivity.
  - simpl in Hn. apply andb_prop in Hn. destruct Hn as [Hc Hn].
    cbn [append span_word]. destruct (isspace c).
    + exists "", (String c text). split; [reflexivity|].
      simpl. now rewrite Hc, Hn.
    + destruct (IH Hn) as (w & t & -> & Ht). eauto.
Qed.

Lemma span_line_text (rest : string) (t : string) :
  no_newline t = true ->
  span_line (t ++ String "010" rest)%string = (t, rest).
Proof.
  induction t as [|c t IH]; intros Hn; [reflexivity|].
  simpl in Hn. apply andb_prop in Hn. destruct Hn as [Hc Hn].
  cbn [append span_line]. apply negb_true_iff in Hc. rewrite Hc.
  now rewrite (IH Hn).
Qed.

Lemma getline_text (rest : string) (t : string) :
  no_newline t = true ->
  getline (mkStream (t ++ String "010" rest)%string true)
  = (Some t, mkStream rest true).
Proof.
  intros Hn. pose proof (span_line_text rest t Hn) as H.
  unfold getline. cbn [good buf].
  destruct t; cbn [append] in *; now rewrite H.
Qed.

(** X4.  A word that starts with [#] opens a comment: the parser drops the
    rest of its line, newline included, and goes on with the tables
    unchanged from the first character of the next line. *)
Theorem comment_line_skipped (P : Platform) (fuel : nat) (T : Tables)
    (str text rest : string) :
  no_newline text = true ->
  exists str',
    parse_loop P (S fuel) T str
      (mkStream (String "#" (text ++ String "010" rest)%string) true)
    = parse_loop P fuel T str' (mkStream rest true).
Proof.
  intros Hn.
  destruct (span_word_line rest text Hn) as (w & t & Hw & Ht).
  exists t. cbn [parse_loop]. unfold read_item, read_string.
  cbn [good buf skipws]. change (isspace "#") with false. cbv iota.
  cbn [span_word]. change (isspace "#") with false. cbv iota.
  rewrite Hw. cbn [starts_with]. change ("#" =? "#")%char with true.
  cbv iota. now rewrite (getline_text rest t Ht).
Qed.

(** [comment_line_skipped] on a file of one comment and one entry. *)
Lemma comment_line_skipped_witness :
  exists str',
    parse_loop Plain.platform 4 no_tables "in"
      (mkStream (String "#" (" sweep of kT" ++ String "010" "kT = 1")%string) true)
    = parse_loop Plain.platform 3 no_tables str' (mkStream "kT = 1" true).
Proof.
  exact (comment_line_skipped Plain.platform 3 no_tables "in"
           " sweep of kT" "kT = 1" eq_refl).
Defined.

(** ** What the tables hold after a parse *)

Lemma commit_spins T key lbl vec T1 :
  commit T key lbl vec = Ret T1 -> spins T1 = spins T.
Proof.
  unfold commit. intros H. break_hyp H; now injection H as <-.
Qed.

Lemma parse_loop_spins (P : Platform) (fuel : nat) :
  forall T str fin T',
    parse_loop P fuel T str fin = Ret T' ->
    spins T' = spins T ++ spins_of (items P fuel str fin).
Proof.
  induction fuel as [|fuel IH]; intros T str fin T' H; [discriminate|].
  cbn [parse_loop items] in *.
  destruct (read_item P fuel str fin) as [[[it s] f]| |] eqn:R;
    try discriminate.
  destruct it as [| |sp|key lbl vec].
  - injection H as <-. simpl. now rewrite app_nil_r.
  - exact (IH _ _ _ _ H).
  - rewrite (IH _ _ _ _ H). cbn [push_spin spins spins_of flat_map].
    now rewrite <- app_assoc.
  - destruct (commit T key lbl vec) as [T1| |] eqn:C; try discriminate.
    rewrite (IH _ _ _ _ H). now rewrite (commit_spins _ _ _ _ _ C).
Qed.

(** X5.  The custom spins kept for the jobs are those of the [[x y z] = s]
    lines of the file, all of them, in the order of the file. *)
Theorem spins_in_file_order (P : Platform) (fuel : nat) (name : string)
    (fin : istream) (T : Tables) :
  parse_loop P fuel no_tables name fin = Ret T ->
  spins T = spins_of (items P fuel name fin).
Proof.
  intros H. now rewrite (parse_loop_spins P fuel _ _ _ _ H).
Qed.

Lemma commit_p T key lbl vec T1 :
  commit T key lbl vec = Ret T1 ->
  p T1 = StdMap.set key vec (p T)
  /\ labelMapInv T1 = StdMap.set key lbl (labelMapInv T).
Proof.
  unfold commit. intros H. break_hyp H; now injection H as <-.
Qed.

Lemma parse_loop_last (P : Platform) (fuel : nat) (key : string) :
  forall T str fin T',
    parse_loop P fuel T str fin = Ret T' ->
    match last_entry key (items P fuel str fin) with
    | Some (lbl, v) =>
        StdMap.find key (p T') = Some v
        /\ StdMap.find key (labelMapInv T') = Some lbl
    | None =>
        StdMap.find key (p T') = StdMap.find key (p T)
        /\ StdMap.find key (labelMapInv T') = StdMap.find key (labelMapInv T)
    end.
Proof.
  induction fuel as [|fuel IH]; intros T str fin T' H; [discriminate|].
  cbn [parse_loop items] in *.
  destruct (read_item P fuel str fin) as [[[it s] f]| |] eqn:R;
    try discriminate.
  destruct it as [| |sp|k lbl vec].
  - injection H as <-. simpl. auto.
  - specialize (IH _ _ _ _ H). cbn [last_entry].
    destruct (last_entry key (items P fuel s f)) as [[l v]|]; exact IH.
  - specialize (IH _ _ _ _ H). cbn [last_entry].
    destruct (last_entry key (items P fuel s f)) as [[l v]|]; exact IH.
  - destruct (commit T k lbl vec) as [T1| |] eqn:C; try discriminate.
    specialize (IH _ _ _ _ H). cbn [last_entry].
    destruct (last_entry key (items P fuel s f)) as [[l v]|]; [exact IH|].
    destruct (commit_p _ _ _ _ _ C) as [Hp Hi]. rewrite Hp, Hi in IH.
    rewrite !find_set, (String.eqb_sym key k) in IH.
    destruct (String.eqb k key); exact IH.
Qed.

(** X6.  When a key has several entries the last one stands: after a
    successful parse [p] and [labelMapInv] hold, for each key, the values
    and the label of its last entry in the file, and nothing for a key
    with no entry. *)
Theorem last_entry_stands (P : Platform) (fuel : nat) (name : string)
    (fin : istream) (T : Tables) (key : string) :
  parse_loop P fuel no_tables name fin = Ret T ->
  StdMap.find key (p T)
  = option_map snd (last_entry key (items P fuel name fin))
  /\ StdMap.find key (labelMapInv T)
     = option_map fst (last_entry key (items P fuel name fin)).
Proof.
  intros H. pose proof (parse_loop_last P fuel key _ _ _ _ H) as L.
  destruct (last_entry key (items P fuel name fin)) as [[l v]|]; exact L.
Qed.

(** [spins_in_file_order] on the file [BoxFiles.spun]. *)
Lemma spins_in_file_order_witness :
  spins BoxFiles.spun_tables = [mkSpin 1 0 0 3%float; mkSpin 1 1 1 2%float].
Proof.
  rewrite (spins_in_file_order Plain.platform 100 "in"
             (mkStream BoxFiles.spun true) BoxFiles.spun_tables);
    vm_compute; reflexivity.
Defined.

(** [last_entry_stands] on the file [BoxFiles.spun], which has two entries
    for [kT]. *)
Lemma last_entry_stands_witness :
  StdMap.find "kT" (p BoxFiles.spun_tables) = Some [1; 2; 3]%float.
Proof.
  rewrite (proj1 (last_entry_stands Plain.platform 100 "in"
                    (mkStream BoxFiles.spun true) BoxFiles.spun_tables "kT"
                    ltac:(vm_compute; reflexivity))).
  vm_compute. reflexivity.
Defined.

Lemma commit_labelNames T key lbl vec T1 :
  tables_ok T ->
  commit T key lbl vec = Ret T1 ->
  labelNames T1
  = if existsb (String.eqb lbl) (labelNames T) then labelNames T
    else labelNames T ++ [lbl].
Proof.
  intros HT H.
  assert (Hmem : StdMap.mem lbl (labelMap T)
                 = existsb (String.eqb lbl) (labelNames T)).
  { pose proof (ok_members HT lbl) as Hm. unfold StdMap.mem.
    destruct (existsb (String.eqb lbl) (labelNames T)) eqn:Ex.
    - apply existsb_exists in Ex. destruct Ex as (x & Hx & Ex).
      apply String.eqb_eq in Ex. subst x. apply Hm in Hx.
      destruct (StdMap.find lbl (labelMap T)); congruence.
    - destruct (StdMap.find lbl (labelMap T)) eqn:F; [|reflexivity].
      assert (Hin : In lbl (labelNames T)) by (apply Hm; congruence).
      assert (Ex' : existsb (String.eqb lbl) (labelNames T) = true).
      { apply existsb_exists. exists lbl. split; [exact Hin|].
        apply String.eqb_refl. }
      congruence. }
  rewrite <- Hmem. unfold commit in H.
  break_hyp H; injection H as <-; reflexivity.
Qed.

Lemma parse_loop_labels (P : Platform) (fuel : nat) :
  forall T str fin T',
    tables_ok T ->
    parse_loop P fuel T str fin = Ret T' ->
    labelNames T'
    = labelNames T ++ first_labels (labelNames T) (items P fuel str fin).
Proof.
  induction fuel as [|fuel IH]; intros T str fin T' HT H; [discriminate|].
  cbn [parse_loop items] in *.
  destruct (read_item P fuel str fin) as [[[it s] f]| |] eqn:R;
    try discriminate.
  destruct it as [| |sp|key lbl vec].
  - injection H as <-. simpl. now rewrite app_nil_r.
  - exact (IH _ _ _ _ HT H).
  - exact (IH _ _ _ _ (push_spin_ok T sp HT) H).
  - destruct (commit T key lbl vec) as [T1| |] eqn:C; try discriminate.
    pose proof (commit_ok T T1 key lbl vec HT
                  (read_item_nonempty P _ _ _ _ _ _ _ _ R) C) as HT1.
    rewrite (IH _ _ _ _ HT1 H), (commit_labelNames _ _ _ _ _ HT C).
    cbn [first_labels].
    destruct (existsb (String.eqb lbl) (labelNames T)); [reflexivity|].
    now rewrite <- app_assoc.
Qed.

(** X7.  The labels are listed in the order in which the file first uses them,
    each once; an entry without a label counts under its key.  This is the
    order in which the odometer turns, the first label fastest. *)
Theorem labels_in_first_use_order (P : Platform) (fuel : nat) (name : string)
    (fin : istream) (T : Tables) :
  parse_loop P fuel no_tables name fin = Ret T ->
  labelNames T = first_labels [] (items P fuel name fin)
  /\ NoDup (labelNames T).
Proof.
  intros H. split.
  - now rewrite (parse_loop_labels P fuel _ _ _ _ no_tables_ok H).
  - exact (ok_nodup (parse_loop_ok P fuel _ _ _ _ no_tables_ok H)).
Qed.

(** [labels_in_first_use_order] on the file [Box.sample]: after the
    constants and [kT], the label [L] stands where [B_x] first uses it,
    and [B_y] adds none. *)
Lemma labels_in_first_use_order_witness :
  firstn 3 (skipn 12 (labelNames Box.tables)) = ["kT"; "L"; "B_z"].
Proof.
  rewrite (proj1 (labels_in_first_use_order Plain.platform 100 "in"
                    (mkStream Box.sample true) Box.tables
                    ltac:(vm_compute; reflexivity))).
  vm_compute. reflexivity.
Defined.

Lemma insert_in (key k : string) (s : StdSet.t) :
  In k (StdSet.insert key s) <-> k = key \/ In k s.
Proof.
  induction s as [|k' s IH]; simpl; [intuition|].
  destruct (String.compare key k') eqn:Ec; simpl.
  - apply String.compare_eq_iff in Ec. subst k'. intuition.
  - intuition.
  - rewrite IH. intuition.
Qed.

Lemma commit_entries T key lbl vec T1 :
  tables_ok T -> entries_ok T ->
  commit T key lbl vec = Ret T1 -> entries_ok T1.
Proof.
  intros HT HE C.
  pose proof (commit_labelNames _ _ _ _ _ HT C) as HN.
  assert (Hnames : forall l, In l (labelNames T) \/ l = lbl ->
                             In l (labelNames T1)).
  { intros l Hl. rewrite HN.
    destruct (existsb (String.eqb lbl) (labelNames T)) eqn:Ex.
    - destruct Hl as [Hl| ->]; [exact Hl|].
      apply existsb_exists in Ex. destruct Ex as (x & Hx & Ex).
      apply String.eqb_eq in Ex. now subst x.
    - apply in_or_app. destruct Hl as [Hl| ->]; [now left|right; now left]. }
  assert (HM : labelMap T1
               = StdMap.set lbl
                   (StdSet.insert key
                      match StdMap.find lbl (labelMap T) with
                      | Some s => s
                      | None => []
                      end) (labelMap T)).
  { unfold commit in C. break_hyp C; now injection C as <-. }
  assert (HL : StdMap.find lbl (iterLengths T1)
               = Some (Z.of_nat (List.length vec))
               /\ forall l, l <> lbl ->
                    StdMap.find l (iterLengths T1)
                    = StdMap.find l (iterLengths T)).
  { unfold commit in C.
    destruct (StdMap.find lbl (iterLengths T)) as [prev|] eqn:F.
    - destruct (prev =? Z.of_nat (List.length vec))%Z eqn:Ep;
        [|discriminate].
      apply Z.eqb_eq in Ep. injection C as <-. cbn [iterLengths].
      split; [congruence|reflexivity].
    - injection C as <-. cbn [iterLengths]. split.
      + apply find_set_same.
      + intros l Hl. now apply find_set_other. }
  destruct (commit_p _ _ _ _ _ C) as [Hp Hi].
  destruct HL as [HL1 HL2].
  intros k v Hk. rewrite Hp, find_set in Hk. rewrite Hi, HM.
  destruct (String.eqb k key) eqn:Ek.
  - apply String.eqb_eq in Ek. subst k. injection Hk as <-.
    exists lbl. eexists. rewrite !find_set_same.
    repeat split; auto. apply insert_in. now left.
  - destruct (HE k v Hk) as (l & names & E1 & E2 & E3 & E4 & E5).
    rewrite find_set, Ek. exists l.
    destruct (String.eqb l lbl) eqn:El.
    + apply String.eqb_eq in El. subst l. eexists. rewrite find_set_same.
      repeat split; auto.
      * rewrite E2. apply insert_in. now right.
      * rewrite HL1. unfold commit in C. rewrite E5 in C.
        destruct (_ =? _)%Z eqn:Ep; [|discriminate].
        apply Z.eqb_eq in Ep. congruence.
    + assert (l <> lbl)
        by (intros ->; rewrite String.eqb_refl in El; discriminate).
      exists names. rewrite find_set_other by auto.
      repeat split; auto. now rewrite HL2.
Qed.

Lemma parse_loop_entries (P : Platform) (fuel : nat) :
  forall T str fin T',
    tables_ok T -> entries_ok T ->
    parse_loop P fuel T str fin = Ret T' -> entries_ok T'.
Proof.
  induction fuel as [|fuel IH]; intros T str fin T' HT HE H; [discriminate|].
  cbn [parse_loop] in H.
  destruct (read_item P fuel str fin) as [[[it s] f]| |] eqn:R;
    try discriminate.
  destruct it as [| |sp|key lbl vec].
  - now injection H as <-.
  - exact (IH _ _ _ _ HT HE H).
  - exact (IH _ _ _ _ (push_spin_ok T sp HT) HE H).
  - destruct (commit T key lbl vec) as [T1| |] eqn:C; try discriminate.
    apply (IH _ _ _ _ (commit_ok T T1 key lbl vec HT
                         (read_item_nonempty P _ _ _ _ _ _ _ _ R) C)
             (commit_entries _ _ _ _ _ HT HE C) H).
Qed.

(** X8.  After a successful parse every stored parameter is filed under its
    label in both directions, the label is one of those the odometer
    turns, and the parameter has exactly as many values as the label has
    positions. *)
Theorem stored_entries_match_labels (P : Platform) (fuel : nat)
    (name : string) (fin : istream) (T : Tables) (key : string)
    (v : list double) :
  parse_loop P fuel no_tables name fin = Ret T ->
  StdMap.find key (p T) = Some v ->
  exists lbl names,
    StdMap.find key (labelMapInv T) = Some lbl
    /\ StdMap.find lbl (labelMap T) = Some names
    /\ In key names
    /\ In lbl (labelNames T)
    /\ StdMap.find lbl (iterLengths T) = Some (Z.of_nat (List.length v)).
Proof.
  intros H.
  apply (parse_loop_entries P fuel no_tables name fin T no_tables_ok);
    [|exact H].
  intros k w Hk. discriminate.
Qed.

(** [stored_entries_match_labels] for [B_y] in the file [Box.sample]. *)
Lemma stored_entries_match_labels_witness :
  exists lbl names,
    StdMap.find "B_y" (labelMapInv Box.tables) = Some lbl
    /\ StdMap.find lbl (labelMap Box.tables) = Some names
    /\ In "B_y" names
    /\ In lbl (labelNames Box.tables)
    /\ StdMap.find lbl (iterLengths Box.tables) = Some 2%Z.
Proof.
  exact (stored_entries_match_labels Plain.platform 100 "in"
           (mkStream Box.sample true) Box.tables "B_y" [5; 6]%float
           ltac:(vm_compute; reflexivity) ltac:(vm_compute; reflexivity)).
Defined.

(** ** No index of the sweep is out of range *)

Lemma combination_cursor (names : list string) (L its : StdMap.t Z) :
  combination (cursors names L) (cursors names its) ->
  forall lbl, In lbl names -> (0 <= cursor lbl its < cursor lbl L)%Z.
Proof.
  unfold combination, cursors.
  induction names as [|n ns IH]; intros H lbl Hin; [destruct Hin|].
  cbn [map] in H. inversion H; subst.
  destruct Hin as [<-|Hin]; [assumption|]. now apply IH.
Qed.

Lemma vec_at_some (v : list double) (c : Z) :
  (0 <= c < Z.of_nat (List.length v))%Z -> exists x, vec_at v c = Some x.
Proof.
  intros Hc. unfold vec_at.
  replace (c <? 0)%Z with false by (symmetry; apply Z.ltb_ge; lia).
  destruct (nth_error v (Z.to_nat c)) as [x|] eqn:N; [eauto|].
  apply nth_error_None in N. lia.
Qed.

(** X9.  In every configuration of the sweep each stored parameter has a value
    at the cursor of its label: [p.at(name).at(iters[label])] never throws
    for the label the parameter was last given, and a field under that one
    label holds exactly that value. *)
Theorem sweep_indices_in_range (Vector Results MolProto : Type)
    (P : Platform)
    (A : Args (Vector:=Vector) (Results:=Results) (MolProto:=MolProto))
    (fuel : nat) (name : string) (fin : istream) (T : Tables)
    (beginning : Z) (nodes : list XmlNode) :
  parse_loop P fuel no_tables name fin = Ret T ->
  preamble P A beginning T = Some nodes ->
  exists trace,
    (forall fuel',
        Z.to_nat (product (cursors (labelNames T) (iterLengths T))) <= fuel' ->
        sweep P A fuel' T (iters T) (blank A) = Ret trace)
    /\ Forall (fun x =>
         forall key lbl v,
           StdMap.find key (labelMapInv T) = Some lbl ->
           StdMap.find key (p T) = Some v ->
           exists val,
             vec_at v (cursor lbl (fst x)) = Some val
             /\ (is_field key = true ->
                 (forall l ns,
                     StdMap.find l (labelMap T) = Some ns -> In key ns ->
                     l = lbl) ->
                 StdMap.find key (parameters (snd x)) = Some val)) trace.
Proof.
  intros Hparse Hpre.
  pose proof (parsed_lengths_positive P fuel name fin T Hparse) as Hpos.
  destruct (parse_loop_ok P fuel _ _ _ _ no_tables_ok Hparse)
    as [_ _ _ _ _ _ _ Hkn Hord].
  destruct (sweep_runs _ _ _ P A fuel name fin T beginning nodes Hparse Hpre)
    as (trace & Ht & Hod & _).
  pose proof (sweep_values P A _ T _ _ _ Hord Hkn (Ht _ (Nat.le_refl _)))
    as Hval.
  exists trace. split; [exact Ht|].
  apply Forall_forall. intros x Hx key lbl v Hi Hp.
  assert (HE : entries_ok T).
  { apply (parse_loop_entries P fuel no_tables name fin T no_tables_ok);
      [|exact Hparse].
    intros k w Hk. discriminate. }
  destruct (HE key v Hp) as (lbl' & names & E1 & E2 & E3 & E4 & E5).
  assert (lbl' = lbl) by congruence. subst lbl'.
  assert (Hc : combination (cursors (labelNames T) (iterLengths T))
                 (cursors (labelNames T) (fst x))).
  { assert (Hin : In (cursors (labelNames T) (fst x))
                    (odometer (cursors (labelNames T) (iterLengths T)))).
    { rewrite <- Hod. apply in_map_iff. now exists x. }
    unfold odometer in Hin. apply in_map_iff in Hin.
    destruct Hin as (k & <- & _). now apply digits_combination. }
  pose proof (combination_cursor _ _ _ Hc lbl E4) as Hb.
  replace (cursor lbl (iterLengths T)) with (Z.of_nat (List.length v)) in Hb
    by (unfold cursor; now rewrite E5).
  destruct (vec_at_some v _ Hb) as [val Hv].
  exists val. split; [exact Hv|]. intros Hf Hu.
  rewrite Forall_forall in Hval.
  exact (Hval x Hx lbl names key v val E2 E3 Hu Hf Hp Hv E4).
Qed.

(** [sweep_indices_in_range] on the file [Box.sample]: [B_y] in the six
    configurations. *)
Lemma sweep_indices_in_range_witness :
  exists trace,
    sweep Plain.platform (Box.args 1) 6 Box.tables (iters Box.tables) Box.blank
    = Ret trace
    /\ Forall (fun x =>
         exists val, vec_at [5; 6]%float (cursor "L" (fst x)) = Some val)
         trace.
Proof.
  assert (Hp : parse_loop Plain.platform 100 no_tables "in"
                 (mkStream Box.sample true) = Ret Box.tables)
    by (vm_compute; reflexivity).
  assert (Hn : exists nodes,
             preamble Plain.platform (Box.args 1) 0 Box.tables = Some nodes)
    by (vm_compute; eexists; reflexivity).
  destruct Hn as [nodes Hn].
  assert (Hi : StdMap.find "B_y" (labelMapInv Box.tables) = Some "L")
    by (vm_compute; reflexivity).
  assert (Hv : StdMap.find "B_y" (p Box.tables) = Some [5; 6]%float)
    by (vm_compute; reflexivity).
  destruct (sweep_indices_in_range _ _ _ Plain.platform (Box.args 1) 100 "in"
              (mkStream Box.sample true) Box.tables 0 nodes Hp Hn)
    as (trace & Hs & Hall).
  exists trace. split; [apply Hs; vm_compute; lia|].
  eapply Forall_impl; [|exact Hall]. intros x Hx.
  destruct (Hx "B_y" "L" [5; 6]%float Hi Hv) as (val & Hval & _).
  now exists val.
Defined.

(** ** Missing parameters *)

Lemma collect_none {X Y : Type} (f : X -> option Y) (l : list X) :
  collect f l = None <-> exists x, In x l /\ f x = None.
Proof.
  induction l as [|a l IH]; cbn [collect In].
  - split; [discriminate|]. intros (x & [] & _).
  - destruct (f a) as [y|] eqn:Fa; cbn [bind].
    + destruct (collect f l) as [ys|] eqn:C; cbn [bind].
      * split; [discriminate|]. intros (x & [<-|Hx] & Hn); [congruence|].
        assert (H : Some ys = None) by (apply IH; eauto). discriminate H.
      * split; [|reflexivity]. intros _.
        destruct (proj1 IH eq_refl) as (x & Hx & Hn). exists x. auto.
    + split; [|reflexivity]. intros _. exists a. auto.
Qed.

Lemma at0_none (P : Platform) (T : Tables) (k : string) :
  at0 P T k = None <-> StdMap.find k (p T) = None.
Proof.
  unfold at0. destruct (StdMap.find k (p T)) as [[|v l]|];
    split; congruence.
Qed.

Lemma ind_of_none (T : Tables) (k : string) :
  ind_of T k = None <-> StdMap.find k (p T) = None.
Proof.
  unfold ind_of. destruct (StdMap.find k (p T)); simpl; split; congruence.
Qed.

(** X10.  The skeleton of the report needs an entry for each of the twelve
    constants and each of the sixty-four parameters: it is built exactly
    when none is missing from the file.  When one is missing (as in an
    empty or unreadable file) [main] writes that the file is missing some
    data and returns 24, before any job is started. *)
Theorem missing_parameter_ends_run (Vector Results MolProto : Type)
    (P : Platform) (E : Engine Vector Results MolProto)
    (A : Args (Vector:=Vector) (Results:=Results) (MolProto:=MolProto))
    (delay : nat -> nat) (clock : nat -> Z) (fuel : nat) (name : string)
    (fin : istream) (beginning : Z) (T : Tables) :
  parse_loop P fuel no_tables name fin = Ret T ->
  (preamble P A beginning T = None
   <-> exists k, In k (constants ++ inds) /\ StdMap.find k (p T) = None)
  /\ ((exists k, In k (constants ++ inds) /\ StdMap.find k (p T) = None) ->
      main P E A delay clock fuel name fin beginning
      = (Returned 24, [MissingDataMsg], None)
      /\ jobs_run (main P E A delay clock fuel name fin beginning) = []).
Proof.
  intros Hparse.
  assert (Hiff : preamble P A beginning T = None
                 <-> exists k, In k (constants ++ inds)
                               /\ StdMap.find k (p T) = None).
  { unfold preamble. split.
    - intros H.
      destruct (collect _ constants) as [vars|] eqn:C1; cbn [bind] in H.
      + destruct (collect (ind_of T) inds) as [ix|] eqn:C2; cbn [bind] in H;
          [discriminate|].
        apply collect_none in C2. destruct C2 as (k & Hk & Hn).
        exists k. split; [apply in_or_app; now right|].
        now apply ind_of_none.
      + apply collect_none in C1. destruct C1 as (k & Hk & Hn).
        exists k. split; [apply in_or_app; now left|].
        apply (at0_none P). destruct (at0 P T k); [discriminate|reflexivity].
    - intros (k & Hk & Hn). apply in_app_or in Hk. destruct Hk as [Hk|Hk].
      + replace (collect _ constants) with (@None (list (string * double)));
          [reflexivity|].
        symmetry. apply collect_none. exists k. split; [exact Hk|].
        apply (at0_none P) in Hn. now rewrite Hn.
      + destruct (collect _ constants); [|reflexivity]. cbn [bind].
        replace (collect (ind_of T) inds)
          with (@None (list (string * option string * list double)));
          [reflexivity|].
        symmetry. apply collect_none. exists k. split; [exact Hk|].
        now apply ind_of_none. }
  split; [exact Hiff|]. intros Hk. apply Hiff in Hk.
  unfold main. rewrite Hparse, Hk. split; reflexivity.
Qed.

(** [missing_parameter_ends_run] on an empty file. *)
Lemma missing_parameter_ends_run_witness :
  main Plain.platform Box.engine (Box.args 1) (fun _ => 0) (fun _ => 0%Z) 1
    "in" (mkStream "" true) 0
  = (Returned 24, [MissingDataMsg], None).
Proof.
  refine (proj1 (proj2 (missing_parameter_ends_run _ _ _ Plain.platform
    Box.engine (Box.args 1) (fun _ => 0) (fun _ => 0%Z) 1 "in"
    (mkStream "" true) 0 no_tables eq_refl) _)).
  exists "width". split; [simpl; tauto|reflexivity].
Defined.

(** ** How a run can end *)

Lemma advance_keys (lens : StdMap.t Z) (names : list string) :
  forall its l,
    In l (StdMap.keys (fst (advance names lens its))) ->
    In l names \/ In l (StdMap.keys its).
Proof.
  induction names as [|n ns IH]; intros its l H; [now right|].
  cbn [advance] in H. destruct (_ <=? _)%Z.
  - apply IH in H. destruct H as [H|H]; [left; now right|].
    apply keys_set in H. destruct H as [->|H]; [left; now left|now right].
  - cbn [fst] in H. apply keys_set in H.
    destruct H as [->|H]; [left; now left|now right].
Qed.

Section RunStatus.

Context {Vector Results MolProto : Type}.
Variable P : Platform.
Variable E : Engine Vector Results MolProto.
Variable A : Args (Vector:=Vector) (Results:=Results) (MolProto:=MolProto).
Variable delay : nat -> nat.
Variable clock : nat -> Z.

Local Abbreviation JobInfo := (Info Vector Results MolProto).
Local Abbreviation RunState :=
  (State (Vector:=Vector) (Results:=Results) (MolProto:=MolProto)).

Lemma drain_status (fuel : nat) :
  forall step openThreads (st : RunState),
    run_status (fst (drain E A clock fuel step openThreads st)).
Proof.
  unfold run_status.
  induction fuel as [|fuel IH]; intros step o st; [simpl; tauto|].
  cbn [drain]. destruct (o <? threadCount A)%nat; [|simpl; tauto].
  destruct (slot (threadPool st) (nextIndex st)) as [f|]; [|apply IH].
  destruct (pending f); [|apply IH].
  destruct (algorithm E (job f)) as [w [post|]]; [apply IH|simpl; tauto].
Qed.

Lemma run_loop_status (T : Tables) (step : double) (fuel : nat) :
  constants_present P T ->
  (forall l, In l (labelNames T) -> StdMap.find l (labelMap T) <> None) ->
  forall st : RunState,
    (forall l, In l (StdMap.keys (st_iters st)) -> In l (labelNames T)) ->
    run_status (fst (run_loop P E A delay clock fuel T step st)).
Proof.
  intros Hc Hm.
  induction fuel as [|fuel IH]; intros st Hk; [unfold run_status; simpl; tauto|].
  cbn [run_loop]. destruct (hasNextIter st).
  - destruct (materialize_some P A T (st_iters st) (st_preInfo st) Hc)
      as [info Hi]; [intros l Hl; auto|].
    unfold nextIter. rewrite Hi. cbn [bind].
    pose proof (advance_keys (iterLengths T) (labelNames T) (st_iters st))
      as Hadv.
    destruct (advance (labelNames T) (iterLengths T) (st_iters st))
      as [its more]. cbn [fst] in Hadv.
    assert (Hk' : forall l, In l (StdMap.keys its) -> In l (labelNames T)).
    { intros l Hl. destruct (Hadv l Hl); auto. }
    destruct (1 <? threadCount A)%nat.
    + destruct (acquire A fuel (threadPool st) (nextIndex st))
        as [[[pool i] taken]|]; [|unfold run_status; simpl; tauto].
      destruct taken as [j|]; [|apply IH; exact Hk'].
      destruct (algorithm E j) as [w [post|]];
        [apply IH; exact Hk'|unfold run_status; simpl; tauto].
    + destruct (algorithm E info) as [w [post|]];
        [apply IH; exact Hk'|unfold run_status; simpl; tauto].
  - destruct (1 <? threadCount A)%nat;
      [apply drain_status|unfold run_status; simpl; tauto].
Qed.

End RunStatus.

(** X11.  Whatever the file and however the jobs go, [main] ends in one of five
    ways: it returns 0; a job ends the process with [exit(-10)]; it
    returns a code from 17 to 23 for a corrupted file or 24 for missing
    data; or a loop does not end.  The codes 17 to 24 are returned only
    before the simulation part is entered, so with no job started: once
    the skeleton of the report is built no [out_of_range] can leave the
    run. *)
Theorem main_outcomes (Vector Results MolProto : Type)
    (P : Platform) (E : Engine Vector Results MolProto)
    (A : Args (Vector:=Vector) (Results:=Results) (MolProto:=MolProto))
    (delay : nat -> nat) (clock : nat -> Z) (fuel : nat) (name : string)
    (fin : istream) (beginning : Z) :
  let r := main P E A delay clock fuel name fin beginning in
  (snd r <> None /\ run_status (fst (fst r)))
  \/ (snd r = None /\ jobs_run r = []
      /\ (fst (fst r) = Spinning
          \/ exists code, fst (fst r) = Returned code /\ (17 <= code <= 24)%Z)).
Proof.
  cbn zeta. unfold main.
  destruct (parse_loop P fuel no_tables name fin) as [T|e err|] eqn:Hparse.
  - destruct (preamble P A beginning T) as [nodes|] eqn:Hpre.
    + left.
      pose proof (run_loop_status P E A delay clock T (progress_step T) fuel
                    (preamble_constants P A T _ _ Hpre)) as Hs.
      destruct (parse_loop_ok P fuel _ _ _ _ no_tables_ok Hparse)
        as [_ _ Hm _ _ _ Hi _ _].
      specialize (Hs (fun l Hl => proj1 (Hm l) Hl)
                    (start A T beginning nodes) Hi).
      destruct (run_loop P E A delay clock fuel T (progress_step T)
                  (start A T beginning nodes)) as [status st].
      split; [discriminate|exact Hs].
    + right. repeat split. right. exists 24%Z. split; [reflexivity|lia].
  - right. repeat split. right. exists (Z.lor e 16). split; [reflexivity|].
    destruct (parse_loop_codes P fuel _ _ _ _ _ Hparse) as [Hin _].
    unfold parser_codes in Hin. simpl in Hin.
    repeat (destruct Hin as [<-|Hin]; [vm_compute; split; congruence|]).
    destruct Hin.
  - right. repeat split. now left.
Qed.

(** ** The report during the run *)

Section JournalFacts.

Context {Vector Results MolProto : Type}.
Variable P : Platform.
Variable E : Engine Vector Results MolProto.
Variable A : Args (Vector:=Vector) (Results:=Results) (MolProto:=MolProto).
Variable delay : nat -> nat.
Variable clock : nat -> Z.

Local Abbreviation JobInfo := (Info Vector Results MolProto).
Local Abbreviation RunState :=
  (State (Vector:=Vector) (Results:=Results) (MolProto:=MolProto)).
Local Abbreviation Report :=
  (Journal (Vector:=Vector) (Results:=Results) (MolProto:=MolProto)).

(** A property of the journal that [recordData] keeps. *)
Variable Q : Report -> Prop.
Hypothesis Q_record :
  forall step now J info, Q J -> Q (recordData step now J info).

Lemma drain_journal (fuel : nat) :
  forall step openThreads (st : RunState),
    Q (journal st) ->
    Q (journal (snd (drain E A clock fuel step openThreads st))).
Proof.
  induction fuel as [|fuel IH]; intros step o st HQ; [exact HQ|].
  cbn [drain]. destruct (o <? threadCount A)%nat; [|exact HQ].
  destruct (slot (threadPool st) (nextIndex st)) as [f|];
    [|apply IH; exact HQ].
  destruct (pending f); [|apply IH; exact HQ].
  destruct (algorithm E (job f)) as [w [post|]]; [|exact HQ].
  apply IH. cbn [journal record log]. now apply Q_record.
Qed.

Lemma run_loop_journal (T : Tables) (step : double) (fuel : nat) :
  forall st : RunState,
    Q (journal st) ->
    Q (journal (snd (run_loop P E A delay clock fuel T step st))).
Proof.
  induction fuel as [|fuel IH]; intros st HQ; [exact HQ|].
  cbn [run_loop]. destruct (hasNextIter st).
  - destruct (nextIter P A T (st_iters st) (st_preInfo st))
      as [[[preInfo its] more]|]; [|exact HQ].
    destruct (1 <? threadCount A)%nat.
    + destruct (acquire A fuel (threadPool st) (nextIndex st))
        as [[[pool i] taken]|]; [|exact HQ].
      destruct taken as [j|]; [|apply IH; exact HQ].
      destruct (algorithm E j) as [w [post|]]; [|exact HQ].
      apply IH. cbn [journal record log launch]. now apply Q_record.
    + destruct (algorithm E preInfo) as [w [post|]]; [|exact HQ].
      apply IH. cbn [journal record log]. now apply Q_record.
  - destruct (1 <? threadCount A)%nat; [|exact HQ].
    now apply drain_journal.
Qed.

End JournalFacts.

(** X12.  At every point of the run (the state reached with any fuel) the
    output file, as the requests made so far leave it, holds exactly one
    document, the current one in full; the skeleton is still at the front
    of the root, and all that follows it are [<data>] elements. *)
Theorem report_file_current (Vector Results MolProto : Type)
    (P : Platform) (E : Engine Vector Results MolProto)
    (A : Args (Vector:=Vector) (Results:=Results) (MolProto:=MolProto))
    (delay : nat -> nat) (clock : nat -> Z) (T : Tables) (step : double)
    (beginning : Z) (nodes : list XmlNode) (fuel : nat) :
  let st :=
    snd (run_loop P E A delay clock fuel T step (start A T beginning nodes)) in
  (forall content,
      file_after (fout (journal st)) content = [root (journal st)])
  /\ skeleton_then_data nodes (root (journal st)).
Proof.
  cbn zeta.
  apply (run_loop_journal P E A delay clock
           (fun J => (forall content, file_after (fout J) content = [root J])
                     /\ skeleton_then_data nodes (root J))).
  - intros step0 now J info [H1 H2]. split.
    + intros content. unfold recordData. cbn [fout root].
      rewrite file_after_app. reflexivity.
    + destruct H2 as (records & Hroot & Hr).
      exists (records ++ [record_of now info]). unfold recordData.
      cbn [root]. rewrite Hroot, <- app_assoc. split; [reflexivity|].
      apply Forall_app. split; [exact Hr|].
      constructor; [|constructor]. unfold record_of. eauto.
  - unfold start. cbn [journal fout root]. split; [reflexivity|].
    exists []. rewrite app_nil_r. split; [reflexivity|constructor].
Qed.

(** ** More fuel changes nothing *)

Lemma range_loop_mono (fuel : nat) :
  forall fuel' val lim inc vec v,
    range_loop fuel val lim inc vec = Some v ->
    fuel <= fuel' ->
    range_loop fuel' val lim inc vec = Some v.
Proof.
  induction fuel as [|fuel IH]; intros fuel' val lim inc vec v H Hle;
    [discriminate|].
  destruct fuel' as [|fuel']; [lia|]. cbn [range_loop] in *.
  destruct (in_range val lim inc); [|exact H].
  apply IH; [exact H|lia].
Qed.

Lemma list_loop_mono (P : Platform) (fuel : nat) :
  forall fuel' vec fin r,
    list_loop P fuel vec fin = Some r ->
    fuel <= fuel' ->
    list_loop P fuel' vec fin = Some r.
Proof.
  induction fuel as [|fuel IH]; intros fuel' vec fin r H Hle; [discriminate|].
  destruct fuel' as [|fuel']; [lia|]. cbn [list_loop] in *.
  destruct (read_num (scan_double P) fin) as [[[val|s]|] fin1]; try exact H.
  apply IH; [exact H|lia].
Qed.

Lemma entry_loop_mono (P : Platform) (fuel : nat) :
  forall fuel' vec lbl str fin,
    entry_loop P fuel vec lbl str fin <> Hang ->
    fuel <= fuel' ->
    entry_loop P fuel' vec lbl str fin = entry_loop P fuel vec lbl str fin.
Proof.
  induction fuel as [|fuel IH]; intros fuel' vec lbl str fin H Hle;
    [now elim H|].
  destruct fuel' as [|fuel']; [lia|]. cbn [entry_loop] in *.
  destruct (read_string fin) as [[s|] fin1]; [|reflexivity].
  destruct (s =? "=").
  { destruct (read_num (scan_double P) fin1) as [[[val|?]|] fin2];
      try reflexivity.
    destruct (vec ++ [val]); [apply IH; [exact H|lia]|reflexivity]. }
  destruct (s =? ":").
  { destruct (read_num (scan_double P) fin1) as [rval fin2].
    destruct (read_num (scan_double P) fin2) as [rlim fin3].
    destruct (read_num (scan_double P) fin3) as [rinc fin4].
    destruct rval as [[val|?]|]; try reflexivity.
    destruct rlim as [[lim|?]|]; try reflexivity.
    destruct rinc as [[inc|?]|]; try reflexivity.
    destruct (PrimFloat.eqb inc 0); [reflexivity|].
    destruct (range_loop fuel val (padded_limit lim inc) inc vec) as [v|] eqn:R;
      [|now elim H].
    rewrite (range_loop_mono fuel fuel' _ _ _ _ _ R) by lia.
    destruct v; [apply IH; [exact H|lia]|reflexivity]. }
  destruct (s =? "{").
  { destruct (list_loop P fuel vec fin1) as [[v fin2]|] eqn:L; [|now elim H].
    rewrite (list_loop_mono P fuel fuel' _ _ _ L) by lia.
    destruct (read_string (clear fin2)) as [r fin3].
    destruct (negb _); [reflexivity|]. destruct v; reflexivity. }
  destruct (String.length lbl =? 0)%nat; [|reflexivity].
  destruct vec; [apply IH; [exact H|lia]|reflexivity].
Qed.

Lemma read_item_mono (P : Platform) (fuel fuel' : nat) str fin :
  read_item P fuel str fin <> Hang ->
  fuel <= fuel' ->
  read_item P fuel' str fin = read_item P fuel str fin.
Proof.
  unfold read_item. intros H Hle.
  destruct (read_string fin) as [[key|] fin1]; [|reflexivity].
  destruct (starts_with "#" key); [reflexivity|].
  destruct (starts_with "[" key); [reflexivity|].
  rewrite (entry_loop_mono P fuel fuel'); [reflexivity| |exact Hle].
  intros Hh. rewrite Hh in H. now elim H.
Qed.

Lemma parse_loop_mono (P : Platform) (fuel : nat) :
  forall fuel' T str fin,
    parse_loop P fuel T str fin <> Hang ->
    fuel <= fuel' ->
    parse_loop P fuel' T str fin = parse_loop P fuel T str fin.
Proof.
  induction fuel as [|fuel IH]; intros fuel' T str fin H Hle; [now elim H|].
  destruct fuel' as [|fuel']; [lia|]. cbn [parse_loop] in *.
  rewrite (read_item_mono P fuel fuel') by
    (try lia; intros Hh; rewrite Hh in H; now elim H).
  destruct (read_item P fuel str fin) as [[[it s] f]| |]; try reflexivity.
  destruct it as [| |sp|key lbl vec]; try reflexivity;
    try (apply IH; [exact H|lia]).
  destruct (commit T key lbl vec) as [T1| |]; try reflexivity.
  apply IH; [exact H|lia].
Qed.

(** ** A run without a molecule file *)

Section Completion.

Context {Vector Results MolProto : Type}.
Variable P : Platform.
Variable E : Engine Vector Results MolProto.
Variable A : Args (Vector:=Vector) (Results:=Results) (MolProto:=MolProto).

Local Abbreviation JobInfo := (Info Vector Results MolProto).

(** [setMolProto] is the only call of a job that can end the process, and
    it is made only when [usingMMB] is set. *)
Lemma algorithm_ends (info : JobInfo) :
  usingMMB info = false -> snd (algorithm E info) <> None.
Proof.
  intros H. unfold algorithm, configure. rewrite H.
  destruct (custom_spins _ _ _). discriminate.
Qed.

Lemma materialize_usingMMB (T : Tables) its (pre info : JobInfo) :
  materialize P A T its pre = Some info -> usingMMB info = arg_usingMMB A.
Proof.
  unfold materialize. intros Hm.
  repeat match type of Hm with
  | bind (at0 P T ?k) _ = _ =>
      destruct (at0 P T k); [cbn [bind] in Hm|discriminate]
  end.
  destruct (assign_labels T its (parameters pre)); [|discriminate].
  cbn [bind] in Hm. now injection Hm as <-.
Qed.

Lemma materialized_all_end (T : Tables) (trace : list (StdMap.t Z * JobInfo)) :
  arg_usingMMB A = false ->
  forall pre, materialized P A T pre trace -> all_end E (map snd trace).
Proof.
  intros HA. induction trace as [|[its info] rest IH]; intros pre Hm.
  - constructor.
  - destruct Hm as [Hm Hrest]. constructor; [|exact (IH _ Hrest)].
    apply algorithm_ends. cbn [snd].
    now rewrite (materialize_usingMMB _ _ _ _ Hm).
Qed.

Lemma completed_all_end (jobs : list JobInfo) :
  all_end E jobs -> List.length (completed E jobs) = List.length jobs.
Proof.
  induction 1 as [|j jobs Hj _ IH]; [reflexivity|]. cbn [completed].
  destruct (snd (algorithm E j)); [|now elim Hj]. simpl. now rewrite IH.
Qed.

End Completion.

Lemma stamped_length {Vector Results MolProto : Type} (clock : nat -> Z)
    (posts : list (Info Vector Results MolProto)) :
  forall n, List.length (stamped clock n posts) = List.length posts.
Proof.
  induction posts as [|a l IH]; intros n; simpl; [reflexivity|].
  now rewrite IH.
Qed.

(** X13.  When the molecule type is [LINEAR] or [CIRCULAR] (no molecule file,
    so no job can end the process) and the parameter file parses and has
    every parameter, the whole run ends, for any number of workers:
    [main] returns 0 having written nothing to [cerr] itself, every
    configuration of the sweep has been run and collected exactly once,
    and the report is the skeleton followed by one [<data>] element for
    each, as many as the product of the label lengths. *)
Theorem run_completes (Vector Results MolProto : Type)
    (P : Platform) (E : Engine Vector Results MolProto)
    (A : Args (Vector:=Vector) (Results:=Results) (MolProto:=MolProto))
    (delay : nat -> nat) (clock : nat -> Z) (fuel0 : nat) (name : string)
    (fin : istream) (beginning : Z) (T : Tables) (nodes : list XmlNode) :
  parse_loop P fuel0 no_tables name fin = Ret T ->
  preamble P A beginning T = Some nodes ->
  arg_usingMMB A = false ->
  exists trace bound,
    (forall fuel,
        Z.to_nat (product (cursors (labelNames T) (iterLengths T))) <= fuel ->
        sweep P A fuel T (iters T) (blank A) = Ret trace)
    /\ forall fuel, bound <= fuel ->
         exists st' order,
           main P E A delay clock fuel name fin beginning
           = (Returned 0, [], Some st')
           /\ collected st' = order
           /\ Permutation order (map snd trace)
           /\ root (journal st')
              = nodes ++ stamped clock (List.length nodes) (completed E order)
           /\ Z.of_nat (List.length (completed E order))
              = product (cursors (labelNames T) (iterLengths T)).
Proof.
  intros Hparse Hpre HA.
  destruct (sweep_runs _ _ _ P A fuel0 name fin T beginning nodes Hparse Hpre)
    as (trace & Hs & Hod & Hmat).
  pose proof (materialized_all_end P E A T trace HA _ Hmat) as Hend.
  assert (Hlen : Z.of_nat (List.length (map snd trace))
                 = product (cursors (labelNames T) (iterLengths T))).
  { rewrite <- (odometer_length _ (parsed_lengths_positive P _ _ _ _ Hparse)).
    now rewrite <- Hod, !length_map. }
  assert (Hmain : forall fuel st',
             fuel0 <= fuel ->
             run_loop P E A delay clock fuel T (progress_step T)
               (start A T beginning nodes) = (Returned 0, st') ->
             main P E A delay clock fuel name fin beginning
             = (Returned 0, [], Some st')).
  { intros fuel st' Hf Hr. unfold main.
    rewrite (parse_loop_mono P fuel0 fuel) by (try lia; congruence).
    now rewrite Hparse, Hpre, Hr. }
  exists trace.
  destruct (Nat.ltb_spec 1 (threadCount A)) as [HN|HN].
  - destruct (run_loop_pool P E A delay clock T (progress_step T) trace
                (start A T beginning nodes) HN (start_pool_inv A T _ _ HN))
      as [bound Hb].
    { unfold remaining. cbn. eexists. apply Hs. apply Nat.le_refl. }
    { unfold start. cbn [threadPool].
      replace (1 <? threadCount A)%nat with true
        by (symmetry; apply Nat.ltb_lt; lia).
      now rewrite in_flight_repeat. }
    assert (Hflight : in_flight (threadPool (start A T beginning nodes)) = []).
    { unfold start. cbn [threadPool].
      replace (1 <? threadCount A)%nat with true
        by (symmetry; apply Nat.ltb_lt; lia).
      apply in_flight_repeat. }
    exists (fuel0 + bound). split; [exact Hs|]. intros fuel Hf.
    destruct (Hb fuel ltac:(lia))
      as (order & st' & R1 & R2 & R3 & R4 & R5 & R6 & R7 & _).
    rewrite Hflight in R5. exists st', order.
    split; [apply Hmain; [lia|exact R1]|].
    repeat split; auto.
    rewrite R7, <- Hlen. now rewrite (Permutation_length R5).
  - exists (fuel0 + S (List.length trace)). split; [exact Hs|].
    intros fuel Hf.
    destruct (run_loop_inline P E A delay clock T (progress_step T) trace
                (List.length trace) fuel (start A T beginning nodes) HN
                eq_refl) as (I1 & I2 & I3); [|lia|].
    { apply Hs. rewrite length_map in Hlen. lia. }
    pose proof (completed_all_end E _ Hend) as Hc.
    unfold inline_status in I1. rewrite Hc, Nat.eqb_refl in I1.
    rewrite Hc, firstn_all in I3.
    exists (snd (run_loop P E A delay clock fuel T (progress_step T)
                   (start A T beginning nodes))), (map snd trace).
    split.
    { apply Hmain; [lia|]. rewrite <- I1. apply surjective_pairing. }
    repeat split; auto. now rewrite Hc.
Qed.

(** [run_completes] on the file [Box.sample] with three workers: six
    records after the skeleton. *)
Lemma run_completes_witness :
  exists bound nodes,
    forall fuel, bound <= fuel ->
      exists st' posts,
        main Plain.platform Box.engine (Box.args 3) (fun k => 5 - k)
          Z.of_nat fuel "in" (mkStream Box.sample true) 0
        = (Returned 0, [], Some st')
        /\ root (journal st') = nodes ++ posts
        /\ List.length posts = 6.
Proof.
  assert (Hp : parse_loop Plain.platform 100 no_tables "in"
                 (mkStream Box.sample true) = Ret Box.tables)
    by (vm_compute; reflexivity).
  assert (Hn : exists nodes,
             preamble Plain.platform (Box.args 3) 0 Box.tables = Some nodes)
    by (vm_compute; eexists; reflexivity).
  destruct Hn as [nodes Hn].
  destruct (run_completes _ _ _ Plain.platform Box.engine (Box.args 3)
              (fun k => 5 - k) Z.of_nat 100 "in" (mkStream Box.sample true)
              0 Box.tables nodes Hp Hn eq_refl)
    as (trace & bound & _ & Hb).
  exists bound, nodes. intros fuel Hf.
  destruct (Hb fuel Hf) as (st' & order & M1 & _ & _ & M4 & M5).
  exists st'. eexists. split; [exact M1|]. split; [exact M4|].
  assert (Z.of_nat (List.length (completed Box.engine order)) = 6%Z)
    by (rewrite M5; vm_compute; reflexivity).
  rewrite stamped_length. lia.
Defined.

(** ** The elapsed time *)

(** X14.  The four numbers [reportTime] prints stand for the seconds it was
    given: they add up to them, hours stay below 24 and minutes and
    seconds below 60 in absolute value, and for an elapsed time that is
    not negative none of them is negative. *)
Theorem reportTime_recomposes (sec : Z) :
  let '(days, hr, min, s) := reportTime sec in
  (sec = days * 86400 + hr * 3600 + min * 60 + s)%Z
  /\ (Z.abs hr < 24 /\ Z.abs min < 60 /\ Z.abs s < 60)%Z
  /\ ((0 <= sec)%Z -> (0 <= days /\ 0 <= hr /\ 0 <= min /\ 0 <= s)%Z).
Proof.
  unfold reportTime.
  pose proof (Z.quot_rem' sec 60) as E1.
  pose proof (Z.quot_rem' (Z.quot sec 60) 60) as E2.
  pose proof (Z.quot_rem' (Z.quot (Z.quot sec 60) 60) 24) as E3.
  pose proof (Z.rem_bound_abs sec 60 ltac:(lia)) as B1.
  pose proof (Z.rem_bound_abs (Z.quot sec 60) 60 ltac:(lia)) as B2.
  pose proof (Z.rem_bound_abs (Z.quot (Z.quot sec 60) 60) 24 ltac:(lia)) as B3.
  split; [lia|]. split; [lia|]. intros Hs.
  assert (Q1 : (0 <= Z.quot sec 60)%Z) by (apply Z.quot_pos; lia).
  assert (Q2 : (0 <= Z.quot (Z.quot sec 60) 60)%Z) by (apply Z.quot_pos; lia).
  assert (Q3 : (0 <= Z.quot (Z.quot (Z.quot sec 60) 60) 24)%Z)
    by (apply Z.quot_pos; lia).
  pose proof (Z.rem_nonneg sec 60 ltac:(lia) Hs).
  pose proof (Z.rem_nonneg (Z.quot sec 60) 60 ltac:(lia) Q1).
  pose proof (Z.rem_nonneg (Z.quot (Z.quot sec 60) 60) 24 ltac:(lia) Q2).
  lia.
Qed.

(** ** The command line *)

Section CommandLineFacts.

Context {Vector Results MolProto : Type}.
Variable H : Host (Vector:=Vector) (Results:=Results) (MolProto:=MolProto).
Variable P : Platform.

Lemma read_threads_positive (before n : N) (text : string) :
  read_threads P before text = Some n -> (1 <= n)%N.
Proof.
  unfold read_threads.
  destruct (read_num (scan_unsigned P) (mkStream text true)) as [r ss].
  destruct (negb (good ss)); [discriminate|]. cbn [orb].
  destruct (stored before r <=? 0)%N eqn:Hz; [discriminate|].
  intros [= <-]. apply N.leb_gt in Hz. lia.
Qed.

End CommandLineFacts.

Lemma arguments_positive_threads {Vector Results MolProto : Type}
    (H : Host (Vector:=Vector) (Results:=Results) (MolProto:=MolProto))
    (P : Platform) (argv : list string) (notes : list Note)
    (A : Args (Vector:=Vector) (Results:=Results) (MolProto:=MolProto)) :
  arguments H P argv = (notes, inr A) -> 1 <= threadCount A.
Proof.
  unfold arguments. intros Ha.
  repeat match type of Ha with
  | (if ?c then (_, inl _) else _) = _ => destruct c; [discriminate|]
  end.
  cbv zeta in Ha.
  set (hw := if (1 <? hardware_concurrency H)%N
             then hardware_concurrency H else 1%N) in *.
  assert (Hhw : (1 <= hw)%N)
    by (subst hw; destruct (N.ltb_spec 1 (hardware_concurrency H)); lia).
  destruct (List.length argv <=? 6)%nat.
  - break_hyp Ha; injection Ha as <- <-; cbn [threadCount]; lia.
  - destruct (read_threads P hw (arg argv 6)) as [n|] eqn:R; [|discriminate].
    apply read_threads_positive in R.
    break_hyp Ha; injection Ha as <- <-; cbn [threadCount]; lia.
Qed.

Lemma arguments_rejected_codes {Vector Results MolProto : Type}
    (H : Host (Vector:=Vector) (Results:=Results) (MolProto:=MolProto))
    (P : Platform) (argv : list string) (notes : list Note) (code : Z) :
  arguments H P argv = (notes, inl code) ->
  In code [-1; -2; -3; -4; -5; -6; -7; -8; -9]%Z.
Proof.
  unfold arguments. intros Ha. cbv zeta in Ha.
  repeat match type of Ha with
  | (if ?c then (_, inl _) else _) = _ =>
      destruct c; [injection Ha as <- <-; simpl; tauto|]
  end.
  destruct (if (List.length argv <=? 6)%nat then _ else _) as [[n|] notes0];
    [|injection Ha as <- <-; simpl; tauto].
  break_hyp Ha; injection Ha as <- <-; simpl; tauto.
Qed.

(** X15.  When the command line is accepted it has at least the five arguments
    after the program name; the number of workers is at least one (the
    given one, or else the hardware concurrency, or one); the model and
    the initialization mode are the ones named by the third and fourth
    arguments; and a molecule file is in use exactly when the fifth
    argument is neither [LINEAR] nor [CIRCULAR], in which case it was
    loaded from the file of that name. *)
Theorem arguments_settled (Vector Results MolProto : Type)
    (H : Host (Vector:=Vector) (Results:=Results) (MolProto:=MolProto))
    (P : Platform) (argv : list string) (notes : list Note)
    (A : Args (Vector:=Vector) (Results:=Results) (MolProto:=MolProto)) :
  arguments H P argv = (notes, inr A) ->
  6 <= List.length argv
  /\ 1 <= threadCount A
  /\ (List.length argv = 6 ->
      threadCount A = N.to_nat (N.max 1 (hardware_concurrency H)))
  /\ (arg argv 3 = "CONTINUOUS_SPIN_MODEL"
      /\ arg_flippingAlgorithm A = CONTINUOUS_SPIN_MODEL
      \/ arg argv 3 = "UP_DOWN_MODEL"
         /\ arg_flippingAlgorithm A = UP_DOWN_MODEL)
  /\ (arg argv 4 = "REINITIALIZE" /\ arg_initMode A = REINITIALIZE
      \/ arg argv 4 = "RANDOMIZE" /\ arg_initMode A = RANDOMIZE)
  /\ (arg_usingMMB A = false
      <-> arg argv 5 = "LINEAR" \/ arg argv 5 = "CIRCULAR")
  /\ (arg_molType A = CIRCULAR_MOL <-> arg argv 5 = "CIRCULAR")
  /\ (arg_usingMMB A = true ->
      load_mmb H (arg argv 5) = Some (arg_molProto A)).
Proof.
  unfold arguments. intros Ha.
  destruct (List.length argv <=? 1)%nat eqn:L1; [discriminate|].
  destruct (List.length argv <=? 2)%nat eqn:L2; [discriminate|].
  destruct (List.length argv <=? 3)%nat eqn:L3; [discriminate|].
  destruct (List.length argv <=? 4)%nat eqn:L4; [discriminate|].
  destruct (List.length argv <=? 5)%nat eqn:L5; [discriminate|].
  apply Nat.leb_gt in L5. cbv zeta in Ha.
  set (hw := hardware_concurrency H) in *.
  assert (Hthreads :
            exists n notes0,
              (if (List.length argv <=? 6)%nat
               then (Some (if (1 <? hw)%N then hw else 1%N),
                     [DefaultThreads (if (1 <? hw)%N then hw else 1%N)])
               else (read_threads P (if (1 <? hw)%N then hw else 1%N)
                       (arg argv 6), [])) = (Some n, notes0)
              /\ (1 <= n)%N
              /\ (List.length argv = 6 -> n = N.max 1 hw)).
  { destruct (List.length argv <=? 6)%nat eqn:L6.
    - eexists. eexists. split; [reflexivity|].
      destruct (N.ltb_spec 1 hw); split; try lia; intros _; lia.
    - apply Nat.leb_gt in L6.
      destruct (read_threads P _ (arg argv 6)) as [n|] eqn:R;
        [|discriminate].
      exists n, []. split; [reflexivity|]. split; [|lia].
      exact (read_threads_positive P _ _ _ R). }
  destruct Hthreads as (n & notes0 & Ht & Hn & Hdef). rewrite Ht in Ha.
  destruct (String.eqb_spec (arg argv 3) "CONTINUOUS_SPIN_MODEL") as [M1|M1];
    [|destruct (String.eqb_spec (arg argv 3) "UP_DOWN_MODEL") as [M2|M2];
      [|discriminate]];
    (destruct (String.eqb_spec (arg argv 4) "REINITIALIZE") as [I1|I1];
      [|destruct (String.eqb_spec (arg argv 4) "RANDOMIZE") as [I2|I2];
        [|discriminate]]);
    (destruct (String.eqb_spec (arg argv 5) "LINEAR") as [T1|T1];
      [|destruct (String.eqb_spec (arg argv 5) "CIRCULAR") as [T2|T2];
        [|destruct (load_mmb H (arg argv 5)) as [mol|] eqn:Hload;
          [|discriminate]]]);
    injection Ha as <- <-;
    cbn [threadCount arg_flippingAlgorithm arg_initMode arg_usingMMB
         arg_molType arg_molProto];
    (split; [lia|]); (split; [lia|]);
    (split; [intros L; rewrite (Hdef L); reflexivity|]);
    (split; [tauto|]); (split; [tauto|]);
    (split; [split; [try discriminate; tauto|try tauto]|]);
    (split; [split; [try discriminate; try tauto|
                     try reflexivity; try congruence]|]);
    try discriminate; try (intros _; reflexivity).
Qed.

(** [arguments_settled] on a command line that asks for three workers. *)
Lemma arguments_settled_witness :
  6 <= List.length BoxFiles.argv
  /\ 1 <= threadCount (Box.args 3)
  /\ (arg_usingMMB (Box.args 3) = false
      <-> arg BoxFiles.argv 5 = "LINEAR" \/ arg BoxFiles.argv 5 = "CIRCULAR").
Proof.
  destruct (arguments_settled _ _ _ BoxFiles.host Plain.platform BoxFiles.argv
              [] (Box.args 3) eq_refl)
    as (H1 & H2 & _ & _ & _ & H6 & _).
  exact (conj H1 (conj H2 H6)).
Defined.



(** X17.  Before it reads the parameter file [main] either returns one of the
    codes -1 to -9 (command line) or 33 and 34 (output file that cannot
    be opened, or written), with nothing read and no job started; or it
    goes on with at least one worker.  These codes are apart from those of
    the parser (17 to 23), of missing data (24) and of a finished run
    (0). *)
Theorem program_startup (Vector Results MolProto : Type)
    (H : Host (Vector:=Vector) (Results:=Results) (MolProto:=MolProto))
    (P : Platform) (E : Engine Vector Results MolProto)
    (delay : nat -> nat) (clock : nat -> Z) (fuel : nat)
    (argv : list string) (fin : istream) (beginning : Z) :
  let r := program H P E delay clock fuel argv fin beginning in
  (exists code,
      In code startup_codes
      /\ snd r = (Returned code, [], None)
      /\ (code < 0 \/ 32 < code)%Z)
  \/ (exists A,
         arguments H P argv = (fst r, inr A)
         /\ 1 <= threadCount A
         /\ open_fails H (arg argv 2) = false
         /\ write_fails H (arg argv 2) = false
         /\ snd r = main P E A delay clock fuel (arg argv 1) fin beginning).
Proof.
  cbn zeta. unfold program.
  destruct (arguments H P argv) as [notes [code|A]] eqn:Ha.
  - left. exists code. cbn [snd].
    apply arguments_rejected_codes in Ha.
    split; [|split; [reflexivity|]];
      unfold startup_codes; simpl in *; intuition lia.
  - unfold prepare_output.
    destruct (open_fails H (arg argv 2)) eqn:Ho.
    { left. exists 33%Z. cbn [snd]. change (Z.lor 1 32) with 33%Z.
      split; [unfold startup_codes; simpl; tauto|]. split; [reflexivity|lia]. }
    destruct (write_fails H (arg argv 2)) eqn:Hw.
    { left. exists 34%Z. cbn [snd]. change (Z.lor 2 32) with 34%Z.
      split; [unfold startup_codes; simpl; tauto|]. split; [reflexivity|lia]. }
    right. exists A. cbn [fst snd]. repeat split; auto.
    apply arguments_positive_threads in Ha. exact Ha.
Qed.

(** ** The snapshot of a job *)

Lemma in_upto (n x : N) : In x (upto n) <-> (x < n)%N.
Proof.
  unfold upto. rewrite in_map_iff. split.
  - intros (k & <- & Hk). apply in_seq in Hk. lia.
  - intros Hx. exists (N.to_nat x). split; [apply N2Nat.id|].
    apply in_seq. lia.
Qed.

Lemma upto_nodup (n : N) : NoDup (upto n).
Proof.
  unfold upto. apply Finite.Injective_map_NoDup; [|apply seq_NoDup].
  intros a b Hab. now apply Nat2N.inj.
Qed.

Lemma flat_map_nodup {X Y : Type} (f : X -> list Y) (l : list X) :
  NoDup l ->
  (forall x, In x l -> NoDup (f x)) ->
  (forall x y a, In x l -> In y l -> In a (f x) -> In a (f y) -> x = y) ->
  NoDup (flat_map f l).
Proof.
  induction 1 as [|x l Hx Hl IH]; intros Hf Hd; cbn [flat_map];
    [constructor|].
  apply NoDup_app.
  - apply Hf. now left.
  - apply IH.
    + intros y Hy. apply Hf. now right.
    + intros y z a Hy Hz. apply Hd; now right.
  - intros a Ha Hin. apply in_flat_map in Hin. destruct Hin as (y & Hy & Hay).
    assert (x = y) by (apply (Hd x y a); simpl; auto). now subst y.
Qed.

Section SnapshotFacts.

Context {Vector Results MolProto : Type}.
Variable E : Engine Vector Results MolProto.

Lemma in_atom_at (msd : MSD E) (x y z : N) (a : Atom Vector) :
  In a (atom_at E msd x y z)
  <-> site_of a = (x, y, z)
      /\ getSpin E msd x y z = Some (atom_spin a)
      /\ getFlux E msd x y z = Some (atom_flux a)
      /\ getLocalM E msd x y z = Some (atom_mag a).
Proof.
  unfold atom_at, site_of.
  destruct (getSpin E msd x y z) as [s|];
    [destruct (getFlux E msd x y z) as [f|];
      [destruct (getLocalM E msd x y z) as [m|]|]|];
    simpl; split;
    try (intros []; fail);
    try (intros (_ & H1 & H2 & H3); discriminate).
  - intros [<-|[]]. simpl. auto.
  - intros (Hs & [= H1] & [= H2] & [= H3]). left.
    destruct a as [ax ay az asp af am]. simpl in *.
    injection Hs as -> -> ->. now subst.
Qed.

Lemma in_snapshot (msd : MSD E) (a : Atom Vector) :
  In a (snapshot E msd)
  <-> (atom_x a < getWidth E msd)%N
      /\ (atom_y a < getHeight E msd)%N
      /\ (atom_z a < getDepth E msd)%N
      /\ getSpin E msd (atom_x a) (atom_y a) (atom_z a) = Some (atom_spin a)
      /\ getFlux E msd (atom_x a) (atom_y a) (atom_z a) = Some (atom_flux a)
      /\ getLocalM E msd (atom_x a) (atom_y a) (atom_z a) = Some (atom_mag a).
Proof.
  unfold snapshot. rewrite in_flat_map. split.
  - intros (x & Hx & H). apply in_flat_map in H. destruct H as (y & Hy & H).
    apply in_flat_map in H. destruct H as (z & Hz & H).
    apply in_atom_at in H. destruct H as ([= -> -> ->] & H1 & H2 & H3).
    apply in_upto in Hx, Hy, Hz. auto 7.
  - intros (Hx & Hy & Hz & H1 & H2 & H3).
    exists (atom_x a). split; [now apply in_upto|].
    apply in_flat_map. exists (atom_y a). split; [now apply in_upto|].
    apply in_flat_map. exists (atom_z a). split; [now apply in_upto|].
    apply in_atom_at. auto.
Qed.

Lemma atom_at_site (msd : MSD E) (x y z : N) (a : Atom Vector) :
  In a (atom_at E msd x y z) -> site_of a = (x, y, z).
Proof. intros H. now apply in_atom_at in H. Qed.

Lemma snapshot_nodup (msd : MSD E) : NoDup (snapshot E msd).
Proof.
  unfold snapshot.
  apply flat_map_nodup; [apply upto_nodup| |].
  - intros x _. apply flat_map_nodup; [apply upto_nodup| |].
    + intros y _. apply flat_map_nodup; [apply upto_nodup| |].
      * intros z _. unfold atom_at.
        destruct (getSpin E msd x y z); [|constructor].
        destruct (getFlux E msd x y z); [|constructor].
        destruct (getLocalM E msd x y z); [|constructor].
        constructor; [intros []|constructor].
      * intros z z' a _ _ H1 H2.
        apply atom_at_site in H1, H2. congruence.
    + intros y y' a _ _ H1 H2.
      apply in_flat_map in H1, H2.
      destruct H1 as (z & _ & H1). destruct H2 as (z' & _ & H2).
      apply atom_at_site in H1, H2. congruence.
  - intros x x' a _ _ H1 H2.
    apply in_flat_map in H1, H2.
    destruct H1 as (y & _ & H1). destruct H2 as (y' & _ & H2).
    apply in_flat_map in H1, H2.
    destruct H1 as (z & _ & H1). destruct H2 as (z' & _ & H2).
    apply atom_at_site in H1, H2. congruence.
Qed.

End SnapshotFacts.

(** X18.  The atoms a job reports are exactly the sites of its lattice: one atom
    for each coordinate inside the box at which the spin, the flux and the
    local magnetization can all be read, carrying those three vectors, and
    no atom twice or for any other coordinate.  The atoms the
    configuration came with are dropped, and everything but the results
    and the atoms is returned as it was given. *)
Theorem job_reports_sites (Vector Results MolProto : Type)
    (E : Engine Vector Results MolProto) (info post : Info Vector Results MolProto)
    (w : list Msg) :
  algorithm E info = (w, Some post) ->
  exists msd,
    post = with_results info (measure E msd) (snapshot E msd)
    /\ NoDup (map site_of (atoms post))
    /\ forall a,
         In a (atoms post)
         <-> (atom_x a < getWidth E msd)%N
             /\ (atom_y a < getHeight E msd)%N
             /\ (atom_z a < getDepth E msd)%N
             /\ getSpin E msd (atom_x a) (atom_y a) (atom_z a)
                = Some (atom_spin a)
             /\ getFlux E msd (atom_x a) (atom_y a) (atom_z a)
                = Some (atom_flux a)
             /\ getLocalM E msd (atom_x a) (atom_y a) (atom_z a)
                = Some (atom_mag a).
Proof.
  unfold algorithm. intros Ha.
  destruct (configure E info) as [msd0|]; [|discriminate].
  destruct (custom_spins E msd0 (info_spins info)) as [msd1 warnings].
  injection Ha as _ <-. eexists. split; [reflexivity|].
  cbn [atoms with_results]. split; [|apply in_snapshot].
  apply Finite.Injective_map_NoDup_in; [|apply snapshot_nodup].
  intros a b Ha Hb Hab. apply in_snapshot in Ha, Hb.
  destruct a as [ax ay az asp af am], b as [bx by' bz bsp bf bm].
  unfold site_of in Hab. simpl in *. injection Hab as -> -> ->.
  destruct Ha as (_ & _ & _ & A1 & A2 & A3).
  destruct Hb as (_ & _ & _ & B1 & B2 & B3). congruence.
Qed.

(** [job_reports_sites] on the job [Box.holed], whose lattice has four
    sites. *)
Lemma job_reports_sites_witness :
  exists post,
    snd (algorithm Box.engine Box.holed) = Some post
    /\ NoDup (map site_of (atoms post)).
Proof.
  destruct (algorithm Box.engine Box.holed) as [w [post|]] eqn:Ha;
    [|vm_compute in Ha; discriminate].
  destruct (job_reports_sites _ _ _ Box.engine Box.holed post w Ha)
    as (msd & _ & Hn & _).
  exists post. split; [reflexivity|exact Hn].
Defined.

(** ** Custom spin lines *)

(** X19.  A line [[x y z] = norm] (the bracket closed right after [z]) adds the
    spin [norm] at [x y z] to the list and leaves the parameter tables
    alone. *)
Theorem spin_line_parsed (P : Platform) (fuel : nat) (T : Tables)
    (str key w : string) (fin f0 f1 f2 f3 f4 : istream) (x y z : N)
    (norm : double) :
  read_string fin = (Some key, f0) ->
  starts_with "#" key = false ->
  starts_with "[" key = true ->
  1 < String.length key ->
  fst (read_num (scan_unsigned P)
         (mkStream (substring 1 (String.length key - 1) key) true))
  = Some (ScanOk x) ->
  read_num (scan_unsigned P) f0 = (Some (ScanOk y), f1) ->
  read_string f1 = (Some w, f2) ->
  fst (read_num (scan_unsigned P) (mkStream (strip_bracket w) true))
  = Some (ScanOk z) ->
  read_string f2 = (Some "=", f3) ->
  read_num (scan_double P) f3 = (Some (ScanOk norm), f4) ->
  parse_loop P (S fuel) T str fin
  = parse_loop P fuel (push_spin T (mkSpin x y z norm)) "=" f4.
Proof.
  intros Hk H1 H2 Hlen Hx Hy Hw Hz He Hn.
  cbn [parse_loop]. unfold read_item. rewrite Hk, H1, H2.
  unfold read_spin.
  replace (1 <? String.length key)%nat with true
    by (symmetry; now apply Nat.ltb_lt).
  rewrite Hx, Hy, Hw, Hz, He, Hn. reflexivity.
Qed.

(** [spin_line_parsed] on the line [[1 0 2] = 3]. *)
Lemma spin_line_parsed_witness :
  parse_loop Plain.platform 2 no_tables "in" (mkStream "[1 0 2] = 3" true)
  = Ret (push_spin no_tables (mkSpin 1 0 2 3%float)).
Proof.
  rewrite (spin_line_parsed Plain.platform 1 no_tables "in" "[1" "2]"
             (mkStream "[1 0 2] = 3" true) (mkStream " 0 2] = 3" true)
             (mkStream " 2] = 3" true) (mkStream " = 3" true)
             (mkStream " 3" true) (mkStream "" true) 1 0 2 3%float);
    vm_compute; reflexivity.
Defined.



(** ** The polling loop ends *)

(** X21.  The loop that looks for a slot for the next job ends: with the jobs in
    flight each ready after finitely many polls, it takes at most one turn
    more than the polls still to time out plus the jobs in flight,
    whichever slot it starts at, and more turns allowed change nothing. *)
Theorem polling_ends (Vector Results MolProto : Type)
    (A : Args (Vector:=Vector) (Results:=Results) (MolProto:=MolProto))
    (pool : list (option (Future (Vector:=Vector) (Results:=Results)
                            (MolProto:=MolProto))))
    (i : nat) :
  exists r,
    forall fuel, waiting pool < fuel -> acquire A fuel pool i = Some r.
Proof.
  destruct (acquire_total A (S (waiting pool)) pool i (Nat.lt_succ_diag_r _))
    as [r Hr].
  exists r. intros fuel Hf.
  apply (acquire_mono A (S (waiting pool)) pool i r Hr). lia.
Qed.

(** ** What a job writes *)

Section JobMessages.

Context {Vector Results MolProto : Type}.
Variable E : Engine Vector Results MolProto.

Lemma custom_spins_warnings (l : list Spin) :
  forall msd,
    List.length (snd (custom_spins E msd l)) <= List.length l
    /\ forall m, In m (snd (custom_spins E msd l)) ->
         exists s, m = SpinWarningMsg s /\ In s l.
Proof.
  induction l as [|s l IH]; intros msd; cbn [custom_spins].
  - split; [simpl; lia|intros m []].
  - destruct (match getSpin E msd (spin_x s) (spin_y s) (spin_z s) with
              | Some vec => _
              | None => None
              end) as [msd'|].
    + destruct (IH msd') as [Hlen Hin]. split; [simpl; lia|].
      intros m Hm. destruct (Hin m Hm) as (s' & -> & Hs'). exists s'.
      split; [reflexivity|now right].
    + destruct (IH msd) as [Hlen Hin].
      destruct (custom_spins E msd l) as [msd' w]. cbn [snd] in *.
      split; [simpl; lia|]. intros m [<-|Hm].
      * exists s. split; [reflexivity|now left].
      * destruct (Hin m Hm) as (s' & -> & Hs'). exists s'.
        split; [reflexivity|now right].
Qed.

End JobMessages.

(** X22.  A job writes to [cerr] either the one message of a molecule that does
    not fit, and then ends the process without a result, or warnings about
    custom spins only: each names a spin of the job's own list, there are
    no more of them than spins, and the job returns a result. *)
Theorem job_messages (Vector Results MolProto : Type)
    (E : Engine Vector Results MolProto)
    (info : Info Vector Results MolProto) :
  algorithm E info = ([MoleculeMsg], None) /\ usingMMB info = true
  \/ (exists post, snd (algorithm E info) = Some post)
     /\ List.length (fst (algorithm E info)) <= List.length (info_spins info)
     /\ forall m, In m (fst (algorithm E info)) ->
          exists s, m = SpinWarningMsg s /\ In s (info_spins info).
Proof.
  unfold algorithm.
  destruct (configure E info) as [msd0|] eqn:Hc.
  - right.
    destruct (custom_spins_warnings E (info_spins info) msd0) as [Hlen Hin].
    destruct (custom_spins E msd0 (info_spins info)) as [msd1 w].
    cbn [fst snd] in *. split; [eauto|]. split; [exact Hlen|exact Hin].
  - left. split; [reflexivity|]. unfold configure in Hc.
    destruct (usingMMB info); [reflexivity|discriminate].
Qed.
